(** * redux-orm: QuerySet and Session

    A shallow embedding of [QuerySet] (the chainable query handle) and
    [Session] (one dispatch cycle) of redux-orm, together with the parts of
    lodash they delegate to, and the properties of their specification. *)

From Stdlib Require Import ZArith Ascii String List Sorting.Sorted Sorting.Permutation Lia.
From stdpp Require Import base option list gmap strings pretty.

Local Open Scope Z_scope.

(** ** JavaScript values

    Field values of the normalized store are primitives.  Numbers are
    restricted to integers, and a string is a sequence of code units below
    256.  The one kind of value that is not a primitive is a member that
    every plain object inherits from [Object.prototype], which is what
    reading [constructor] or [toString] from a raw record gives. *)

Module ObjectPrototype.

(** The own properties of [Object.prototype]. *)
Inductive member :=
| constructor
| hasOwnProperty
| isPrototypeOf
| propertyIsEnumerable
| toLocaleString
| toString
| valueOf
| __proto__
| __defineGetter__
| __defineSetter__
| __lookupGetter__
| __lookupSetter__.

Definition members : list member :=
  [constructor; hasOwnProperty; isPrototypeOf; propertyIsEnumerable;
   toLocaleString; toString; valueOf; __proto__; __defineGetter__;
   __defineSetter__; __lookupGetter__; __lookupSetter__].

Definition name (m : member) : string :=
  match m with
  | constructor => "constructor"
  | hasOwnProperty => "hasOwnProperty"
  | isPrototypeOf => "isPrototypeOf"
  | propertyIsEnumerable => "propertyIsEnumerable"
  | toLocaleString => "toLocaleString"
  | toString => "toString"
  | valueOf => "valueOf"
  | __proto__ => "__proto__"
  | __defineGetter__ => "__defineGetter__"
  | __defineSetter__ => "__defineSetter__"
  | __lookupGetter__ => "__lookupGetter__"
  | __lookupSetter__ => "__lookupSetter__"
  end.

(** The member a plain object inherits under [key], if any. *)
Definition inherited (key : string) : option member :=
  List.find (λ m, String.eqb (name m) key) members.

(** The string the member converts to ([ToPrimitive]): the source text of
    a built-in function as V8 prints it; [constructor] is the function
    [Object], and [__proto__] reads as [Object.prototype] itself. *)
Definition text (m : member) : string :=
  match m with
  | __proto__ => "[object Object]"
  | constructor => "function Object() { [native code] }"
  | _ => String.append "function " (String.append (name m) "() { [native code] }")
  end.

End ObjectPrototype.

Inductive value :=
| VUndefined
| VNull
| VBool (b : bool)
| VNum (n : Z)
| VStr (s : string)
| VObject (o : ObjectPrototype.member).

Global Instance member_eq_dec : EqDecision ObjectPrototype.member.
Proof. solve_decision. Defined.

Global Instance value_eq_dec : EqDecision value.
Proof. solve_decision. Defined.

Definition value_encode (v : value)
    : unit + (unit + (bool + (Z + (string + string)))) :=
  match v with
  | VUndefined => inl tt
  | VNull => inr (inl tt)
  | VBool b => inr (inr (inl b))
  | VNum n => inr (inr (inr (inl n)))
  | VStr s => inr (inr (inr (inr (inl s))))
  | VObject o => inr (inr (inr (inr (inr (ObjectPrototype.name o)))))
  end.

Definition value_decode (x : unit + (unit + (bool + (Z + (string + string)))))
    : value :=
  match x with
  | inl _ => VUndefined
  | inr (inl _) => VNull
  | inr (inr (inl b)) => VBool b
  | inr (inr (inr (inl n))) => VNum n
  | inr (inr (inr (inr (inl s)))) => VStr s
  | inr (inr (inr (inr (inr k)))) =>
      match ObjectPrototype.inherited k with
      | Some o => VObject o
      | None => VUndefined
      end
  end.

Global Instance value_countable : Countable value.
Proof.
  refine (inj_countable' value_encode value_decode _).
  intros [| | | | |[]]; reflexivity.
Defined.

(** A raw record: a plain object from field names to values. *)
Abbreviation record := (gmap string value).

(** [ToBoolean]. *)
Definition truthy (v : value) : bool :=
  match v with
  | VUndefined | VNull => false
  | VBool b => b
  | VNum n => negb (n =? 0)
  | VStr s => negb (String.eqb s "")
  | VObject _ => true
  end.

(** [===]; an inherited member is identical to itself only. *)
Definition strict_eq (a b : value) : bool := bool_decide (a = b).

(** What [ToNumber] gives: NaN, an infinity, or the decimal [m * 10 ^ e].
    Numbers are compared by their exact value; the rounding of a numeric
    string to the nearest double is not modelled. *)
Inductive number :=
| NaN
| Infinite (negative : bool)
| Finite (m e : Z).

Definition number_lt (x y : number) : bool :=
  match x, y with
  | Finite m1 e1, Finite m2 e2 =>
      let e := Z.min e1 e2 in
      m1 * 10 ^ (e1 - e) <? m2 * 10 ^ (e2 - e)
  | Infinite true, Finite _ _ => true
  | Infinite true, Infinite false => true
  | Finite _ _, Infinite false => true
  | _, _ => false
  end.

(** [StringToNumber], after the grammar of [StringNumericLiteral]: white
    space around the literal is dropped and the empty string is 0; the
    literal is [Infinity] or a decimal literal, either with an optional
    sign, or an unsigned hexadecimal, octal or binary integer; anything else
    is NaN. *)
Module StringToNumber.

Definition isWhiteSpace (c : ascii) : bool :=
  let n := Ascii.nat_of_ascii c in
  ((9 <=? n) && (n <=? 13) || (n =? 32) || (n =? 160))%nat.

Fixpoint dropWhiteSpace (s : string) : string :=
  match s with
  | String c s' => if isWhiteSpace c then dropWhiteSpace s' else s
  | EmptyString => EmptyString
  end.

Definition trim (s : string) : string :=
  String.rev (dropWhiteSpace (String.rev (dropWhiteSpace s))).

(** The value of a digit of a hexadecimal literal. *)
Definition digitValue (c : ascii) : option Z :=
  let n := Z.of_nat (Ascii.nat_of_ascii c) in
  if (48 <=? n) && (n <=? 57) then Some (n - 48)
  else if (65 <=? n) && (n <=? 70) then Some (n - 55)
  else if (97 <=? n) && (n <=? 102) then Some (n - 87)
  else None.

(** Reads the digits at the head of [s] in the given base: the number read
    after the digits [acc], how many digits there were after the first
    [count], and what follows them. *)
Fixpoint digits (base : Z) (s : string) (acc count : Z) : Z * Z * string :=
  match s with
  | String c s' =>
      match digitValue c with
      | Some d =>
          if d <? base then digits base s' (acc * base + d) (count + 1)
          else (acc, count, s)
      | None => (acc, count, s)
      end
  | EmptyString => (acc, count, s)
  end.

(** An optional sign: whether it is [-], and what follows it. *)
Definition sign (s : string) : bool * string :=
  match s with
  | String "+"%char s' => (false, s')
  | String "-"%char s' => (true, s')
  | _ => (false, s)
  end.

(** [StrUnsignedDecimalLiteral]. *)
Definition unsignedDecimal (s : string) : number :=
  if String.eqb s "Infinity" then Infinite false else
  let '(i, ni, r1) := digits 10 s 0 0 in
  let '(m, nf, r2) :=
    match r1 with
    | String "."%char r => digits 10 r i 0
    | _ => (i, 0, r1)
    end in
  if (ni =? 0) && (nf =? 0) then NaN else
  match r2 with
  | EmptyString => Finite m (- nf)
  | String c r3 =>
      if Ascii.eqb c "e"%char || Ascii.eqb c "E"%char then
        let '(neg, r4) := sign r3 in
        let '(x, nx, r5) := digits 10 r4 0 0 in
        if (0 <? nx) && String.eqb r5 ""
        then Finite m ((if neg then - x else x) - nf)
        else NaN
      else NaN
  end.

(** [NonDecimalIntegerLiteral] in the given base, after its prefix. *)
Definition nonDecimal (base : Z) (s : string) : number :=
  let '(v, n, r) := digits base s 0 0 in
  if (0 <? n) && String.eqb r "" then Finite v 0 else NaN.

Definition negate (x : number) : number :=
  match x with
  | NaN => NaN
  | Infinite b => Infinite (negb b)
  | Finite m e => Finite (- m) e
  end.

Definition parse (s : string) : number :=
  match trim s with
  | EmptyString => Finite 0 0
  | String "0"%char (String c r) as t =>
      if Ascii.eqb c "x"%char || Ascii.eqb c "X"%char then nonDecimal 16 r
      else if Ascii.eqb c "o"%char || Ascii.eqb c "O"%char then nonDecimal 8 r
      else if Ascii.eqb c "b"%char || Ascii.eqb c "B"%char then nonDecimal 2 r
      else unsignedDecimal t
  | String "+"%char r => unsignedDecimal r
  | String "-"%char r => negate (unsignedDecimal r)
  | t => unsignedDecimal t
  end.

End StringToNumber.

(** [ToPrimitive]: an inherited member converts to its text. *)
Definition to_primitive (v : value) : value :=
  match v with
  | VObject o => VStr (ObjectPrototype.text o)
  | _ => v
  end.

(** [ToNumber]. *)
Definition to_number (v : value) : number :=
  match v with
  | VUndefined => NaN
  | VNull => Finite 0 0
  | VBool b => Finite (if b then 1 else 0) 0
  | VNum n => Finite n 0
  | VStr s => StringToNumber.parse s
  | VObject o => StringToNumber.parse (ObjectPrototype.text o)
  end.

(** The relational comparison [a < b]: after [ToPrimitive], two strings
    compare by code units, anything else numerically, and a NaN operand
    makes it false. *)
Definition js_lt (a b : value) : bool :=
  match to_primitive a, to_primitive b with
  | VStr s, VStr t => String.ltb s t
  | _, _ => number_lt (to_number a) (to_number b)
  end.

Definition js_gt (a b : value) : bool := js_lt b a.

(** ** Exceptions

    The only exception the modelled code can raise is the [TypeError] of a
    property read or a method call on [undefined]. *)

Inductive result (A : Type) :=
| Ok (a : A)
| TypeError.
Arguments Ok {A} a.
Arguments TypeError {A}.

Global Instance result_ret : MRet result := λ A a, Ok a.
Global Instance result_bind : MBind result := λ A B f m,
  match m with Ok a => f a | TypeError => TypeError end.
Global Instance result_fmap : FMap result := λ A B f m,
  match m with Ok a => Ok (f a) | TypeError => TypeError end.

(** ** Entities

    What an element of a QuerySet materializes to: the raw record held by the
    store, a wrapped entity (a Model instance), or [undefined] when the id is
    not found. *)

Inductive entity (Inst : Type) :=
| EUndefined
| ERef (r : record)
| EModel (m : Inst).
Arguments EUndefined {Inst}.
Arguments ERef {Inst} r.
Arguments EModel {Inst} m.

Definition of_ref {Inst} (o : option record) : entity Inst :=
  match o with Some r => ERef r | None => EUndefined end.

Definition of_model {Inst} (o : option Inst) : entity Inst :=
  match o with Some m => EModel m | None => EUndefined end.

(** [key in object] together with [object[key]] for a raw record: its own
    field, or else the member that every plain object inherits under that
    name. *)
Definition record_get (r : record) (key : string) : option value :=
  match r !! key with
  | Some v => Some v
  | None => VObject <$> ObjectPrototype.inherited key
  end.

(** [obj[key]]: a [TypeError] on [undefined], [undefined] for a name the
    object neither has nor inherits.  A wrapped entity is treated as an
    object without properties; the modelled code never reads a property of
    one. *)
Definition get_prop {Inst} (obj : entity Inst) (key : string) : result value :=
  match obj with
  | EUndefined => TypeError
  | ERef r => Ok (default VUndefined (record_get r key))
  | EModel _ => Ok VUndefined
  end.

(** ** lodash

    The functions of the lodash library that QuerySet imports, after their
    documented behaviour on arrays of entities: [filter], [reject],
    [mapValues] (as [fmap] on maps) and [orderBy], with the iteratee
    shorthands they accept. *)

Module Lodash.
Section Lodash.
Context {Inst : Type}.

(** What lodash accepts where it expects a function: a function, an object
    ([_.matches]) or a property name given as a string or a number
    ([_.property]). *)
Inductive shorthand :=
| LFunc (f : entity Inst → result value)
| LObject (source : record)
| LString (path : string)
| LNumber (n : Z).

(** [baseProperty(key)(object)]: [object == null ? undefined : object[key]],
    the own field of a raw record or the member it inherits. *)
Definition property (key : string) (object : entity Inst) : value :=
  match get_prop object key with
  | Ok v => v
  | TypeError => VUndefined
  end.

(** [_.matches(source)(object)], the partial comparison of [baseIsMatch]:
    every key of [source] is in [object] ([key in object], so an inherited
    member counts) with a strictly equal value; [undefined] matches only
    the empty source. *)
Definition matches (source : record) (object : entity Inst) : bool :=
  match object with
  | ERef r => bool_decide (map_Forall (λ k v, record_get r k = Some v) source)
  | _ => bool_decide (source = ∅)
  end.

(** A property name that [isKey] accepts without looking at the object:
    only word characters (no path syntax). *)
Definition is_word_char (c : ascii) : bool :=
  let n := Ascii.nat_of_ascii c in
  ((48 <=? n) && (n <=? 57) || (65 <=? n) && (n <=? 90)
   || (97 <=? n) && (n <=? 122) || (n =? 95))%nat.

Fixpoint isPlainProp (s : string) : bool :=
  match s with
  | EmptyString => true
  | String c s' => is_word_char c && isPlainProp s'
  end.

(** [_.iteratee].  A string or a number is the [_.property] shorthand.  A
    string of word characters ([isPlainProp]) names one property, read with
    [baseProperty].  A string with a [.] or a bracket lodash reads as a path
    and walks it through the values of the record; that walk is not
    modelled: such a string is read here as the name of one property too,
    and what is stated of string shorthands is stated of names of word
    characters. *)
Definition iteratee (p : shorthand) : entity Inst → result value :=
  match p with
  | LFunc f => f
  | LObject source => λ o, Ok (VBool (matches source o))
  | LString path => λ o, Ok (property path o)
  | LNumber n => λ o, Ok (property (pretty n) o)
  end.

Fixpoint arrayFilter (predicate : entity Inst → result value)
    (array : list (entity Inst)) : result (list (entity Inst)) :=
  match array with
  | [] => Ok []
  | v :: rest =>
      b ← predicate v;
      kept ← arrayFilter predicate rest;
      Ok (if truthy b then v :: kept else kept)
  end.

Definition negate (predicate : entity Inst → result value)
    : entity Inst → result value :=
  λ v, b ← predicate v; Ok (VBool (negb (truthy b))).

Definition filter (collection : list (entity Inst)) (predicate : shorthand)
    : result (list (entity Inst)) :=
  arrayFilter (iteratee predicate) collection.

Definition reject (collection : list (entity Inst)) (predicate : shorthand)
    : result (list (entity Inst)) :=
  arrayFilter (negate (iteratee predicate)) collection.

(** [compareAscending] on the values of the store (no symbols, no NaN):
    [undefined] sorts last, [null] just before it. *)
Definition compareAscending (v other : value) : Z :=
  if negb (strict_eq v other) then
    let valIsDefined := negb (strict_eq v VUndefined) in
    let valIsNull := strict_eq v VNull in
    let othIsDefined := negb (strict_eq other VUndefined) in
    let othIsNull := strict_eq other VNull in
    if (negb othIsNull && js_gt v other)
       || (valIsNull && othIsDefined)
       || negb valIsDefined
    then 1
    else if (negb valIsNull && js_lt v other)
            || (othIsNull && valIsDefined)
            || negb othIsDefined
    then -1
    else 0
  else 0.

Inductive order := asc | desc.

(** An element decorated by [baseOrderBy] with its sort keys and its
    position in the collection. *)
Record sortItem := {
  criteria : list value;
  index : nat;
  item : entity Inst;
}.

(** The loop of [compareMultiple] over the criteria; [orders] has been
    advanced to the current criterion. *)
Fixpoint compareCriteria (objCriteria othCriteria : list value)
    (orders : list order) : Z :=
  match objCriteria, othCriteria with
  | v :: objCriteria', o :: othCriteria' =>
      let r := compareAscending v o in
      if r =? 0 then compareCriteria objCriteria' othCriteria' (tail orders)
      else match orders with
           | [] => r
           | ord :: _ => r * (match ord with desc => -1 | asc => 1 end)
           end
  | _, _ => 0
  end.

Definition compareMultiple (object other : sortItem) (orders : list order) : Z :=
  let r := compareCriteria (criteria object) (criteria other) orders in
  if r =? 0 then Z.of_nat (index object) - Z.of_nat (index other) else r.

(** [array.sort(comparer)].  [compareMultiple] never returns 0 on two
    distinct positions, so where it is a consistent comparison function
    (transitive on the elements) the array has one sorted arrangement,
    which every sorting algorithm returns and which the insertion sort
    below computes.  Where the comparer is not consistent (a criterion that
    mixes strings and numbers can make it so) ECMAScript leaves the order to
    the implementation, and the order computed here need not be the
    engine's: what is stated of the order of [orderBy] is stated under
    [comparable] or [coherent]. *)
Fixpoint insert (comparer : sortItem → sortItem → Z) (x : sortItem)
    (l : list sortItem) : list sortItem :=
  match l with
  | [] => [x]
  | y :: l' => if comparer x y <=? 0 then x :: l else y :: insert comparer x l'
  end.

Definition baseSortBy (array : list sortItem)
    (comparer : sortItem → sortItem → Z) : list sortItem :=
  foldr (insert comparer) [] array.

(** The primitive a plain object converts to under a relational
    comparison; the key [identity] yields when no iteratee is given. *)
Definition identity (o : entity Inst) : result value :=
  Ok (match o with EUndefined => VUndefined | _ => VStr "[object Object]" end).

Fixpoint decorate (iteratees : list (entity Inst → result value))
    (i : nat) (collection : list (entity Inst)) : result (list sortItem) :=
  match collection with
  | [] => Ok []
  | v :: rest =>
      c ← mapM (λ it, it v) iteratees;
      items ← decorate iteratees (S i) rest;
      Ok ({| criteria := c; index := i; item := v |} :: items)
  end.

Definition baseOrderBy (collection : list (entity Inst))
    (iteratees : list shorthand) (orders : list order)
    : result (list (entity Inst)) :=
  let its := match iteratees with
             | [] => [identity]
             | _ => List.map iteratee iteratees
             end in
  items ← decorate its 0 collection;
  Ok (List.map item (baseSortBy items (λ a b, compareMultiple a b orders))).

(** [_.orderBy(collection, iteratees, orders)]; [orders] may be omitted. *)
Definition orderBy (collection : list (entity Inst))
    (iteratees : list shorthand) (orders : option (list order))
    : result (list (entity Inst)) :=
  baseOrderBy collection iteratees (default [] orders).

End Lodash.
Arguments shorthand : clear implicits.
Arguments sortItem : clear implicits.
End Lodash.

(** ** Update records

    The wire shape [{ type, payload, meta: { name } }].  QuerySet builds
    records without [meta]; the model class stamps its name on them. *)

(** Modelled from the spec: the constants [UPDATE] and [DELETE] of
    constants.js, the kinds of update record a QuerySet produces. *)
Inductive update_type := UPDATE | DELETE.

(** The payload of [QuerySet.update], [{ idArr, mergeObj }], and that of
    [QuerySet.delete], the id array. *)
Inductive update_payload :=
| MergePayload (idArr : list value) (mergeObj : record)
| IdsPayload (idArr : list value).

(** [update.meta], read by [Session.addUpdate] as [update.meta.name]. *)
Record UpdateMeta := { name : string }.

Record Update := {
  type : update_type;
  payload : update_payload;
  meta : option UpdateMeta;
}.

Global Instance update_type_eq_dec : EqDecision update_type.
Proof. solve_decision. Defined.
Global Instance update_payload_eq_dec : EqDecision update_payload.
Proof. solve_decision. Defined.
Global Instance UpdateMeta_eq_dec : EqDecision UpdateMeta.
Proof. solve_decision. Defined.
Global Instance Update_eq_dec : EqDecision Update.
Proof. solve_decision. Defined.

(** ** The Ordered Update Log *)

Module Transaction.

(** Modelled from the spec: an entry of the log of Transaction.js, which
    [Session.updates] unwraps as [update.update]; [applied] tells whether the
    Apply Engine has consumed the record. *)
Record entry := {
  update : Update;
  applied : bool;
}.

(** Modelled from the spec: Transaction.js, the Ordered Update Log: an
    append-only list of update records for one dispatch cycle, each marked
    once the Apply Engine has consumed it. *)
Record Transaction := {
  updates : list entry;
  closed : bool;
}.

(** Modelled from the spec: [new Transaction()], the empty log. *)
Definition new : Transaction := {| updates := []; closed := false |}.

(** Modelled from the spec: [addUpdate(record)] appends to the global
    ordered list. *)
Definition addUpdate (u : Update) (tx : Transaction) : Transaction :=
  {| updates := updates tx ++ [{| update := u; applied := false |}];
     closed := closed tx |}.

(** Modelled from the spec: the target of a record is the table named in
    its [meta]. *)
Definition targets (tableName : string) (u : Update) : bool :=
  bool_decide (meta u = Some {| name := tableName |}).

(** Modelled from the spec: [getUpdatesFor(tableName)] returns, in original
    order, only the records whose target equals [tableName]. *)
Definition getUpdatesFor (tableName : string) (tx : Transaction) : list Update :=
  List.map update (List.filter (λ e, targets tableName (update e)) (updates tx)).

(** Modelled from the spec: the mapping from table name to its update
    records, each group in log order. *)
Definition groupByName (us : list Update) : gmap string (list Update) :=
  foldr (λ u m,
           match meta u with
           | Some mt => <[name mt := u :: default [] (m !! name mt)]> m
           | None => m
           end) ∅ us.

(** Modelled from the spec: [getUnappliedUpdatesByModel()] returns the mapping
    from table name to its update records, restricted to the records not yet
    applied; no value when every record has been applied. *)
Definition getUnappliedUpdatesByModel (tx : Transaction)
    : option (gmap string (list Update)) :=
  match List.filter (λ e, negb (applied e)) (updates tx) with
  | [] => None
  | unapplied => Some (groupByName (List.map update unapplied))
  end.

(** Modelled from the spec: marking the records of one table as consumed by
    the Apply Engine. *)
Definition markApplied (tableName : string) (tx : Transaction) : Transaction :=
  {| updates :=
       List.map (λ e, if targets tableName (update e)
                      then {| update := update e; applied := true |}
                      else e) (updates tx);
     closed := closed tx |}.

(** Modelled from the spec: [close()] marks the log finished. *)
Definition close (tx : Transaction) : Transaction :=
  {| updates := List.map (λ e, {| update := update e; applied := true |}) (updates tx);
     closed := true |}.

End Transaction.
Export Transaction (Transaction).

(** ** Tables and the state tree *)

(** Modelled from the spec: a table value, which no source file declares:
    an ordered sequence of entity ids plus a mapping from id to entity
    record. *)
Record Table := {
  items : list value;
  itemsById : gmap value record;
}.

(** The state tree, indexed as [this.state[modelName]]: from entity-table
    name to table value. *)
Abbreviation StateTree := (gmap string Table).

(** Modelled from the spec: the action of the dispatch cycle, which Session
    only hands to the reducers. *)
Record Action := {
  action_type : string;
  action_payload : value;
}.

(** ** The model class *)

Module Model.

(** Modelled from the spec: the contract of a (session-bound) Model class of
    Model.js, as QuerySet and Session call it; its instances are the wrapped
    entities [Inst].  [reducer] and [getNextState] receive the session's
    state tree and its transaction, which they may extend or mark, and return
    normally; [reducer] returning [None] is a reducer returning [undefined].
    [getNextState] returns the next value of the table of the model, a
    table: the contract is that of a state tree holding the table of every
    model, as the default state of the schema does; what Model.js returns
    for a model whose table the state lacks is not described by it.
    [updateReducer] gives the table the backend leaves behind, and
    [_onDelete] the records the hook of an instance enqueues. *)
Record ModelClass {Inst : Type} := {
  modelName : string;
  idAttribute : string;
  accessId : value → option record;
  withId : value → option Inst;
  getId : Inst → value;
  _onDelete : Inst → list Update;
  reducer : option Table → option Action → StateTree → Transaction
            → option Table * Transaction;
  getNextState : StateTree → Transaction → Table * Transaction;
  updateReducer : Table → Update → Table;
}.
Arguments ModelClass : clear implicits.

(** Modelled from the spec: [Model.addUpdate(record)] routes the record to the
    owning session's log, stamped with the name of its table. *)
Definition addUpdate {Inst} (mc : ModelClass Inst) (u : Update)
    (log : Transaction) : Transaction :=
  Transaction.addUpdate
    {| type := type u; payload := payload u;
       meta := Some {| name := modelName mc |} |} log.

End Model.

(** ** QuerySet *)

Module QuerySet.
Section QuerySet.
Context {Inst : Type}.

(** The options object of the constructor; [None] in [opt_withRefs] is an
    object without an own [withRefs] property. *)
Record Opts := { opt_withRefs : option bool }.

Record QuerySet := {
  modelClass : Model.ModelClass Inst;
  idArr : list value;
  _opts : option Opts;
  _withRefs : bool;
}.

Definition constructor (modelClass : Model.ModelClass Inst) (idArr : list value)
    (opts : option Opts) : QuerySet :=
  {| modelClass := modelClass;
     idArr := idArr;
     _opts := opts;
     _withRefs := match opts with
                  | Some {| opt_withRefs := Some b |} => b
                  | _ => false
                  end |}.

(** [Object.assign({}, a, b)]. *)
Definition assign (a b : option Opts) : Opts :=
  {| opt_withRefs :=
       match b ≫= opt_withRefs with
       | Some x => Some x
       | None => a ≫= opt_withRefs
       end |}.

Definition _new (this : QuerySet) (ids : list value) (userOpts : option Opts)
    : QuerySet :=
  let opts := assign (_opts this) userOpts in
  constructor (modelClass this) ids (Some opts).

(** What a getter hands back: the receiver itself or an object it has just
    constructed. *)
Inductive returned :=
| This
| Fresh (q : QuerySet).

Definition resolve (this : QuerySet) (r : returned) : QuerySet :=
  match r with This => this | Fresh q => q end.

Definition withRefs (this : QuerySet) : returned :=
  if negb (_withRefs this)
  then Fresh (_new this (idArr this) (Some {| opt_withRefs := Some true |}))
  else This.

Definition ref (this : QuerySet) : returned := withRefs this.

Definition withModels (this : QuerySet) : returned :=
  if _withRefs this
  then Fresh (_new this (idArr this) (Some {| opt_withRefs := Some false |}))
  else This.

(** The object store: a reference is a position in it, and constructing an
    object allocates the next one. *)
Definition heap := list QuerySet.

(** Reading a getter on the object at reference [l]. *)
Definition get (getter : QuerySet → returned) (l : nat) (h : heap)
    : option (nat * heap) :=
  this ← h !! l;
  match getter this with
  | This => Some (l, h)
  | Fresh q => Some (List.length h, h ++ [q])
  end.

Definition toRefArray (this : QuerySet) : list (entity Inst) :=
  List.map (λ id, of_ref (Model.accessId (modelClass this) id)) (idArr this).

Definition count (this : QuerySet) : nat := List.length (idArr this).

(** [at(index)]; [idArr[index]] is [undefined] out of range. *)
Definition at_ (this : QuerySet) (index : nat) : entity Inst :=
  let id := default VUndefined (idArr this !! index) in
  if _withRefs this
  then of_ref (Model.accessId (modelClass this) id)
  else of_model (Model.withId (modelClass this) id).

Definition toModelArray (this : QuerySet) : list (entity Inst) :=
  imap (λ idx _, at_ this idx) (idArr this).

Definition all (this : QuerySet) : QuerySet := _new this (idArr this) None.

(** A value of a lookup object: a primitive or an entity standing for its
    id. *)
Inductive lookup_value :=
| LVal (v : value)
| LEntity (m : Inst).

(** Modelled from the spec: [normalizeEntity] of utils.js converts a
    relation-valued field reference to its canonical id form. *)
Definition normalizeEntity (mc : Model.ModelClass Inst) (x : lookup_value) : value :=
  match x with
  | LVal v => v
  | LEntity m => Model.getId mc m
  end.

(** The argument of [filter] and [exclude] by its [typeof]: a function, an
    object, or a string or a number. *)
Inductive predicate :=
| PFunc (f : entity Inst → value)
| PObject (lookupObj : gmap string lookup_value)
| PString (s : string)
| PNumber (n : Z).

(** [obj.getId()]; a raw record has no such method. *)
Definition call_getId (mc : Model.ModelClass Inst) (obj : entity Inst) : result value :=
  match obj with
  | EModel m => Ok (Model.getId mc m)
  | _ => TypeError
  end.

Definition _filterOrExclude (_lookupObj : predicate) (exclude : bool)
    (this : QuerySet) : result QuerySet :=
  let func := if exclude then Lodash.reject else Lodash.filter in
  let '(lookupObj, operationWithRefs, entities) :=
    match _lookupObj with
    | PFunc f =>
        if _withRefs this
        then (Lodash.LFunc (λ e, Ok (f e)), true, toRefArray this)
        else (Lodash.LFunc (λ e, Ok (f e)), false, toModelArray this)
    | PObject lookupObj =>
        (Lodash.LObject (normalizeEntity (modelClass this) <$> lookupObj),
         true, toRefArray this)
    | PString s => (Lodash.LString s, true, toRefArray this)
    | PNumber n => (Lodash.LNumber n, true, toRefArray this)
    end in
  filteredEntities ← func entities lookupObj;
  let getIdFunc :=
    if operationWithRefs : bool
    then (λ obj, get_prop obj (Model.idAttribute (modelClass this)))
    else (λ obj, call_getId (modelClass this) obj) in
  newIdArr ← mapM getIdFunc filteredEntities;
  Ok (_new this newIdArr (Some {| opt_withRefs := Some false |})).

Definition filter (lookupObj : predicate) (this : QuerySet) : result QuerySet :=
  _filterOrExclude lookupObj false this.

Definition exclude (lookupObj : predicate) (this : QuerySet) : result QuerySet :=
  _filterOrExclude lookupObj true this.

(** An element of [iteratees]: a field name or a function deriving the sort
    key from an entity. *)
Inductive iteratee_arg :=
| IString (s : string)
| IFunc (f : entity Inst → value).

Definition orderBy (iteratees : list iteratee_arg)
    (orders : option (list Lodash.order)) (this : QuerySet) : result QuerySet :=
  let entities := toRefArray this in
  let iterateeArgs :=
    if negb (_withRefs this)
    then List.map (λ arg,
           match arg with
           | IFunc f =>
               Lodash.LFunc (λ entity,
                 id ← get_prop entity (Model.idAttribute (modelClass this));
                 let instance := of_model (Model.withId (modelClass this) id) in
                 Ok (f instance))
           | IString s => Lodash.LString s
           end) iteratees
    else List.map (λ arg,
           match arg with
           | IFunc f => Lodash.LFunc (λ entity, Ok (f entity))
           | IString s => Lodash.LString s
           end) iteratees in
  sortedEntities ← Lodash.orderBy entities iterateeArgs orders;
  ids ← mapM (λ entity, get_prop entity (Model.idAttribute (modelClass this)))
             sortedEntities;
  Ok (_new this ids (Some {| opt_withRefs := Some false |})).

(** [arr.forEach(func)] for a [func] that may append to the update log and
    may throw; what was logged before the exception stays logged. *)
Fixpoint arrayForEach (func : entity Inst → Transaction → Transaction * result unit)
    (arr : list (entity Inst)) (log : Transaction) : Transaction * result unit :=
  match arr with
  | [] => (log, Ok tt)
  | x :: rest =>
      match func x log with
      | (log', Ok _) => arrayForEach func rest log'
      | (log', TypeError) => (log', TypeError)
      end
  end.

Definition forEach (func : entity Inst → Transaction → Transaction * result unit)
    (this : QuerySet) (log : Transaction) : Transaction * result unit :=
  let arr := if _withRefs this then toRefArray this else toModelArray this in
  arrayForEach func arr log.

Definition update (mergeObj : record) (this : QuerySet) (log : Transaction)
    : Transaction :=
  Model.addUpdate (modelClass this)
    {| type := UPDATE;
       payload := MergePayload (idArr this) mergeObj;
       meta := None |} log.

(** [model => model._onDelete()]: the hook enqueues its records one by
    one. *)
Definition call_onDelete (mc : Model.ModelClass Inst) (model : entity Inst)
    (log : Transaction) : Transaction * result unit :=
  match model with
  | EModel m => (foldl (λ l u, Transaction.addUpdate u l) log (Model._onDelete mc m), Ok tt)
  | _ => (log, TypeError)
  end.

Definition delete (this : QuerySet) (log : Transaction)
    : Transaction * result unit :=
  let log1 :=
    Model.addUpdate (modelClass this)
      {| type := DELETE; payload := IdsPayload (idArr this); meta := None |} log in
  forEach (call_onDelete (modelClass this)) (resolve this (withModels this)) log1.

(** [exists()]: [Boolean(this.count())]. *)
Definition exists_ (this : QuerySet) : bool := negb (count this =? 0)%nat.

(** [at(index)] for an index that may be negative, as [last()] computes on
    an empty QuerySet: [idArr[-1]], like an index past the end, is
    [undefined]. *)
Definition at_index (this : QuerySet) (index : Z) : entity Inst :=
  if index <? 0 then at_ this (List.length (idArr this))
  else at_ this (Z.to_nat index).

Definition first (this : QuerySet) : entity Inst := at_ this 0.

Definition last (this : QuerySet) : entity Inst :=
  at_index this (Z.of_nat (List.length (idArr this)) - 1).

(** [map(func)]: [this.idArr.map((_, idx) => func(this.at(idx)))]. *)
Definition map {B : Type} (func : entity Inst → B) (this : QuerySet) : list B :=
  imap (λ idx _, func (at_ this idx)) (idArr this).

End QuerySet.
Arguments QuerySet : clear implicits.
Arguments predicate : clear implicits.
Arguments iteratee_arg : clear implicits.
Arguments lookup_value : clear implicits.
Arguments returned : clear implicits.
Arguments heap : clear implicits.
End QuerySet.

(** ** ops *)

Module Ops.

(** Modelled from the spec: [ops.set(key, value, obj)] of utils.js yields the
    tree with [key] set, sharing the rest with [obj], which is left as it
    was.  [ops.open()] and [ops.close()] bracket the batch and change no
    value. *)
Definition set (key : string) (v : Table) (obj : StateTree) : StateTree :=
  <[key := v]> obj.

End Ops.

(** ** Session *)

Module Session.
Section Session.
Context {Inst : Type}.

Record Schema := {
  getDefaultState : StateTree;
  getModelClasses : list (Model.ModelClass Inst);
}.

(** [modelData] holds, per table touched, whether it was marked accessed. *)
Record Session := {
  schema : Schema;
  state : StateTree;
  action : option Action;
  withMutations : bool;
  currentTx : Transaction;
  modelData : gmap string bool;
  sessionBoundModels : list (Model.ModelClass Inst);
}.

Definition with_state (this : Session) (st : StateTree) : Session :=
  {| schema := schema this; state := st; action := action this;
     withMutations := withMutations this; currentTx := currentTx this;
     modelData := modelData this;
     sessionBoundModels := sessionBoundModels this |}.

Definition with_currentTx (this : Session) (tx : Transaction) : Session :=
  {| schema := schema this; state := state this; action := action this;
     withMutations := withMutations this; currentTx := tx;
     modelData := modelData this;
     sessionBoundModels := sessionBoundModels this |}.

Definition with_modelData (this : Session) (d : gmap string bool) : Session :=
  {| schema := schema this; state := state this; action := action this;
     withMutations := withMutations this; currentTx := currentTx this;
     modelData := d;
     sessionBoundModels := sessionBoundModels this |}.

(** The fields the constructor has assigned when it defines the accessors
    of the models (lines 19 to 29). *)
Definition ownFields : list string :=
  ["schema"; "state"; "action"; "withMutations"; "currentTx";
   "_accessedModels"; "modelData"; "models"].

(** The members a session inherits: those of its class and those of
    [Object.prototype]. *)
Definition inheritedMembers : list string :=
  ["constructor"; "markAccessed"; "accessedModels"; "getDataForModel";
   "addUpdate"; "getUpdatesFor"; "updates"; "getState"; "getNextState"; "reduce"]
  ++ (ObjectPrototype.name <$> ObjectPrototype.members).

(** What [new Session(...)] comes to.  [Object.defineProperty(this, name,
    { get })] defines the accessor of each model on the session object
    itself.  Under a name no member has, the accessor is a new property that
    cannot be redefined, so that a second model of that name raises a
    [TypeError]; and the assignment of [sessionBoundModels] raises one when a
    model bears that name, the accessor having no setter.  Under the name of
    a field already assigned the accessor replaces the field, and under the
    name of an inherited member it hides the member: the constructor
    returns, but with those members [Shadowed] the object is no session as
    the record [Session] describes one. *)
Inductive construction :=
| Built (s : Session)
| Shadowed (members : list string)
| Raised.

Definition constructor (schema : Schema) (state : option StateTree)
    (action : option Action) (withMutations : option bool) : construction :=
  let models := getModelClasses schema in
  let names := Model.modelName <$> models in
  if bool_decide ("sessionBoundModels" ∈ names)
     || negb (bool_decide
                (NoDup (List.filter (λ n, negb (bool_decide (n ∈ ownFields))) names)))
  then Raised
  else
    match List.filter (λ n, bool_decide (n ∈ ownFields ++ inheritedMembers)) names with
    | [] => Built {| schema := schema;
                     state := default (getDefaultState schema) state;
                     action := action;
                     withMutations := default false withMutations;
                     currentTx := Transaction.new;
                     modelData := ∅;
                     sessionBoundModels := models |}
    | members => Shadowed members
    end.

(** [this[modelName]], the session-bound class of that name. *)
Definition bound (this : Session) (modelName : string)
    : option (Model.ModelClass Inst) :=
  List.find (λ mc, String.eqb (Model.modelName mc) modelName)
            (sessionBoundModels this).

Definition getDataForModel (modelName : string) (this : Session)
    : bool * Session :=
  match modelData this !! modelName with
  | Some d => (d, this)
  | None => (false, with_modelData this (<[modelName := false]> (modelData this)))
  end.

Definition markAccessed (model : Model.ModelClass Inst) (this : Session)
    : Session :=
  let '(_, this') := getDataForModel (Model.modelName model) this in
  with_modelData this' (<[Model.modelName model := true]> (modelData this')).

(** The getter [accessedModels]; looking a model up creates its data. *)
Definition accessedModels (this : Session) : list string * Session :=
  foldl (λ '(names, s) model,
           let '(accessed, s') := getDataForModel (Model.modelName model) s in
           (if accessed then names ++ [Model.modelName model] else names, s'))
        ([], this) (sessionBoundModels this).

Definition getState (this : Session) (modelName : string) : option Table :=
  state this !! modelName.

(** With mutations the backend changes the table object held by the state
    tree in place, and the value [updateReducer] returns is dropped.
    Modelled from the spec: handed [undefined] for a table the state lacks,
    the backend fails fast, on reading the table. *)
Definition addUpdate (update : Update) (this : Session) : result Session :=
  if withMutations this then
    match meta update with
    | None => TypeError
    | Some mt =>
        let modelName := name mt in
        let modelState := getState this modelName in
        match bound this modelName with
        | None => TypeError
        | Some mc =>
            match modelState with
            | Some t =>
                Ok (with_state this
                      (<[modelName := Model.updateReducer mc t update]> (state this)))
            | None => TypeError
            end
        end
    end
  else Ok (with_currentTx this (Transaction.addUpdate update (currentTx this))).

Definition getUpdatesFor (modelName : string) (this : Session) : list Update :=
  Transaction.getUpdatesFor modelName (currentTx this).

Definition updates (this : Session) : list Update :=
  List.map Transaction.update (Transaction.updates (currentTx this)).

(** The options of [getNextState]; [None] in [runReducers] is an object
    without that own property. *)
Record NextStateOpts := { runReducers : option bool }.

(** One step of the reducer pass: the callback of the first [reduce]. *)
Definition reducerStep (this : Session) (acc : StateTree * Transaction)
    (modelClass : Model.ModelClass Inst) : StateTree * Transaction :=
  let '(_nextState, tx) := acc in
  let modelState := getState this (Model.modelName modelClass) in
  let '(returnValue, tx) :=
    Model.reducer modelClass modelState (action this) (state this) tx in
  let '(returnValue, tx) :=
    match returnValue with
    | Some v => (v, tx)
    | None => Model.getNextState modelClass (state this) tx
    end in
  (Ops.set (Model.modelName modelClass) returnValue _nextState, tx).

(** One step of the pass over the unapplied updates: the callback of the
    second [reduce]. *)
Definition unappliedStep (this : Session)
    (unappliedUpdates : gmap string (list Update))
    (acc : StateTree * Transaction) (modelClass : Model.ModelClass Inst)
    : StateTree * Transaction :=
  let '(_nextState, tx) := acc in
  let modelName := Model.modelName modelClass in
  if bool_decide (is_Some (unappliedUpdates !! modelName))
  then let '(v, tx) := Model.getNextState modelClass (state this) tx in
       (Ops.set modelName v _nextState, tx)
  else (_nextState, tx).

Definition reducerPass (this : Session) (runReducers : bool)
    : StateTree * Transaction :=
  if runReducers
  then foldl (reducerStep this) (state this, currentTx this)
             (sessionBoundModels this)
  else (state this, currentTx this).

Definition unappliedPass (this : Session) (acc : StateTree * Transaction)
    : StateTree * Transaction :=
  match Transaction.getUnappliedUpdatesByModel (snd acc) with
  | Some unappliedUpdates =>
      foldl (unappliedStep this unappliedUpdates) acc (sessionBoundModels this)
  | None => acc
  end.

(** [opts.hasOwnProperty('runReducers') ? opts.runReducers : !!action]. *)
Definition resolveRunReducers (userOpts : option NextStateOpts) (this : Session)
    : bool :=
  match userOpts ≫= runReducers with
  | Some b => b
  | None => bool_decide (is_Some (action this))
  end.

(** [getNextState(userOpts)]: the next state and the session it leaves. *)
Definition getNextState (userOpts : option NextStateOpts) (this : Session)
    : StateTree * Session :=
  if withMutations this then (state this, this) else
  let runReducers := resolveRunReducers userOpts this in
  let '(nextState, tx) := unappliedPass this (reducerPass this runReducers) in
  (* [tx.close()] marks the old log, which the session then drops *)
  let closedTx := Transaction.close tx in
  (nextState, with_currentTx this Transaction.new).

Definition reduce (this : Session) : StateTree * Session :=
  getNextState (Some {| runReducers := Some true |}) this.

End Session.
Arguments Session : clear implicits.
Arguments Schema : clear implicits.
End Session.

(** ** The Apply Engine *)

Module ApplyEngine.

(** Modelled from the spec: the effect of one update record on a table.  A
    field-merge shallow-merges the payload into the existing record of each
    targeted id; a removal deletes the ids from both the id sequence and the
    id-to-record mapping.  A record whose payload does not fit its kind is
    malformed and aborts the cycle, which is not modelled: the table is
    returned as it is. *)
Definition applyRecord (t : Table) (u : Update) : Table :=
  match type u, payload u with
  | UPDATE, MergePayload ids mergeObj =>
      {| items := items t;
         itemsById := foldl (λ m id, alter (λ r, mergeObj ∪ r) id m) (itemsById t) ids |}
  | DELETE, IdsPayload ids =>
      {| items := List.filter (λ id, negb (bool_decide (id ∈ ids))) (items t);
         itemsById := foldl (λ m id, base.delete id m) (itemsById t) ids |}
  | _, _ => t
  end.

(** Modelled from the spec: the records of one table are applied in their
    recorded order. *)
Definition run (t : Table) (us : list Update) : Table := foldl applyRecord t us.

End ApplyEngine.

(** ** A concrete model class *)

Definition emptyTable : Table := {| items := []; itemsById := ∅ |}.

(** Modelled from the spec: a table of the store as a Model class bound to a
    session over the state tree [st].  A wrapped entity holds the fields of
    its record, lookups read the table, and [getNextState] runs the Apply
    Engine over the table's records of the log, from the table of the
    session's state, and marks them applied. *)
Definition tableModel (tableName idAttr : string) (st : StateTree)
    (userReducer : option Table → option Action → StateTree → Transaction
                   → option Table * Transaction)
    (onDelete : record → list Update) : Model.ModelClass record :=
  {| Model.modelName := tableName;
     Model.idAttribute := idAttr;
     Model.accessId := λ id, st !! tableName ≫= λ t, itemsById t !! id;
     Model.withId := λ id, st !! tableName ≫= λ t, itemsById t !! id;
     Model.getId := λ m, default VUndefined (m !! idAttr);
     Model._onDelete := onDelete;
     Model.reducer := userReducer;
     Model.getNextState := λ st' tx,
       (ApplyEngine.run (default emptyTable (st' !! tableName))
                        (Transaction.getUpdatesFor tableName tx),
        Transaction.markApplied tableName tx);
     Model.updateReducer := ApplyEngine.applyRecord |}.

(** A reducer that returns [undefined] and leaves the log alone. *)
Definition defaultReducer (_ : option Table) (_ : option Action)
    (_ : StateTree) (tx : Transaction) : option Table * Transaction :=
  (None, tx).

(** The table [Book]: ids 1, 2, 3 with ratings 3, 5, 4. *)
Definition book (id rating : Z) : record :=
  {[ "id" := VNum id; "rating" := VNum rating ]}.

Definition bookTable : Table :=
  {| items := [VNum 1; VNum 2; VNum 3];
     itemsById := {[ VNum 1 := book 1 3; VNum 2 := book 2 5; VNum 3 := book 3 4 ]} |}.

Definition bookState : StateTree := {[ "Book" := bookTable ]}.

Definition Book : Model.ModelClass record :=
  tableModel "Book" "id" bookState defaultReducer (λ _, []).

Definition books : QuerySet.QuerySet record :=
  QuerySet.constructor Book [VNum 1; VNum 2; VNum 3] None.

(** The same QuerySet in raw-record view mode. *)
Definition booksRefs : QuerySet.QuerySet record :=
  QuerySet.constructor Book [VNum 1; VNum 2; VNum 3]
    (Some {| QuerySet.opt_withRefs := Some true |}).

(** A field-match predicate: the books rated 5. *)
Definition fiveStars : QuerySet.predicate record :=
  QuerySet.PObject {[ "rating" := QuerySet.LVal (VNum 5) ]}.

(** A function predicate that tells the views apart: on a wrapped entity it
    holds for the book rated 4, on a raw record for the book rated 3. *)
Definition ratedByView : QuerySet.predicate record :=
  QuerySet.PFunc (λ e,
    match e with
    | EModel m => VBool (bool_decide (m !! "rating" = Some (VNum 4)))
    | ERef r => VBool (bool_decide (r !! "rating" = Some (VNum 3)))
    | EUndefined => VBool false
    end).

(** A reducer that returns the table it was given and leaves the log
    alone. *)
Definition identityReducer (t : option Table) (_ : option Action)
    (_ : StateTree) (tx : Transaction) : option Table * Transaction :=
  (t, tx).

(** The removal record of [QuerySet.delete] over [ids] of [Book]. *)
Definition removal (ids : list value) : Update :=
  {| type := DELETE; payload := IdsPayload ids;
     meta := Some {| name := "Book" |} |}.

(** A log with two removal records for [Book]. *)
Definition twoRemovals : Transaction :=
  Transaction.addUpdate (removal [VNum 3])
    (Transaction.addUpdate (removal [VNum 1]) Transaction.new).

Definition bookSchema (r : option Table → option Action → StateTree → Transaction
                           → option Table * Transaction)
    : Session.Schema record :=
  {| Session.getDefaultState := {[ "Book" := emptyTable ]};
     Session.getModelClasses := [tableModel "Book" "id" bookState r (λ _, [])] |}.

(** A session over the [Book] table, as the constructor builds it, with a
    log already recorded. *)
Definition bookSession (r : option Table → option Action → StateTree → Transaction
                            → option Table * Transaction)
    (mutating : bool) (tx : Transaction) : Session.Session record :=
  {| Session.schema := bookSchema r;
     Session.state := bookState;
     Session.action := None;
     Session.withMutations := mutating;
     Session.currentTx := tx;
     Session.modelData := ∅;
     Session.sessionBoundModels := Session.getModelClasses (bookSchema r) |}.

Definition runningReducers : option Session.NextStateOpts :=
  Some {| Session.runReducers := Some true |}.

(** [Book] once ids 1 and 3 are removed. *)
Definition bookTableLeft : Table :=
  {| items := [VNum 2]; itemsById := {[ VNum 2 := book 2 5 ]} |}.

(** * Vocabulary of the properties *)

Section QueryVocabulary.
Context {Inst : Type}.
Implicit Types (q : QuerySet.QuerySet Inst) (p : QuerySet.predicate Inst).

(** Every id of the QuerySet names a record of the table. *)
Definition present q : bool :=
  forallb (λ id, bool_decide (is_Some (Model.accessId (QuerySet.modelClass q) id)))
          (QuerySet.idArr q).

(** Every id names a record that carries the id in its id attribute. *)
Definition keyed q : bool :=
  forallb (λ id, bool_decide
             (Model.accessId (QuerySet.modelClass q) id
                ≫= (λ r, r !! Model.idAttribute (QuerySet.modelClass q)) = Some id))
          (QuerySet.idArr q).

(** Every id names a wrapped entity whose [getId()] is the id. *)
Definition wrapped q : bool :=
  forallb (λ id, bool_decide
             (Model.getId (QuerySet.modelClass q)
                <$> Model.withId (QuerySet.modelClass q) id = Some id))
          (QuerySet.idArr q).

Definition rawOf q (id : value) : entity Inst :=
  of_ref (Model.accessId (QuerySet.modelClass q) id).

Definition wrappedOf q (id : value) : entity Inst :=
  of_model (Model.withId (QuerySet.modelClass q) id).

(** The object a predicate is evaluated on for an id of the receiver. *)
Definition evaluated p q (id : value) : entity Inst :=
  match p with
  | QuerySet.PFunc _ => if QuerySet._withRefs q then rawOf q id else wrappedOf q id
  | _ => rawOf q id
  end.

(** Whether the predicate accepts an object. *)
Definition verdict p q (e : entity Inst) : bool :=
  match p with
  | QuerySet.PFunc f => truthy (f e)
  | QuerySet.PObject o =>
      Lodash.matches (QuerySet.normalizeEntity (QuerySet.modelClass q) <$> o) e
  | QuerySet.PString s => truthy (Lodash.property s e)
  | QuerySet.PNumber n => truthy (Lodash.property (pretty n) e)
  end.

(** How [_filterOrExclude] reads the id back from a surviving object. *)
Definition readId p q (e : entity Inst) : result value :=
  match p with
  | QuerySet.PFunc _ =>
      if QuerySet._withRefs q
      then get_prop e (Model.idAttribute (QuerySet.modelClass q))
      else QuerySet.call_getId (QuerySet.modelClass q) e
  | _ => get_prop e (Model.idAttribute (QuerySet.modelClass q))
  end.

(** The result options [{ withRefs: false }] and [{ withRefs: true }]. *)
Definition optsOff : option QuerySet.Opts :=
  Some {| QuerySet.opt_withRefs := Some false |}.
Definition optsOn : option QuerySet.Opts :=
  Some {| QuerySet.opt_withRefs := Some true |}.

(** The log entry of a freshly recorded update. *)
Definition logged (u : Update) : Transaction.entry :=
  {| Transaction.update := u; Transaction.applied := false |}.

(** The wrapped entities the hooks of [delete] get to: those of the ids
    in order, up to the first id that names none. *)
Fixpoint reached (mc : Model.ModelClass Inst) (ids : list value) : list Inst :=
  match ids with
  | [] => []
  | id :: rest =>
      match Model.withId mc id with
      | Some m => m :: reached mc rest
      | None => []
      end
  end.

(** No record an id of the QuerySet names has an own field [key]. *)
Definition lacksOwn q (key : string) : bool :=
  forallb (λ id, bool_decide
             (Model.accessId (QuerySet.modelClass q) id ≫= (λ r, r !! key) = None))
          (QuerySet.idArr q).

End QueryVocabulary.

Section SessionVocabulary.
Context {Inst : Type}.
Implicit Types (s : Session.Session Inst).

(** The tree and the log as the reducer of the next model finds them, once
    the reducer steps of the models [pre] have run. *)
Definition afterReducersOf s (pre : list (Model.ModelClass Inst))
    : StateTree * Transaction :=
  foldl (Session.reducerStep s) (Session.state s, Session.currentTx s) pre.

(** The tree and the log once the models [pre] have been through the pass
    over the unapplied updates, started from [acc]. *)
Definition afterUnappliedOf s (unapplied : gmap string (list Update))
    (acc : StateTree * Transaction) (pre : list (Model.ModelClass Inst))
    : StateTree * Transaction :=
  foldl (Session.unappliedStep s unapplied) acc pre.

(** What the reducer step of [mc] writes under the name of its table, given
    the log [tx] it starts from: the value of the reducer if defined, else
    the value of [Model.getNextState] on the log the reducer leaves. *)
Definition reducedValue s (mc : Model.ModelClass Inst) (tx : Transaction) : Table :=
  let '(ret, tx') :=
    Model.reducer mc (Session.getState s (Model.modelName mc))
                  (Session.action s) (Session.state s) tx in
  match ret with
  | Some v => v
  | None => fst (Model.getNextState mc (Session.state s) tx')
  end.

(** Whether the log holds unapplied updates for a table. *)
Definition hasUnapplied (tx : Transaction) (tableName : string) : bool :=
  match Transaction.getUnappliedUpdatesByModel tx with
  | Some unapplied => bool_decide (is_Some (unapplied !! tableName))
  | None => false
  end.

End SessionVocabulary.

Section SortVocabulary.
Context {A : Type}.

(** Stable insertion sort by a boolean order: the reference the sort of
    lodash is compared with. *)
Fixpoint insertBy (le : A → A → bool) (x : A) (l : list A) : list A :=
  match l with
  | [] => [x]
  | y :: l' => if le x y then x :: l else y :: insertBy le x l'
  end.

Definition sortBy (le : A → A → bool) (l : list A) : list A :=
  foldr (insertBy le) [] l.


End SortVocabulary.

Section OrderVocabulary.
Context {Inst : Type}.
Implicit Types (q : QuerySet.QuerySet Inst).

(** The collection decorated with the criteria [crit] computes, positions
    counted from [i]. *)
Fixpoint decorated (crit : entity Inst → list value) (i : nat)
    (l : list (entity Inst)) : list (Lodash.sortItem Inst) :=
  match l with
  | [] => []
  | v :: rest =>
      {| Lodash.criteria := crit v; Lodash.index := i; Lodash.item := v |}
      :: decorated crit (S i) rest
  end.

(** The sort key of an id: the field [k] of its raw record. *)
Definition sortKey q (k : string) (id : value) : value :=
  Lodash.property k (rawOf q id).

(** [a] may come before [b] in ascending order of the field [k]. *)
Definition keyLe q (k : string) (a b : value) : bool :=
  Lodash.compareAscending (sortKey q k a) (sortKey q k b) <=? 0.


End OrderVocabulary.


Section MoreQueryVocabulary.
Context {Inst : Type}.
Implicit Types (q : QuerySet.QuerySet Inst).

(** What an id materializes to under the view mode of the QuerySet. *)
Definition viewOf q (id : value) : entity Inst :=
  if QuerySet._withRefs q then rawOf q id else wrappedOf q id.

(** The elements of the QuerySet under its view mode. *)
Definition viewArray q : list (entity Inst) :=
  List.map (viewOf q) (QuerySet.idArr q).

(** The view-mode flag an options object asks for. *)
Definition flagOf (opts : option QuerySet.Opts) : bool :=
  match opts with
  | Some {| QuerySet.opt_withRefs := Some b |} => b
  | _ => false
  end.

(** The flag of the QuerySet is the one its options ask for, as in every
    QuerySet the constructor builds. *)
Definition consistent q : bool :=
  bool_decide (QuerySet._withRefs q = flagOf (QuerySet._opts q)).

(** The sort key an iteratee of [orderBy] derives for an id: a field of the
    raw record, or the value of the function on the id's entity under the
    view mode. *)
Definition keyOf q (arg : QuerySet.iteratee_arg Inst) (id : value) : value :=
  match arg with
  | QuerySet.IString k => Lodash.property k (rawOf q id)
  | QuerySet.IFunc f => f (viewOf q id)
  end.

(** The criteria [orderBy] sorts an id by; without iteratees, the record
    itself as a primitive. *)
Definition criteriaOf q (its : list (QuerySet.iteratee_arg Inst)) (id : value)
    : list value :=
  match its with
  | [] => [VStr "[object Object]"]
  | _ => List.map (λ arg, keyOf q arg id) its
  end.

(** [a] may come before [b] under the iteratees and directions. *)
Definition orderLe q (its : list (QuerySet.iteratee_arg Inst))
    (ords : option (list Lodash.order)) (a b : value) : bool :=
  Lodash.compareCriteria (criteriaOf q its a) (criteriaOf q its b)
                         (default [] ords) <=? 0.



(** The iteratees [orderBy] hands to lodash: in wrapped-entity view mode a
    function is wrapped so that it receives the instance of the entity's
    id. *)
Definition iterateeArgsOf q (its : list (QuerySet.iteratee_arg Inst))
    : list (Lodash.shorthand Inst) :=
  List.map (λ arg,
    match arg with
    | QuerySet.IFunc f =>
        if QuerySet._withRefs q
        then Lodash.LFunc (λ entity, Ok (f entity))
        else Lodash.LFunc (λ entity,
               id ← get_prop entity (Model.idAttribute (QuerySet.modelClass q));
               let instance := of_model (Model.withId (QuerySet.modelClass q) id) in
               Ok (f instance))
    | QuerySet.IString s => Lodash.LString s
    end) its.

(** The sort key those iteratees derive from a raw record. *)
Definition entityKey q (arg : QuerySet.iteratee_arg Inst) (e : entity Inst) : value :=
  match arg with
  | QuerySet.IString k => Lodash.property k e
  | QuerySet.IFunc f =>
      if QuerySet._withRefs q then f e
      else f (of_model
                (Model.withId (QuerySet.modelClass q)
                   (Lodash.property (Model.idAttribute (QuerySet.modelClass q)) e)))
  end.

Definition entityCriteria q (its : list (QuerySet.iteratee_arg Inst))
    (e : entity Inst) : list value :=
  match its with
  | [] => [match e with EUndefined => VUndefined | _ => VStr "[object Object]" end]
  | _ => List.map (λ arg, entityKey q arg e) its
  end.

End MoreQueryVocabulary.

Section MoreSessionVocabulary.
Context {Inst : Type}.
Implicit Types (s : Session.Session Inst).

(** Whether the data of a table says it was accessed. *)
Definition accessed s (tableName : string) : bool :=
  bool_decide (Session.modelData s !! tableName = Some true).

(** Recording the updates [us] one after the other. *)
Definition recordAll (us : list Update) s : result (Session.Session Inst) :=
  foldl (λ r u, r ≫= Session.addUpdate u) (Ok s) us.

(** The options [{ runReducers: false }]. *)
Definition withoutReducers : option Session.NextStateOpts :=
  Some {| Session.runReducers := Some false |}.

End MoreSessionVocabulary.

(** A hook that enqueues the removal of the reviews of the book. *)
Definition reviewRemoval (m : record) : list Update :=
  [{| type := DELETE; payload := IdsPayload [default VUndefined (m !! "id")];
      meta := Some {| name := "Review" |} |}].

(** The books, with that hook. *)
Definition reviewedBooks : QuerySet.QuerySet record :=
  QuerySet.constructor (tableModel "Book" "id" bookState defaultReducer reviewRemoval)
    [VNum 1; VNum 2; VNum 3] None.

(** A QuerySet over [Book] that holds the id 7, which names no record. *)
Definition staleBooks : QuerySet.QuerySet record :=
  QuerySet.constructor Book [VNum 1; VNum 7; VNum 3] None.

(** A removal record without [meta]. *)
Definition anonymousRemoval : Update :=
  {| type := DELETE; payload := IdsPayload [VNum 1]; meta := None |}.

(** A removal record for the table [Author], which [bookSchema] has no
    model of. *)
Definition authorRemoval : Update :=
  {| type := DELETE; payload := IdsPayload [VNum 1];
     meta := Some {| name := "Author" |} |}.

(** * Properties *)

(** ** The result monad and lodash's filters *)

Section ResultFacts.
Context {A B : Type}.

Lemma mapM_Ok_map (f : A → result B) (g : A → B) (l : list A) :
  Forall (λ x, f x = Ok (g x)) l → mapM f l = Ok (List.map g l).
Proof.
  induction 1 as [|x l Hx _ IH]; [reflexivity|].
  cbn [mapM]. rewrite Hx. cbn. rewrite IH. reflexivity.
Qed.

Lemma mapM_Ok_length (f : A → result B) (l : list A) (l' : list B) :
  mapM f l = Ok l' → List.length l' = List.length l.
Proof.
  revert l'. induction l as [|x l IH]; intros l'; cbn [mapM].
  - intros [= <-]. reflexivity.
  - destruct (f x) as [y|]; cbn; [|discriminate].
    destruct (mapM f l) as [k|]; cbn; [|discriminate].
    intros [= <-]. cbn. f_equal. apply IH. reflexivity.
Qed.

Lemma filter_complement_length (P : A → bool) (l : list A) :
  (List.length (List.filter P l)
   + List.length (List.filter (λ x, negb (P x)) l) = List.length l)%nat.
Proof.
  induction l as [|x l IH]; [reflexivity|].
  cbn. destruct (P x); cbn; lia.
Qed.

Lemma filter_sublist (P : A → bool) (l : list A) : sublist (List.filter P l) l.
Proof.
  induction l as [|x l IH]; cbn; [constructor|].
  destruct (P x); by constructor.
Qed.

End ResultFacts.

Section LodashFilterFacts.
Context {Inst : Type}.
Implicit Types (g : entity Inst → value) (l : list (entity Inst)).

Lemma arrayFilter_total g l :
  Lodash.arrayFilter (λ e, Ok (g e)) l = Ok (List.filter (λ e, truthy (g e)) l).
Proof.
  induction l as [|x l IH]; [reflexivity|].
  cbn. rewrite IH. cbn. destruct (truthy (g x)); reflexivity.
Qed.

Lemma arrayFilter_negate_total g l :
  Lodash.arrayFilter (Lodash.negate (λ e, Ok (g e))) l
  = Ok (List.filter (λ e, negb (truthy (g e))) l).
Proof.
  induction l as [|x l IH]; [reflexivity|].
  cbn. rewrite IH. cbn. destruct (truthy (g x)); reflexivity.
Qed.

End LodashFilterFacts.

(** ** QuerySet: materialization and the shape of [_filterOrExclude] *)

Section QuerySetFacts.
Context {Inst : Type}.
Implicit Types (q : QuerySet.QuerySet Inst) (p : QuerySet.predicate Inst).

Lemma toRefArray_rawOf q :
  QuerySet.toRefArray q = List.map (rawOf q) (QuerySet.idArr q).
Proof. reflexivity. Qed.

Lemma toModelArray_view q :
  QuerySet.toModelArray q
  = List.map (λ id, if QuerySet._withRefs q then rawOf q id else wrappedOf q id)
             (QuerySet.idArr q).
Proof.
  unfold QuerySet.toModelArray.
  rewrite (imap_ext _ (const (λ id, if QuerySet._withRefs q
                                    then rawOf q id else wrappedOf q id))).
  - apply imap_const.
  - intros i x Hi. unfold QuerySet.at_, const. rewrite Hi. cbn.
    destruct (QuerySet._withRefs q); reflexivity.
Qed.

Lemma new_withRefs q ids b :
  QuerySet._withRefs (QuerySet._new q ids (Some {| QuerySet.opt_withRefs := Some b |})) = b.
Proof. reflexivity. Qed.

Lemma new_idArr q ids o : QuerySet.idArr (QuerySet._new q ids o) = ids.
Proof. reflexivity. Qed.

Lemma new_modelClass q ids o :
  QuerySet.modelClass (QuerySet._new q ids o) = QuerySet.modelClass q.
Proof. reflexivity. Qed.

(** [_filterOrExclude] keeps the evaluated objects the predicate accepts
    (rejects, for [exclude]) and reads their ids back. *)
Lemma filterOrExclude_shape p (excl : bool) q :
  QuerySet._filterOrExclude p excl q
  = (ids ← mapM (readId p q)
             (List.filter (λ e, xorb excl (verdict p q e))
                          (List.map (evaluated p q) (QuerySet.idArr q)));
     Ok (QuerySet._new q ids optsOff)).
Proof.
  unfold QuerySet._filterOrExclude, Lodash.reject, Lodash.filter.
  destruct p as [f|o|s|n]; cbv beta iota delta [evaluated verdict readId].
  - destruct (QuerySet._withRefs q) eqn:Hw; destruct excl; cbn [Lodash.iteratee];
      rewrite ?arrayFilter_negate_total, ?arrayFilter_total,
              ?toRefArray_rawOf, ?toModelArray_view, ?Hw; reflexivity.
  - destruct excl; cbn [Lodash.iteratee];
      rewrite ?(arrayFilter_negate_total (λ e, VBool _)),
              ?(arrayFilter_total (λ e, VBool _)), ?toRefArray_rawOf; reflexivity.
  - destruct excl; cbn [Lodash.iteratee];
      rewrite ?arrayFilter_negate_total, ?arrayFilter_total, ?toRefArray_rawOf;
      reflexivity.
  - destruct excl; cbn [Lodash.iteratee];
      rewrite ?arrayFilter_negate_total, ?arrayFilter_total, ?toRefArray_rawOf;
      reflexivity.
Qed.

(** A predicate that is not a function is evaluated on the raw records. *)
Lemma filterOrExclude_shape_raw p (excl : bool) q :
  (∀ f, p ≠ QuerySet.PFunc f) →
  QuerySet._filterOrExclude p excl q
  = (ids ← mapM (λ e, get_prop e (Model.idAttribute (QuerySet.modelClass q)))
             (List.filter (λ e, xorb excl (verdict p q e))
                          (List.map (rawOf q) (QuerySet.idArr q)));
     Ok (QuerySet._new q ids optsOff)).
Proof.
  intros Hp. rewrite filterOrExclude_shape.
  destruct p as [f|o|s|n]; [by destruct (Hp f)|reflexivity..].
Qed.

(** Reading the ids back from the kept objects, when every id reads back as
    itself. *)
Lemma mapM_filter_map (rd : entity Inst → result value) (ev : value → entity Inst)
    (P : entity Inst → bool) (ids : list value) :
  Forall (λ id, rd (ev id) = Ok id) ids →
  mapM rd (List.filter P (List.map ev ids)) = Ok (List.filter (λ id, P (ev id)) ids).
Proof.
  induction 1 as [|id ids Hid _ IH]; [reflexivity|].
  cbn [List.map List.filter]. destruct (P (ev id)); [|exact IH].
  cbn [mapM]. rewrite Hid. cbn. rewrite IH. reflexivity.
Qed.

Lemma keyed_reads_back q :
  keyed q = true →
  Forall (λ id, get_prop (rawOf q id) (Model.idAttribute (QuerySet.modelClass q)) = Ok id)
         (QuerySet.idArr q).
Proof.
  unfold keyed. rewrite forallb_forall, Forall_forall. intros H id Hin.
  specialize (H id (proj1 (list_elem_of_In _ _) Hin)).
  apply bool_decide_eq_true in H. unfold rawOf.
  destruct (Model.accessId (QuerySet.modelClass q) id) as [r|]; cbn in *; [|discriminate].
  unfold record_get. rewrite H. reflexivity.
Qed.

Lemma wrapped_reads_back q :
  wrapped q = true →
  Forall (λ id, QuerySet.call_getId (QuerySet.modelClass q) (wrappedOf q id) = Ok id)
         (QuerySet.idArr q).
Proof.
  unfold wrapped. rewrite forallb_forall, Forall_forall. intros H id Hin.
  specialize (H id (proj1 (list_elem_of_In _ _) Hin)).
  apply bool_decide_eq_true in H. unfold wrappedOf.
  destruct (Model.withId (QuerySet.modelClass q) id) as [m|]; cbn in *; [|discriminate].
  injection H as ->. reflexivity.
Qed.

Lemma present_raw q :
  present q = true →
  Forall (λ id, ∃ r, rawOf q id = ERef r) (QuerySet.idArr q).
Proof.
  unfold present. rewrite forallb_forall, Forall_forall. intros H id Hin.
  specialize (H id (proj1 (list_elem_of_In _ _) Hin)).
  apply bool_decide_eq_true in H. destruct H as [r Hr].
  exists r. unfold rawOf. rewrite Hr. reflexivity.
Qed.

(** Under the well-formedness of the receiver in the view the predicate is
    evaluated in, the survivors are the receiver's ids filtered in place. *)
Lemma filterOrExclude_ids p (excl : bool) q :
  (match p with
   | QuerySet.PFunc _ => if QuerySet._withRefs q then keyed q else wrapped q
   | _ => keyed q
   end) = true →
  QuerySet._filterOrExclude p excl q
  = Ok (QuerySet._new q
          (List.filter (λ id, xorb excl (verdict p q (evaluated p q id)))
                       (QuerySet.idArr q)) optsOff).
Proof.
  intros Hwf. rewrite filterOrExclude_shape.
  rewrite (mapM_filter_map (readId p q) (evaluated p q)
             (λ e, xorb excl (verdict p q e))); [reflexivity|].
  destruct p as [f|o|s|n]; cbn [readId evaluated];
    try (by apply keyed_reads_back).
  destruct (QuerySet._withRefs q);
    [by apply keyed_reads_back | by apply wrapped_reads_back].
Qed.

End QuerySetFacts.

(** ** QuerySet: view mode of the results *)

Section ViewMode.
Context {Inst : Type}.
Implicit Types (q : QuerySet.QuerySet Inst) (p : QuerySet.predicate Inst).

Lemma filterOrExclude_inv p (excl : bool) q q' :
  QuerySet._filterOrExclude p excl q = Ok q' →
  ∃ ids, q' = QuerySet._new q ids optsOff.
Proof.
  rewrite filterOrExclude_shape.
  destruct (mapM _ _) as [ids|]; cbn; [|discriminate].
  intros [= <-]. by exists ids.
Qed.

Lemma orderBy_inv its ords q q' :
  QuerySet.orderBy its ords q = Ok q' →
  ∃ ids, q' = QuerySet._new q ids optsOff.
Proof.
  unfold QuerySet.orderBy.
  destruct (Lodash.orderBy _ _ _) as [sorted|]; cbn; [|discriminate].
  destruct (mapM _ sorted) as [ids|]; cbn; [|discriminate].
  intros [= <-]. by exists ids.
Qed.

End ViewMode.

(** C2 (as amended).  The QuerySet returned by [filter], [exclude] and
    [orderBy] is in wrapped-entity view mode: its [withRefs] flag is off,
    whatever the view mode of the receiver. *)
Theorem results_are_in_wrapped_view {Inst : Type} (q : QuerySet.QuerySet Inst) :
  (∀ p q', QuerySet.filter p q = Ok q' → QuerySet._withRefs q' = false)
  ∧ (∀ p q', QuerySet.exclude p q = Ok q' → QuerySet._withRefs q' = false)
  ∧ (∀ its ords q', QuerySet.orderBy its ords q = Ok q' →
       QuerySet._withRefs q' = false).
Proof.
  repeat split.
  - intros p q' H. apply filterOrExclude_inv in H as [ids ->]. reflexivity.
  - intros p q' H. apply filterOrExclude_inv in H as [ids ->]. reflexivity.
  - intros its ords q' H. apply orderBy_inv in H as [ids ->]. reflexivity.
Qed.

Lemma results_are_in_wrapped_view_witness :
  QuerySet._withRefs booksRefs = true
  ∧ QuerySet._withRefs (QuerySet._new booksRefs [VNum 2] optsOff) = false.
Proof.
  split; [reflexivity|].
  apply (proj1 (results_are_in_wrapped_view booksRefs) fiveStars).
  refine (eq_trans (filterOrExclude_ids fiveStars false booksRefs _) _);
    [vm_compute; reflexivity|].
  do 2 f_equal.
Defined.

(** C2 (as stated) fails: on a receiver in raw-record view mode, the results
    of [filter], [exclude] and [orderBy] have the [withRefs] flag off. *)
Lemma results_not_in_raw_view :
  QuerySet._withRefs booksRefs = true
  ∧ QuerySet._withRefs <$> QuerySet.filter fiveStars booksRefs = Ok false
  ∧ QuerySet._withRefs <$> QuerySet.exclude fiveStars booksRefs = Ok false
  ∧ QuerySet._withRefs
      <$> QuerySet.orderBy [QuerySet.IString "rating"] None booksRefs = Ok false.
Proof. repeat split; vm_compute; reflexivity. Qed.

(** ** QuerySet: what [filter] and [exclude] evaluate *)

(** C3.  [filter] ([excl] false) and [exclude] ([excl] true) evaluate their
    predicate on the objects [evaluated] names: a function on the wrapped
    entities when the receiver is in wrapped-entity view mode and on the raw
    records when it is in raw-record view mode, a field-match mapping on the
    raw records in either mode.  On a receiver whose ids name entities
    carrying their id, the survivors are the receiver's ids the predicate
    accepts (rejects), in the receiver's order: a subsequence of its ids. *)
Theorem filter_evaluates_in_view_mode {Inst : Type}
    (q : QuerySet.QuerySet Inst) (excl : bool) :
  (∀ p,
     QuerySet._filterOrExclude p excl q
     = (ids ← mapM (readId p q)
                (List.filter (λ e, xorb excl (verdict p q e))
                             (List.map (evaluated p q) (QuerySet.idArr q)));
        Ok (QuerySet._new q ids optsOff)))
  ∧ (∀ f id, QuerySet._withRefs q = false →
       evaluated (QuerySet.PFunc f) q id = wrappedOf q id)
  ∧ (∀ f id, QuerySet._withRefs q = true →
       evaluated (QuerySet.PFunc f) q id = rawOf q id)
  ∧ (∀ o id, evaluated (QuerySet.PObject o) q id = rawOf q id)
  ∧ (∀ f, QuerySet._withRefs q = false → wrapped q = true →
     QuerySet._filterOrExclude (QuerySet.PFunc f) excl q
     = Ok (QuerySet._new q
             (List.filter (λ id, xorb excl (truthy (f (wrappedOf q id))))
                          (QuerySet.idArr q)) optsOff))
  ∧ (∀ f, QuerySet._withRefs q = true → keyed q = true →
     QuerySet._filterOrExclude (QuerySet.PFunc f) excl q
     = Ok (QuerySet._new q
             (List.filter (λ id, xorb excl (truthy (f (rawOf q id))))
                          (QuerySet.idArr q)) optsOff))
  ∧ (∀ o, keyed q = true →
     QuerySet._filterOrExclude (QuerySet.PObject o) excl q
     = Ok (QuerySet._new q
             (List.filter
                (λ id, xorb excl
                   (Lodash.matches
                      (QuerySet.normalizeEntity (QuerySet.modelClass q) <$> o)
                      (rawOf q id)))
                (QuerySet.idArr q)) optsOff))
  ∧ (∀ p q', keyed q = true → wrapped q = true →
     QuerySet._filterOrExclude p excl q = Ok q' →
     sublist (QuerySet.idArr q') (QuerySet.idArr q)).
Proof.
  split; [intros p; apply filterOrExclude_shape|].
  split; [by intros f id Hm; cbn; rewrite Hm|].
  split; [by intros f id Hm; cbn; rewrite Hm|].
  split; [reflexivity|].
  split; [|split; [|split]].
  - intros f Hm Hw.
    rewrite (filterOrExclude_ids (QuerySet.PFunc f) excl q); cbn [evaluated verdict];
      rewrite Hm; [reflexivity | exact Hw].
  - intros f Hm Hk.
    rewrite (filterOrExclude_ids (QuerySet.PFunc f) excl q); cbn [evaluated verdict];
      rewrite Hm; [reflexivity | exact Hk].
  - intros o Hk.
    rewrite (filterOrExclude_ids (QuerySet.PObject o) excl q); [reflexivity | exact Hk].
  - intros p q' Hk Hw.
    rewrite (filterOrExclude_ids p excl q).
    + intros [= <-]. apply filter_sublist.
    + destruct p; try exact Hk. destruct (QuerySet._withRefs q); assumption.
Qed.

Lemma filter_evaluates_in_view_mode_witness :
  QuerySet.idArr <$> QuerySet.filter ratedByView books = Ok [VNum 3]
  ∧ QuerySet.idArr <$> QuerySet.filter ratedByView booksRefs = Ok [VNum 1]
  ∧ QuerySet.idArr <$> QuerySet.exclude fiveStars books = Ok [VNum 1; VNum 3]
  ∧ sublist [VNum 1; VNum 3] (QuerySet.idArr books).
Proof.
  destruct (filter_evaluates_in_view_mode books false)
    as (_ & _ & _ & _ & Hm & _ & _ & _).
  destruct (filter_evaluates_in_view_mode booksRefs false)
    as (_ & _ & _ & _ & _ & Hr & _ & _).
  destruct (filter_evaluates_in_view_mode books true)
    as (_ & _ & _ & _ & _ & _ & Ho & Hs).
  split; [|split; [|split]].
  - refine (eq_trans (f_equal (fmap QuerySet.idArr) (Hm _ _ _)) _);
      vm_compute; reflexivity.
  - refine (eq_trans (f_equal (fmap QuerySet.idArr) (Hr _ _ _)) _);
      vm_compute; reflexivity.
  - refine (eq_trans (f_equal (fmap QuerySet.idArr) (Ho _ _)) _);
      vm_compute; reflexivity.
  - apply (Hs fiveStars (QuerySet._new books [VNum 1; VNum 3] optsOff));
      [vm_compute; reflexivity | vm_compute; reflexivity |].
    refine (eq_trans (Ho _ _) _); [vm_compute; reflexivity|].
    do 2 f_equal.
Defined.

(** ** QuerySet: the partition law *)

Section Partition.
Context {Inst : Type}.
Implicit Types (q : QuerySet.QuerySet Inst).

(** Reading a property never fails on the objects of a list that holds raw
    records only. *)
Lemma mapM_get_prop_raw (k : string) (P : entity Inst → bool) (l : list (entity Inst)) :
  Forall (λ e, P e = true → ∃ r, e = ERef r) l →
  ∃ ids, mapM (λ e, get_prop e k) (List.filter P l) = Ok ids.
Proof.
  induction 1 as [|e l He _ [ids IH]]; [by exists []|].
  cbn [List.filter]. destruct (P e) eqn:HP; [|by exists ids].
  destruct (He eq_refl) as [r ->].
  cbn [mapM get_prop]. cbn. rewrite IH. cbn. by eexists.
Qed.

Lemma filterOrExclude_object_count o (excl : bool) q q' :
  QuerySet._filterOrExclude (QuerySet.PObject o) excl q = Ok q' →
  QuerySet.count q'
  = List.length
      (List.filter (λ e, xorb excl (verdict (QuerySet.PObject o) q e))
                   (List.map (rawOf q) (QuerySet.idArr q))).
Proof.
  rewrite filterOrExclude_shape_raw by done.
  destruct (mapM _ _) as [ids|] eqn:Hids; cbn; [|discriminate].
  intros [= <-]. unfold QuerySet.count. rewrite new_idArr.
  exact (mapM_Ok_length _ _ _ Hids).
Qed.

Lemma filterOrExclude_object_present o (excl : bool) q :
  present q = true →
  ∃ q', QuerySet._filterOrExclude (QuerySet.PObject o) excl q = Ok q'.
Proof.
  intros Hp. rewrite filterOrExclude_shape_raw by done.
  destruct (mapM_get_prop_raw (Model.idAttribute (QuerySet.modelClass q))
              (λ e, xorb excl (verdict (QuerySet.PObject o) q e))
              (List.map (rawOf q) (QuerySet.idArr q))) as [ids Hids].
  - apply Forall_forall. intros e He _.
    apply list_elem_of_In, in_map_iff in He as (id & <- & Hid).
    apply present_raw in Hp. rewrite Forall_forall in Hp.
    apply Hp, list_elem_of_In, Hid.
  - rewrite Hids. cbn. by eexists.
Qed.

End Partition.

(** C6.  For a field-match predicate, [filter] and [exclude] partition the
    id sequence: whenever both return,
    [Q.filter(p).count() + Q.exclude(p).count() == Q.count()]; and both
    return on every QuerySet whose ids name records of its table. *)
Theorem filter_exclude_partition {Inst : Type} (q : QuerySet.QuerySet Inst)
    (o : gmap string (QuerySet.lookup_value Inst)) :
  (∀ qf qe,
     QuerySet.filter (QuerySet.PObject o) q = Ok qf →
     QuerySet.exclude (QuerySet.PObject o) q = Ok qe →
     (QuerySet.count qf + QuerySet.count qe = QuerySet.count q)%nat)
  ∧ (present q = true →
     ∃ qf qe,
       QuerySet.filter (QuerySet.PObject o) q = Ok qf
       ∧ QuerySet.exclude (QuerySet.PObject o) q = Ok qe).
Proof.
  split.
  - intros qf qe Hf He.
    rewrite (filterOrExclude_object_count o false q qf Hf).
    rewrite (filterOrExclude_object_count o true q qe He).
    unfold QuerySet.count.
    rewrite <- (length_map (rawOf q) (QuerySet.idArr q)).
    apply (filter_complement_length (λ e, verdict (QuerySet.PObject o) q e)).
  - intros Hp.
    destruct (filterOrExclude_object_present o false q Hp) as (qf & Hf).
    destruct (filterOrExclude_object_present o true q Hp) as (qe & He).
    by exists qf, qe.
Qed.

Lemma filter_exclude_partition_witness :
  present books = true
  ∧ ∃ qf qe,
      QuerySet.filter fiveStars books = Ok qf
      ∧ QuerySet.exclude fiveStars books = Ok qe
      ∧ (QuerySet.count qf + QuerySet.count qe = QuerySet.count books)%nat.
Proof.
  split; [vm_compute; reflexivity|].
  destruct (filter_exclude_partition books {[ "rating" := QuerySet.LVal (VNum 5) ]})
    as [Hsum Hret].
  destruct Hret as (qf & qe & Hf & He); [vm_compute; reflexivity|].
  exists qf, qe. split; [exact Hf|]. split; [exact He|].
  exact (Hsum qf qe Hf He).
Defined.

(** ** QuerySet: predicates that are neither functions nor mappings *)

Section PropertyShorthand.
Context {Inst : Type}.
Implicit Types (q : QuerySet.QuerySet Inst).

Lemma truthy_property_raw (k : string) (e : entity Inst) :
  truthy (Lodash.property k e) = true → ∃ r, e = ERef r.
Proof. destruct e as [|r|m]; cbn; [discriminate|by exists r|discriminate]. Qed.

Lemma filter_by_name_returns (p : QuerySet.predicate Inst) q :
  (match p with
   | QuerySet.PString _ | QuerySet.PNumber _ => True
   | _ => False
   end) →
  ∃ q', QuerySet.filter p q = Ok q'.
Proof.
  intros Hp. unfold QuerySet.filter. rewrite filterOrExclude_shape_raw.
  - destruct (mapM_get_prop_raw (Model.idAttribute (QuerySet.modelClass q))
                (λ e, xorb false (verdict p q e))
                (List.map (rawOf q) (QuerySet.idArr q))) as [ids Hids].
    + apply Forall_forall. intros e _.
      destruct p as [f|o|s|n]; try contradiction; apply truthy_property_raw.
    + rewrite Hids. cbn. by eexists.
  - intros f ->. contradiction.
Qed.

Lemma inherited_name (o : ObjectPrototype.member) :
  ObjectPrototype.inherited (ObjectPrototype.name o) = Some o.
Proof. by destruct o. Qed.

(** A record without a field of the name of an inherited member reads that
    member under the name. *)
Lemma inherited_member_read q (o : ObjectPrototype.member) (id : value) :
  keyed q = true → lacksOwn q (ObjectPrototype.name o) = true →
  id ∈ QuerySet.idArr q →
  ∃ r, rawOf q id = ERef r
       ∧ Lodash.property (ObjectPrototype.name o) (ERef r : entity Inst) = VObject o.
Proof.
  unfold keyed, lacksOwn. rewrite !forallb_forall. intros Hk Hown Hid.
  apply list_elem_of_In in Hid.
  specialize (Hk id Hid). specialize (Hown id Hid).
  apply bool_decide_eq_true in Hk, Hown. unfold rawOf.
  destruct (Model.accessId (QuerySet.modelClass q) id) as [r|]; [|discriminate].
  exists r. split; [reflexivity|]. cbn in Hown.
  unfold Lodash.property, get_prop, record_get. by rewrite Hown, inherited_name.
Qed.

Lemma filter_all_true {A : Type} (P : A → bool) (l : list A) :
  (∀ x, x ∈ l → P x = true) → List.filter P l = l.
Proof.
  induction l as [|x l IH]; intros H; [reflexivity|].
  cbn. rewrite (H x) by (by left). f_equal. apply IH.
  intros y Hy. apply H. by right.
Qed.

Lemma filter_all_false {A : Type} (P : A → bool) (l : list A) :
  (∀ x, x ∈ l → P x = false) → List.filter P l = [].
Proof.
  induction l as [|x l IH]; intros H; [reflexivity|].
  cbn. rewrite (H x) by (by left). apply IH.
  intros y Hy. apply H. by right.
Qed.

End PropertyShorthand.

(** C4 (as amended).  [filter] and [exclude] do not check the shape of their
    predicate: a string or a number is handed to lodash, which takes it as
    the property shorthand.  [filter] with a string or a number returns a
    QuerySet on every receiver and never raises.  For a name of word
    characters, or a number, on a receiver whose ids name records carrying
    their id: [filter] ([excl] false) keeps exactly the ids whose raw record
    reads a truthy value under the name, and [exclude] ([excl] true) the
    others, in the receiver's order; what the record reads under the name is
    its own field or, failing that, the member every plain object inherits
    under it, else [undefined]; so with the name of an inherited member that
    no record has a field of, [filter] keeps every id and [exclude]
    none. *)
Theorem filter_reads_name_as_property {Inst : Type} (q : QuerySet.QuerySet Inst) :
  (∀ s, ∃ q', QuerySet.filter (QuerySet.PString s) q = Ok q')
  ∧ (∀ n, ∃ q', QuerySet.filter (QuerySet.PNumber n) q = Ok q')
  ∧ (∀ s excl, Lodash.isPlainProp s = true → keyed q = true →
       QuerySet._filterOrExclude (QuerySet.PString s) excl q
       = Ok (QuerySet._new q
               (List.filter
                  (λ id, xorb excl (truthy (Lodash.property s (rawOf q id))))
                  (QuerySet.idArr q)) optsOff))
  ∧ (∀ n excl, keyed q = true →
       QuerySet._filterOrExclude (QuerySet.PNumber n) excl q
       = Ok (QuerySet._new q
               (List.filter
                  (λ id, xorb excl
                     (truthy (Lodash.property (pretty n) (rawOf q id))))
                  (QuerySet.idArr q)) optsOff))
  ∧ (∀ s r,
       Lodash.property s (ERef r : entity Inst)
       = match r !! s with
         | Some v => v
         | None =>
             match ObjectPrototype.inherited s with
             | Some o => VObject o
             | None => VUndefined
             end
         end)
  ∧ (∀ o, keyed q = true → lacksOwn q (ObjectPrototype.name o) = true →
       QuerySet.filter (QuerySet.PString (ObjectPrototype.name o)) q
       = Ok (QuerySet._new q (QuerySet.idArr q) optsOff)
       ∧ QuerySet.exclude (QuerySet.PString (ObjectPrototype.name o)) q
         = Ok (QuerySet._new q [] optsOff)).
Proof.
  split; [|split; [|split; [|split; [|split]]]].
  - intros s. by apply filter_by_name_returns.
  - intros n. by apply filter_by_name_returns.
  - intros s excl _ Hk.
    exact (filterOrExclude_ids (QuerySet.PString s) excl q Hk).
  - intros n excl Hk.
    exact (filterOrExclude_ids (QuerySet.PNumber n) excl q Hk).
  - intros s r. unfold Lodash.property, get_prop, record_get.
    destruct (r !! s); [reflexivity|].
    by destruct (ObjectPrototype.inherited s).
  - intros o Hk Hown.
    assert (∀ id, id ∈ QuerySet.idArr q →
                  truthy (Lodash.property (ObjectPrototype.name o) (rawOf q id)) = true)
      as Hall.
    { intros id Hid. destruct (inherited_member_read q o id Hk Hown Hid) as [r [-> ->]].
      reflexivity. }
    unfold QuerySet.filter, QuerySet.exclude.
    rewrite !(filterOrExclude_ids (QuerySet.PString _) _ q Hk).
    cbn [verdict evaluated xorb]. split; do 2 f_equal.
    + apply filter_all_true. intros id Hid. by apply Hall.
    + apply filter_all_false. intros id Hid. by rewrite Hall.
Qed.

Lemma filter_reads_name_as_property_witness :
  Lodash.isPlainProp "rating" = true
  ∧ keyed books = true
  ∧ lacksOwn books "constructor" = true
  ∧ QuerySet.idArr <$> QuerySet.filter (QuerySet.PString "rating") books
    = Ok [VNum 1; VNum 2; VNum 3]
  ∧ QuerySet.idArr <$> QuerySet.exclude (QuerySet.PNumber 5) books
    = Ok [VNum 1; VNum 2; VNum 3]
  ∧ QuerySet.idArr <$> QuerySet.filter (QuerySet.PString "constructor") books
    = Ok [VNum 1; VNum 2; VNum 3]
  ∧ QuerySet.idArr <$> QuerySet.exclude (QuerySet.PString "constructor") books
    = Ok [].
Proof.
  destruct (filter_reads_name_as_property books) as (_ & _ & Hs & Hn & _ & Ho).
  destruct (Ho ObjectPrototype.constructor) as [Hf He];
    [vm_compute; reflexivity..|].
  split; [reflexivity|]. split; [vm_compute; reflexivity|].
  split; [vm_compute; reflexivity|].
  split; [|split; [|split]].
  - refine (eq_trans (f_equal (fmap QuerySet.idArr) (Hs "rating" false _ _)) _);
      vm_compute; reflexivity.
  - refine (eq_trans (f_equal (fmap QuerySet.idArr) (Hn 5 true _)) _);
      vm_compute; reflexivity.
  - exact (f_equal (fmap QuerySet.idArr) Hf).
  - exact (f_equal (fmap QuerySet.idArr) He).
Defined.

(** C4 (as stated) fails: [filter] with a string and [exclude] with a number
    return QuerySets, and [filter] with the name of a field no record has
    returns the empty QuerySet as if nothing matched. *)
Lemma filter_with_string_does_not_fail :
  QuerySet.idArr <$> QuerySet.filter (QuerySet.PString "rating") books
  = Ok [VNum 1; VNum 2; VNum 3]
  ∧ QuerySet.idArr <$> QuerySet.filter (QuerySet.PString "title") books = Ok []
  ∧ QuerySet.idArr <$> QuerySet.exclude (QuerySet.PNumber 5) books
    = Ok [VNum 1; VNum 2; VNum 3].
Proof. split; [|split]; vm_compute; reflexivity. Qed.

(** ** QuerySet: toggling the view mode *)

Section Toggle.
Context {Inst : Type}.
Implicit Types (q : QuerySet.QuerySet Inst) (h : QuerySet.heap Inst).

Lemma get_this getter l h q :
  h !! l = Some q → getter q = QuerySet.This →
  QuerySet.get getter l h = Some (l, h).
Proof. intros Hl Hg. unfold QuerySet.get. rewrite Hl. cbn. by rewrite Hg. Qed.

Lemma get_fresh getter l h q q' :
  h !! l = Some q → getter q = QuerySet.Fresh q' →
  QuerySet.get getter l h = Some (List.length h, h ++ [q']).
Proof. intros Hl Hg. unfold QuerySet.get. rewrite Hl. cbn. by rewrite Hg. Qed.

Lemma lookup_allocated h q : (h ++ [q]) !! List.length h = Some q.
Proof. by rewrite list_lookup_middle. Qed.

(** Reading a view-mode getter that forces the flag to [b] yields a
    reference on which the getter yields the same reference again. *)
Lemma toggle_settles (getter : QuerySet.QuerySet Inst → QuerySet.returned Inst)
    (b : bool) l h q :
  (∀ q0, getter q0 =
         if bool_decide (QuerySet._withRefs q0 = b) then QuerySet.This
         else QuerySet.Fresh
                (QuerySet._new q0 (QuerySet.idArr q0)
                   (Some {| QuerySet.opt_withRefs := Some b |}))) →
  h !! l = Some q →
  ∃ l1 h1 q1,
    QuerySet.get getter l h = Some (l1, h1)
    ∧ h1 !! l1 = Some q1
    ∧ QuerySet.get getter l1 h1 = Some (l1, h1)
    ∧ QuerySet._withRefs q1 = b
    ∧ QuerySet.idArr q1 = QuerySet.idArr q
    ∧ QuerySet.modelClass q1 = QuerySet.modelClass q
    ∧ (QuerySet._withRefs q = b → l1 = l ∧ h1 = h).
Proof.
  intros Hg Hl. pose proof (Hg q) as Hq. case_bool_decide as Hb.
  - exists l, h, q. rewrite (get_this getter l h q Hl Hq). by repeat split.
  - set (q1 := QuerySet._new q (QuerySet.idArr q)
                 (Some {| QuerySet.opt_withRefs := Some b |})) in *.
    exists (List.length h), (h ++ [q1]), q1.
    rewrite (get_fresh getter l h q q1 Hl Hq).
    assert (getter q1 = QuerySet.This) as Hq1.
    { rewrite Hg. rewrite bool_decide_eq_true_2; [reflexivity|apply new_withRefs]. }
    rewrite (get_this getter _ _ q1 (lookup_allocated h q1) Hq1).
    split; [reflexivity|]. split; [apply lookup_allocated|].
    do 4 (split; [reflexivity|]). intros E. by destruct (Hb E).
Qed.

Lemma withRefs_spec q :
  QuerySet.withRefs q =
  if bool_decide (QuerySet._withRefs q = true) then QuerySet.This
  else QuerySet.Fresh (QuerySet._new q (QuerySet.idArr q) optsOn).
Proof. unfold QuerySet.withRefs. by destruct (QuerySet._withRefs q). Qed.

Lemma withModels_spec q :
  QuerySet.withModels q =
  if bool_decide (QuerySet._withRefs q = false) then QuerySet.This
  else QuerySet.Fresh (QuerySet._new q (QuerySet.idArr q) optsOff).
Proof. unfold QuerySet.withModels. by destruct (QuerySet._withRefs q). Qed.

End Toggle.

(** C8.  Toggling the view mode is idempotent.  For the QuerySet [q] at
    reference [l], [Q.withRefs] is a reference [l1] to a QuerySet in
    raw-record mode with the ids (and model class) of [q], and
    [Q.withRefs.withRefs] is the very same reference [l1], with nothing
    allocated; [withRefs] returns [this] ([l1 = l], store unchanged) when
    the flag is already on.  The alias [ref], and [withModels] with the flag
    off, behave in the same way. *)
Theorem view_mode_toggle_idempotent {Inst : Type} (h : QuerySet.heap Inst)
    (l : nat) (q : QuerySet.QuerySet Inst) :
  h !! l = Some q →
  (∃ l1 h1 q1,
     QuerySet.get QuerySet.withRefs l h = Some (l1, h1)
     ∧ h1 !! l1 = Some q1
     ∧ QuerySet.get QuerySet.withRefs l1 h1 = Some (l1, h1)
     ∧ QuerySet._withRefs q1 = true
     ∧ QuerySet.idArr q1 = QuerySet.idArr q
     ∧ QuerySet.modelClass q1 = QuerySet.modelClass q
     ∧ (QuerySet._withRefs q = true → l1 = l ∧ h1 = h))
  ∧ QuerySet.get QuerySet.ref l h = QuerySet.get QuerySet.withRefs l h
  ∧ (∃ l1 h1 q1,
     QuerySet.get QuerySet.withModels l h = Some (l1, h1)
     ∧ h1 !! l1 = Some q1
     ∧ QuerySet.get QuerySet.withModels l1 h1 = Some (l1, h1)
     ∧ QuerySet._withRefs q1 = false
     ∧ QuerySet.idArr q1 = QuerySet.idArr q
     ∧ QuerySet.modelClass q1 = QuerySet.modelClass q
     ∧ (QuerySet._withRefs q = false → l1 = l ∧ h1 = h)).
Proof.
  intros Hl. split; [|split].
  - exact (toggle_settles QuerySet.withRefs true l h q withRefs_spec Hl).
  - reflexivity.
  - exact (toggle_settles QuerySet.withModels false l h q withModels_spec Hl).
Qed.

Lemma view_mode_toggle_idempotent_witness :
  QuerySet.get QuerySet.withRefs 0%nat [books] = Some (1%nat, [books; booksRefs])
  ∧ QuerySet.get QuerySet.withRefs 1%nat [books; booksRefs]
    = Some (1%nat, [books; booksRefs])
  ∧ QuerySet.get QuerySet.withModels 0%nat [books] = Some (0%nat, [books]).
Proof.
  destruct (view_mode_toggle_idempotent [books] 0%nat books eq_refl)
    as ((l1 & h1 & q1 & H1 & _ & H2 & _) & _ & (l2 & h2 & q2 & H3 & _ & _ & _ & _ & _ & H4)).
  assert (QuerySet.get QuerySet.withRefs 0%nat [books]
          = Some (1%nat, [books; booksRefs])) as E by reflexivity.
  rewrite E in H1. injection H1 as <- <-.
  destruct (H4 eq_refl) as [-> ->].
  split; [exact E|]. split; [exact H2|exact H3].
Defined.

(** ** QuerySet: [delete] logs the removal before it runs the hooks *)

Section Delete.
Context {Inst : Type}.
Implicit Types (q : QuerySet.QuerySet Inst) (log : Transaction).

Lemma addUpdate_all_updates (us : list Update) log :
  Transaction.updates (foldl (λ l u, Transaction.addUpdate u l) log us)
  = Transaction.updates log ++ List.map logged us.
Proof.
  revert log. induction us as [|u us IH]; intros log; cbn.
  - by rewrite app_nil_r.
  - rewrite IH. cbn. by rewrite <- app_assoc.
Qed.

(** Running the hooks over the wrapped entities of [ids]: the hooks of the
    entities [reached] run in order and enqueue their records; the loop
    returns when every id names an entity and raises at the first that names
    none. *)
Lemma forEach_onDelete_reached (mc : Model.ModelClass Inst) (ids : list value) log :
  QuerySet.arrayForEach (QuerySet.call_onDelete mc)
    (List.map (λ id, of_model (Model.withId mc id)) ids) log
  = (foldl (λ l u, Transaction.addUpdate u l) log
       (concat (List.map (Model._onDelete mc) (reached mc ids))),
     if forallb (λ id, bool_decide (is_Some (Model.withId mc id))) ids
     then Ok tt else TypeError).
Proof.
  revert log. induction ids as [|id ids IH]; intros log; [reflexivity|].
  cbn [List.map reached forallb QuerySet.arrayForEach].
  destruct (Model.withId mc id) as [m|]; cbn [of_model QuerySet.call_onDelete].
  - rewrite IH. cbn [List.map concat]. rewrite foldl_app.
    case_bool_decide as Hs; [reflexivity|]. destruct Hs. by eexists.
  - case_bool_decide as Hs; [|reflexivity]. by destruct Hs.
Qed.

Lemma reached_all (mc : Model.ModelClass Inst) (ids : list value) :
  Forall (λ id, is_Some (Model.withId mc id)) ids →
  List.map EModel (reached mc ids)
  = List.map (λ id, of_model (Model.withId mc id)) ids.
Proof.
  induction 1 as [|id ids [m Hm] _ IH]; [reflexivity|].
  cbn. rewrite Hm. cbn. by rewrite IH.
Qed.

(** [delete] logs the removal and then runs the hooks over the wrapped
    entities of its ids, whatever the view mode. *)
Lemma delete_runs_hooks q log :
  QuerySet.delete q log
  = QuerySet.arrayForEach (QuerySet.call_onDelete (QuerySet.modelClass q))
      (List.map (λ id, of_model (Model.withId (QuerySet.modelClass q) id))
                (QuerySet.idArr q))
      (Model.addUpdate (QuerySet.modelClass q)
         {| type := DELETE; payload := IdsPayload (QuerySet.idArr q); meta := None |}
         log).
Proof.
  unfold QuerySet.delete, QuerySet.forEach.
  set (qm := QuerySet.resolve q (QuerySet.withModels q)).
  assert (QuerySet._withRefs qm = false ∧ QuerySet.idArr qm = QuerySet.idArr q
          ∧ QuerySet.modelClass qm = QuerySet.modelClass q) as (Hm & Hi & Hc).
  { unfold qm, QuerySet.withModels.
    destruct (QuerySet._withRefs q) eqn:E; cbn; by rewrite ?E. }
  rewrite Hm, toModelArray_view, Hm, Hi.
  f_equal. unfold wrappedOf. by rewrite Hc.
Qed.

End Delete.

(** C5.  [delete()] first appends the removal record for the ids of the
    QuerySet to the update log and only then runs the [_onDelete] hook of
    the wrapped entities, in the order of the ids: the log it leaves is the
    log it found, then the removal record, then the records enqueued by the
    hooks of the entities reached, so that every record a hook enqueues lies
    after the removal record.  When every id names a wrapped entity, the
    entities reached are all of them and [delete] returns normally. *)
Theorem delete_logs_removal_before_hooks {Inst : Type}
    (q : QuerySet.QuerySet Inst) (log : Transaction) :
  let mc := QuerySet.modelClass q in
  let removal :=
    {| type := DELETE; payload := IdsPayload (QuerySet.idArr q);
       meta := Some {| name := Model.modelName mc |} |} in
  let hooked := concat (List.map (Model._onDelete mc) (reached mc (QuerySet.idArr q))) in
  Transaction.updates (fst (QuerySet.delete q log))
  = Transaction.updates log ++ logged removal :: List.map logged hooked
  ∧ Transaction.updates (fst (QuerySet.delete q log))
      !! List.length (Transaction.updates log) = Some (logged removal)
  ∧ (∀ i u, List.map logged hooked !! i = Some u →
            Transaction.updates (fst (QuerySet.delete q log))
              !! (List.length (Transaction.updates log) + 1 + i)%nat = Some u)
  ∧ (Forall (λ id, is_Some (Model.withId mc id)) (QuerySet.idArr q) →
     snd (QuerySet.delete q log) = Ok tt
     ∧ List.map EModel (reached mc (QuerySet.idArr q))
       = List.map (wrappedOf q) (QuerySet.idArr q)).
Proof.
  intros mc removal hooked.
  assert (Transaction.updates (fst (QuerySet.delete q log))
          = Transaction.updates log ++ logged removal :: List.map logged hooked)
    as Hlog.
  { rewrite delete_runs_hooks, forEach_onDelete_reached. cbn [fst].
    rewrite addUpdate_all_updates. cbn. by rewrite <- app_assoc. }
  split; [exact Hlog|]. rewrite Hlog. split; [by apply list_lookup_middle|].
  split.
  - intros i u Hu.
    rewrite lookup_app_r by lia.
    replace (List.length (Transaction.updates log) + 1 + i
             - List.length (Transaction.updates log))%nat with (S i) by lia.
    exact Hu.
  - intros Hall. rewrite delete_runs_hooks, forEach_onDelete_reached. cbn [snd].
    fold mc. split.
    + rewrite (proj2 (forallb_forall _ _)); [reflexivity|].
      intros id Hid. apply bool_decide_eq_true.
      rewrite Forall_forall in Hall. apply Hall. by apply list_elem_of_In.
    + exact (reached_all mc _ Hall).
Qed.

Lemma delete_logs_removal_before_hooks_witness :
  snd (QuerySet.delete reviewedBooks Transaction.new) = Ok tt
  ∧ Transaction.update
      <$> Transaction.updates (fst (QuerySet.delete reviewedBooks Transaction.new))
    = [removal [VNum 1; VNum 2; VNum 3];
       {| type := DELETE; payload := IdsPayload [VNum 1];
          meta := Some {| name := "Review" |} |};
       {| type := DELETE; payload := IdsPayload [VNum 2];
          meta := Some {| name := "Review" |} |};
       {| type := DELETE; payload := IdsPayload [VNum 3];
          meta := Some {| name := "Review" |} |}].
Proof.
  destruct (delete_logs_removal_before_hooks reviewedBooks Transaction.new)
    as (Hlog & _ & _ & Hall).
  destruct Hall as [Hok _].
  { apply (bool_decide_unpack _). vm_compute. reflexivity. }
  split; [exact Hok|]. rewrite Hlog. vm_compute. reflexivity.
Defined.

(** ** Session: the two passes of [getNextState] *)

Section SessionPasses.
Context {Inst : Type}.
Implicit Types (s : Session.Session Inst) (mc : Model.ModelClass Inst)
  (acc : StateTree * Transaction) (l pre post : list (Model.ModelClass Inst)).

Lemma reducerStep_fst s acc mc :
  fst (Session.reducerStep s acc mc)
  = <[Model.modelName mc := reducedValue s mc (snd acc)]> (fst acc).
Proof.
  unfold Session.reducerStep, reducedValue, Ops.set. destruct acc as [t tx]. cbn.
  destruct (Model.reducer mc _ _ _ tx) as [[v|] tx1]; [reflexivity|].
  destruct (Model.getNextState mc _ tx1) as [v tx2]. reflexivity.
Qed.

Lemma unappliedStep_fst s unapplied acc mc :
  fst (Session.unappliedStep s unapplied acc mc)
  = if bool_decide (is_Some (unapplied !! Model.modelName mc))
    then <[Model.modelName mc :=
             fst (Model.getNextState mc (Session.state s) (snd acc))]> (fst acc)
    else fst acc.
Proof.
  unfold Session.unappliedStep, Ops.set. destruct acc as [t tx]. cbn.
  case_bool_decide; [|reflexivity].
  destruct (Model.getNextState mc _ tx) as [v tx2]. reflexivity.
Qed.

Lemma reducer_steps_keep_others s l acc (n : string) :
  n ∉ Model.modelName <$> l →
  fst (foldl (Session.reducerStep s) acc l) !! n = fst acc !! n.
Proof.
  revert acc. induction l as [|mc l IH]; intros acc Hn; [reflexivity|].
  rewrite fmap_cons, not_elem_of_cons in Hn. destruct Hn as [Hne Hn].
  cbn [foldl]. rewrite (IH _ Hn), reducerStep_fst.
  by rewrite lookup_insert_ne.
Qed.

Lemma unapplied_steps_keep_others s unapplied l acc (n : string) :
  n ∉ Model.modelName <$> l →
  fst (foldl (Session.unappliedStep s unapplied) acc l) !! n = fst acc !! n.
Proof.
  revert acc. induction l as [|mc l IH]; intros acc Hn; [reflexivity|].
  rewrite fmap_cons, not_elem_of_cons in Hn. destruct Hn as [Hne Hn].
  cbn [foldl]. rewrite (IH _ Hn), unappliedStep_fst.
  case_bool_decide; [by rewrite lookup_insert_ne|reflexivity].
Qed.

Lemma unapplied_steps_keep_applied s unapplied l acc (n : string) :
  unapplied !! n = None →
  fst (foldl (Session.unappliedStep s unapplied) acc l) !! n = fst acc !! n.
Proof.
  intros Hn. revert acc. induction l as [|mc l IH]; intros acc; [reflexivity|].
  cbn [foldl]. rewrite IH, unappliedStep_fst.
  case_bool_decide as Hs; [|reflexivity].
  rewrite lookup_insert_ne; [reflexivity|].
  intros <-. rewrite Hn in Hs. by destruct Hs.
Qed.

Lemma split_name_fresh pre mc post :
  NoDup (Model.modelName <$> (pre ++ mc :: post)) →
  Model.modelName mc ∉ Model.modelName <$> post.
Proof.
  rewrite fmap_app, fmap_cons, NoDup_app, NoDup_cons. tauto.
Qed.

Lemma getNextState_fst s opts :
  Session.withMutations s = false →
  fst (Session.getNextState opts s)
  = fst (Session.unappliedPass s
           (Session.reducerPass s (Session.resolveRunReducers opts s))).
Proof.
  intros Hm. unfold Session.getNextState. rewrite Hm.
  by destruct (Session.unappliedPass _ _).
Qed.

Lemma getNextState_snd s opts :
  Session.withMutations s = false →
  snd (Session.getNextState opts s) = Session.with_currentTx s Transaction.new.
Proof.
  intros Hm. unfold Session.getNextState. rewrite Hm.
  by destruct (Session.unappliedPass _ _).
Qed.

End SessionPasses.

(** C1.  In [getNextState] on a session that does not mutate in place, with
    reducers running and the models of the session named apart.  For every
    table whose reducer returns a defined value, the reducer pass makes that
    value the table's next state; for every table whose reducer returns
    [undefined], it makes the value [Model.getNextState] computes from the
    log (the table's recorded updates applied) the table's next state; either
    is the table's entry in the returned tree when the log holds no unapplied
    update for the table after the reducer pass.  After the reducer pass,
    every table that still has unapplied updates in the log gets in the
    returned tree the value [Model.getNextState] computes from the log.  The
    tables of no model are carried over. *)
Theorem getNextState_reducers_then_unapplied {Inst : Type}
    (s : Session.Session Inst) (opts : option Session.NextStateOpts) :
  Session.withMutations s = false →
  Session.resolveRunReducers opts s = true →
  NoDup (Model.modelName <$> Session.sessionBoundModels s) →
  let reduced := afterReducersOf s (Session.sessionBoundModels s) in
  let next := fst (Session.getNextState opts s) in
  (∀ pre mc post v tx',
     Session.sessionBoundModels s = pre ++ mc :: post →
     Model.reducer mc (Session.getState s (Model.modelName mc))
       (Session.action s) (Session.state s) (snd (afterReducersOf s pre))
     = (Some v, tx') →
     fst reduced !! Model.modelName mc = Some v
     ∧ (hasUnapplied (snd reduced) (Model.modelName mc) = false →
        next !! Model.modelName mc = Some v))
  ∧ (∀ pre mc post tx',
     Session.sessionBoundModels s = pre ++ mc :: post →
     Model.reducer mc (Session.getState s (Model.modelName mc))
       (Session.action s) (Session.state s) (snd (afterReducersOf s pre))
     = (None, tx') →
     let v := fst (Model.getNextState mc (Session.state s) tx') in
     fst reduced !! Model.modelName mc = Some v
     ∧ (hasUnapplied (snd reduced) (Model.modelName mc) = false →
        next !! Model.modelName mc = Some v))
  ∧ (∀ unapplied pre mc post,
     Transaction.getUnappliedUpdatesByModel (snd reduced) = Some unapplied →
     Session.sessionBoundModels s = pre ++ mc :: post →
     is_Some (unapplied !! Model.modelName mc) →
     next !! Model.modelName mc
     = Some (fst (Model.getNextState mc (Session.state s)
                    (snd (afterUnappliedOf s unapplied reduced pre)))))
  ∧ (∀ n, n ∉ Model.modelName <$> Session.sessionBoundModels s →
          next !! n = Session.state s !! n).
Proof.
  intros Hm Hr Hnd reduced next.
  assert (next = fst (Session.unappliedPass s reduced)) as Hnext.
  { unfold next. rewrite getNextState_fst by exact Hm. rewrite Hr. reflexivity. }
  assert (∀ pre mc post,
            Session.sessionBoundModels s = pre ++ mc :: post →
            fst reduced !! Model.modelName mc
            = Some (reducedValue s mc (snd (afterReducersOf s pre)))) as Hreduced.
  { intros pre mc post Hsplit. unfold reduced, afterReducersOf.
    rewrite Hsplit, foldl_app. cbn [foldl].
    rewrite reducer_steps_keep_others, reducerStep_fst.
    - by rewrite lookup_insert_eq.
    - apply (split_name_fresh pre). by rewrite <- Hsplit. }
  assert (∀ n, hasUnapplied (snd reduced) n = false →
               next !! n = fst reduced !! n) as Hkept.
  { intros n Hn. rewrite Hnext. unfold Session.unappliedPass.
    unfold hasUnapplied in Hn.
    destruct (Transaction.getUnappliedUpdatesByModel (snd reduced))
      as [unapplied|]; [|reflexivity].
    apply unapplied_steps_keep_applied.
    apply bool_decide_eq_false in Hn. by apply eq_None_not_Some. }
  split; [|split; [|split]].
  - intros pre mc post v tx' Hsplit Hred.
    pose proof (Hreduced pre mc post Hsplit) as Hv.
    unfold reducedValue in Hv. rewrite Hred in Hv.
    split; [exact Hv|]. intros Hn. by rewrite (Hkept _ Hn).
  - intros pre mc post tx' Hsplit Hred v.
    pose proof (Hreduced pre mc post Hsplit) as Hv.
    unfold reducedValue in Hv. rewrite Hred in Hv.
    split; [exact Hv|]. intros Hn. by rewrite (Hkept _ Hn).
  - intros unapplied pre mc post Hun Hsplit Hsome.
    rewrite Hnext. unfold Session.unappliedPass. rewrite Hun.
    unfold afterUnappliedOf. rewrite Hsplit, foldl_app. cbn [foldl].
    rewrite unapplied_steps_keep_others, unappliedStep_fst.
    + rewrite bool_decide_eq_true_2 by exact Hsome. by rewrite lookup_insert_eq.
    + apply (split_name_fresh pre). by rewrite <- Hsplit.
  - intros n Hn. rewrite Hnext. unfold Session.unappliedPass.
    destruct (Transaction.getUnappliedUpdatesByModel (snd reduced))
      as [unapplied|].
    + rewrite unapplied_steps_keep_others by exact Hn.
      unfold reduced, afterReducersOf. by rewrite reducer_steps_keep_others.
    + unfold reduced, afterReducersOf. by rewrite reducer_steps_keep_others.
Qed.

(** The scenario of the table that received two removal records: whether its
    reducer returns [undefined] or returns the table it was given, both
    removals are reflected in the returned tree. *)
Lemma getNextState_reducers_then_unapplied_witness :
  fst (Session.getNextState runningReducers
         (bookSession defaultReducer false twoRemovals)) !! "Book"
  = Some bookTableLeft
  ∧ fst (Session.getNextState runningReducers
           (bookSession identityReducer false twoRemovals)) !! "Book"
    = Some bookTableLeft.
Proof.
  split.
  - destruct (getNextState_reducers_then_unapplied
                (bookSession defaultReducer false twoRemovals) runningReducers)
      as (_ & Hb & _ & _);
      [reflexivity|reflexivity|vm_compute; repeat constructor; set_solver|].
    destruct (Hb [] (tableModel "Book" "id" bookState defaultReducer (λ _, []))
                 [] twoRemovals eq_refl eq_refl) as [_ Hnext].
    refine (eq_trans (Hnext _) _); vm_compute; reflexivity.
  - destruct (getNextState_reducers_then_unapplied
                (bookSession identityReducer false twoRemovals) runningReducers)
      as (_ & _ & Hc & _);
      [reflexivity|reflexivity|vm_compute; repeat constructor; set_solver|].
    refine (eq_trans (Hc _ [] _ [] eq_refl eq_refl _) _).
    + vm_compute. eexists. reflexivity.
    + vm_compute. reflexivity.
Defined.

(** ** Session: recording an update *)

Section SessionAddUpdate.
Context {Inst : Type}.
Implicit Types (s : Session.Session Inst) (u : Update).

Lemma addUpdate_mutating s u mt mc t :
  Session.withMutations s = true →
  meta u = Some mt →
  Session.bound s (name mt) = Some mc →
  Session.state s !! name mt = Some t →
  Session.addUpdate u s
  = Ok (Session.with_state s
          (<[name mt := Model.updateReducer mc t u]> (Session.state s))).
Proof.
  intros Hm Hmeta Hb Ht. unfold Session.addUpdate, Session.getState.
  by rewrite Hm, Hmeta, Hb, Ht.
Qed.

Lemma addUpdate_mutating_log s u s' :
  Session.withMutations s = true →
  Session.addUpdate u s = Ok s' →
  Session.currentTx s' = Session.currentTx s.
Proof.
  intros Hm. unfold Session.addUpdate. rewrite Hm.
  destruct (meta u) as [mt|]; [|discriminate].
  destruct (Session.bound s (name mt)) as [mc|]; [|discriminate].
  destruct (Session.getState s (name mt)) as [t|]; [|discriminate].
  by intros [= <-].
Qed.

Lemma addUpdate_logging s u :
  Session.withMutations s = false →
  Session.addUpdate u s
  = Ok (Session.with_currentTx s (Transaction.addUpdate u (Session.currentTx s))).
Proof. intros Hm. unfold Session.addUpdate. by rewrite Hm. Qed.

End SessionAddUpdate.

(** C9.  On a session configured for in-place mutation, [addUpdate(record)]
    applies the record at once to the live state of the record's table
    through the [updateReducer] of its model, and leaves the update log as it
    was; on a session not so configured it appends the record to the log and
    leaves the state as it was.  [getNextState] on a mutating session returns
    the current state and leaves the session (its log included) untouched,
    whatever the options and the reducers of the models. *)
Theorem mutating_session_applies_at_once {Inst : Type}
    (s : Session.Session Inst) (u : Update) :
  (Session.withMutations s = true →
     (∀ mt mc t,
        meta u = Some mt →
        Session.bound s (name mt) = Some mc →
        Session.state s !! name mt = Some t →
        ∃ s', Session.addUpdate u s = Ok s'
              ∧ Session.getState s' (name mt) = Some (Model.updateReducer mc t u)
              ∧ (∀ n, n ≠ name mt → Session.getState s' n = Session.getState s n)
              ∧ Session.currentTx s' = Session.currentTx s
              ∧ ∀ opts, fst (Session.getNextState opts s') !! name mt
                        = Some (Model.updateReducer mc t u))
     ∧ (∀ s', Session.addUpdate u s = Ok s' →
              Session.updates s' = Session.updates s)
     ∧ (∀ opts, Session.getNextState opts s = (Session.state s, s)))
  ∧ (Session.withMutations s = false →
     ∃ s', Session.addUpdate u s = Ok s'
           ∧ Session.updates s' = Session.updates s ++ [u]
           ∧ Transaction.updates (Session.currentTx s')
             = Transaction.updates (Session.currentTx s) ++ [logged u]
           ∧ Session.state s' = Session.state s).
Proof.
  split.
  - intros Hm. split; [|split].
    + intros mt mc t Hmeta Hb Ht. eexists.
      split; [exact (addUpdate_mutating s u mt mc t Hm Hmeta Hb Ht)|].
      unfold Session.getState. cbn.
      split; [by rewrite lookup_insert_eq|].
      split; [by intros n Hn; rewrite lookup_insert_ne|].
      split; [reflexivity|].
      intros opts. unfold Session.getNextState. cbn. rewrite Hm. cbn.
      by rewrite lookup_insert_eq.
    + intros s' Hs'. unfold Session.updates.
      by rewrite (addUpdate_mutating_log s u s' Hm Hs').
    + intros opts. unfold Session.getNextState. by rewrite Hm.
  - intros Hm. eexists. split; [exact (addUpdate_logging s u Hm)|].
    unfold Session.updates. cbn. rewrite map_app. by repeat split.
Qed.

Lemma mutating_session_applies_at_once_witness :
  (λ s', Session.getState s' "Book")
    <$> Session.addUpdate (removal [VNum 1; VNum 3])
          (bookSession defaultReducer true Transaction.new)
  = Ok (Some bookTableLeft)
  ∧ Session.updates
      <$> Session.addUpdate (removal [VNum 1; VNum 3])
            (bookSession defaultReducer true Transaction.new)
    = Ok []
  ∧ Session.updates
      <$> Session.addUpdate (removal [VNum 1; VNum 3])
            (bookSession defaultReducer false Transaction.new)
    = Ok [removal [VNum 1; VNum 3]].
Proof.
  destruct (mutating_session_applies_at_once
              (bookSession defaultReducer true Transaction.new)
              (removal [VNum 1; VNum 3])) as [Hmut _].
  destruct (Hmut eq_refl) as (Happly & Hlog & _).
  destruct (Happly {| name := "Book" |}
              (tableModel "Book" "id" bookState defaultReducer (λ _, []))
              bookTable eq_refl eq_refl eq_refl)
    as (s' & Hs' & Hget & _ & _ & _).
  destruct (mutating_session_applies_at_once
              (bookSession defaultReducer false Transaction.new)
              (removal [VNum 1; VNum 3])) as [_ Hrec].
  destruct (Hrec eq_refl) as (s'' & Hs'' & Hup & _ & _).
  split; [|split].
  - rewrite Hs'.
    change (Ok (Session.getState s' (name {| name := "Book" |}))
            = Ok (Some bookTableLeft)).
    rewrite Hget. vm_compute. reflexivity.
  - rewrite Hs'. cbn. by rewrite (Hlog s' Hs').
  - rewrite Hs''. cbn. by rewrite Hup.
Defined.

(** ** Session: what [getNextState] leaves behind *)

(** C10.  On a session that does not mutate in place, [getNextState] does not
    assign the session's [state]: the session it leaves still holds the
    previous state tree (the next state is only returned), its [currentTx] is
    a fresh empty Transaction, so that it shows no recorded updates, and its
    other fields are as they were. *)
Theorem getNextState_keeps_state_resets_log {Inst : Type}
    (s : Session.Session Inst) (opts : option Session.NextStateOpts) :
  Session.withMutations s = false →
  let s' := snd (Session.getNextState opts s) in
  Session.state s' = Session.state s
  ∧ Session.currentTx s' = Transaction.new
  ∧ Session.updates s' = []
  ∧ (∀ n, Session.getUpdatesFor n s' = [])
  ∧ (∀ n, Session.getState s' n = Session.getState s n)
  ∧ Session.sessionBoundModels s' = Session.sessionBoundModels s
  ∧ Session.action s' = Session.action s
  ∧ Session.withMutations s' = false.
Proof.
  intros Hm s'. unfold s'. rewrite (getNextState_snd s opts Hm). cbn.
  by repeat split.
Qed.

Lemma getNextState_keeps_state_resets_log_witness :
  fst (Session.getNextState runningReducers
         (bookSession defaultReducer false twoRemovals)) !! "Book"
  = Some bookTableLeft
  ∧ Session.state (snd (Session.getNextState runningReducers
                          (bookSession defaultReducer false twoRemovals))) !! "Book"
    = Some bookTable
  ∧ Session.updates (bookSession defaultReducer false twoRemovals)
    = [removal [VNum 1]; removal [VNum 3]]
  ∧ Session.updates (snd (Session.getNextState runningReducers
                            (bookSession defaultReducer false twoRemovals)))
    = [].
Proof.
  destruct (getNextState_keeps_state_resets_log
              (bookSession defaultReducer false twoRemovals) runningReducers eq_refl)
    as (Hstate & _ & Hupd & _).
  split; [vm_compute; reflexivity|]. split; [|split].
  - rewrite Hstate. reflexivity.
  - reflexivity.
  - exact Hupd.
Defined.

(** ** Stable insertion sort *)

Section SortFacts.
Context {A : Type} (le : A → A → bool).
Implicit Types (x : A) (l : list A).

Lemma sortBy_cons x l : sortBy le (x :: l) = insertBy le x (sortBy le l).
Proof. reflexivity. Qed.

Lemma insertBy_perm x l : Permutation (insertBy le x l) (x :: l).
Proof.
  induction l as [|y l IH]; cbn; [reflexivity|].
  destruct (le x y); [reflexivity|].
  rewrite IH. apply perm_swap.
Qed.

Lemma sortBy_perm l : Permutation (sortBy le l) l.
Proof.
  induction l as [|x l IH]; [reflexivity|].
  rewrite sortBy_cons, insertBy_perm. by constructor.
Qed.

Lemma insertBy_sorted x l :
  (∀ a b, le a b = false → le b a = true) →
  Sorted (λ a b, le a b = true) l →
  Sorted (λ a b, le a b = true) (insertBy le x l).
Proof.
  intros Htot. induction 1 as [|y l Hl IH Hhd]; cbn.
  - repeat constructor.
  - destruct (le x y) eqn:Hxy.
    + constructor; [by constructor|by constructor].
    + constructor; [exact IH|].
      destruct Hhd as [|z l Hyz]; cbn.
      * constructor. by apply Htot.
      * destruct (le x z); constructor; [by apply Htot|exact Hyz].
Qed.

Lemma sortBy_sorted l :
  (∀ a b, le a b = false → le b a = true) →
  Sorted (λ a b, le a b = true) (sortBy le l).
Proof.
  intros Htot. induction l as [|x l IH]; [constructor|].
  rewrite sortBy_cons. by apply insertBy_sorted.
Qed.






End SortFacts.

(** Sorting commutes with a map that the order looks through. *)
Lemma sortBy_map {A B : Type} (f : A → B) (le : B → B → bool) (l : list A) :
  sortBy le (List.map f l) = List.map f (sortBy (λ a b, le (f a) (f b)) l).
Proof.
  induction l as [|x l IH]; [reflexivity|].
  cbn [List.map]. rewrite !sortBy_cons, IH.
  generalize (sortBy (λ a b, le (f a) (f b)) l). intros k.
  induction k as [|y k IHk]; [reflexivity|].
  cbn. destruct (le (f x) (f y)); [reflexivity|]. cbn. by rewrite IHk.
Qed.

Lemma sortBy_ext {A : Type} (le le' : A → A → bool) (l : list A) :
  (∀ a b, le a b = le' a b) → sortBy le l = sortBy le' l.
Proof.
  intros Heq. induction l as [|x l IH]; [reflexivity|].
  rewrite !sortBy_cons, IH.
  generalize (sortBy le' l). intros k.
  induction k as [|y k IHk]; [reflexivity|].
  cbn. rewrite Heq. destruct (le' x y); [reflexivity|]. by rewrite IHk.
Qed.

(** ** lodash: the order of [orderBy] *)

Section CompareFacts.

Lemma number_lt_asym (x y : number) : number_lt x y = true → number_lt y x = false.
Proof.
  destruct x as [|[|]|m1 e1], y as [|[|]|m2 e2];
    cbv beta iota zeta delta [number_lt]; try discriminate; try reflexivity.
  rewrite (Z.min_comm e2 e1). intros H. apply Z.ltb_lt in H. apply Z.ltb_ge. lia.
Qed.

Lemma js_lt_asym (a b : value) : js_lt a b = true → js_lt b a = false.
Proof.
  unfold js_lt.
  destruct (to_primitive a) as [| |b1|n1|s1|o1], (to_primitive b) as [| |b2|n2|s2|o2];
    cbv beta iota; try apply number_lt_asym.
  unfold String.ltb. rewrite (String.compare_antisym s1 s2).
  destruct (String.compare s2 s1); cbn; congruence.
Qed.

Lemma js_lt_irrefl (a : value) : js_lt a a = false.
Proof. destruct (js_lt a a) eqn:H; [|reflexivity]. by rewrite (js_lt_asym a a H) in H. Qed.

(** A comparison with [undefined] is a comparison with NaN. *)
Lemma js_lt_undefined_l (b : value) : js_lt VUndefined b = false.
Proof. unfold js_lt. cbn. by destruct (to_primitive b). Qed.

Lemma js_lt_undefined_r (a : value) : js_lt a VUndefined = false.
Proof.
  unfold js_lt. cbn [to_primitive to_number].
  destruct (to_primitive a); cbv beta iota;
    by destruct (to_number a) as [|[|]|m e].
Qed.

Lemma js_lt_numbers (x y : Z) : js_lt (VNum x) (VNum y) = (x <? y).
Proof.
  unfold js_lt, number_lt. cbn [to_primitive to_number].
  change (Z.min 0 0) with 0. change (0 - 0) with 0. change (10 ^ 0) with 1.
  by rewrite !Z.mul_1_r.
Qed.


Local Ltac js_lt_absurd :=
  match goal with
  | H : js_lt VUndefined _ = true |- _ => by rewrite js_lt_undefined_l in H
  | H : js_lt _ VUndefined = true |- _ => by rewrite js_lt_undefined_r in H
  | H1 : js_lt ?x ?y = true, H2 : js_lt ?y ?x = true |- _ =>
      by rewrite (js_lt_asym x y H1) in H2
  end.

(** Comparing the other way round gives the opposite sign. *)
Lemma compareAscending_antisym (a b : value) :
  Lodash.compareAscending b a = - Lodash.compareAscending a b.
Proof.
  unfold Lodash.compareAscending, strict_eq, js_gt.
  repeat case_bool_decide; subst; try congruence; cbn;
    repeat match goal with
           | |- context [js_lt ?x ?y] => destruct (js_lt x y) eqn:?
           end;
    cbn; try reflexivity; try js_lt_absurd.
Qed.


Lemma compareAscending_numbers (x y : Z) :
  (Lodash.compareAscending (VNum x) (VNum y) <=? 0) = true → x <= y.
Proof.
  unfold Lodash.compareAscending, strict_eq, js_gt. rewrite !js_lt_numbers. cbn.
  case_bool_decide as Heq; cbn; [injection Heq; lia|].
  destruct (y <? x) eqn:Hyx; cbn; [discriminate|].
  intros _. apply Z.ltb_ge in Hyx. exact Hyx.
Qed.






End CompareFacts.

Section OrderByFacts.
Context {Inst : Type}.
Implicit Types (q : QuerySet.QuerySet Inst) (l : list (entity Inst))
  (crit : entity Inst → list value) (orders : list Lodash.order)
  (d : list (Lodash.sortItem Inst)).

Lemma decorate_total (its : list (entity Inst → result value)) crit (i : nat) l :
  (∀ v, mapM (λ it, it v) its = Ok (crit v)) →
  Lodash.decorate its i l = Ok (decorated crit i l).
Proof.
  intros Hits. revert i. induction l as [|v l IH]; intros i; [reflexivity|].
  cbn [Lodash.decorate decorated]. rewrite Hits. cbn. rewrite IH. reflexivity.
Qed.

Lemma insert_Forall (P : Lodash.sortItem Inst → Prop) cmp x d :
  P x → Forall P d → Forall P (Lodash.insert cmp x d).
Proof.
  intros Hx. induction 1 as [|y d Hy Hd IH]; cbn.
  - by repeat constructor.
  - destruct (cmp x y <=? 0); repeat constructor; assumption.
Qed.

(** Inserting a decorated element in front of later positions goes by the
    criteria alone: the position only breaks ties, in favour of the element
    inserted. *)
Lemma insert_decorated crit orders x d :
  Lodash.criteria x = crit (Lodash.item x) →
  Forall (λ e, (Lodash.index x < Lodash.index e)%nat
               ∧ Lodash.criteria e = crit (Lodash.item e)) d →
  List.map Lodash.item (Lodash.insert (λ a b, Lodash.compareMultiple a b orders) x d)
  = insertBy (λ a b, Lodash.compareCriteria (crit a) (crit b) orders <=? 0)
             (Lodash.item x) (List.map Lodash.item d).
Proof.
  intros Hx. induction 1 as [|y d [Hlt Hy] Hd IH]; [reflexivity|].
  cbn [Lodash.insert List.map insertBy].
  assert ((Lodash.compareMultiple x y orders <=? 0)
          = (Lodash.compareCriteria (crit (Lodash.item x)) (crit (Lodash.item y))
               orders <=? 0)) as ->.
  { unfold Lodash.compareMultiple. rewrite Hx, Hy.
    destruct (Lodash.compareCriteria _ _ orders =? 0) eqn:Hr; [|reflexivity].
    apply Z.eqb_eq in Hr. rewrite Hr.
    apply Z.leb_le. lia. }
  destruct (Lodash.compareCriteria _ _ orders <=? 0); [reflexivity|].
  cbn [List.map]. by rewrite IH.
Qed.

Lemma baseSortBy_decorated_Forall crit cmp (i : nat) l :
  Forall (λ e, (i ≤ Lodash.index e)%nat
               ∧ Lodash.criteria e = crit (Lodash.item e))
         (Lodash.baseSortBy (decorated crit i l) cmp).
Proof.
  revert i. induction l as [|v l IH]; intros i; [constructor|].
  cbn [decorated]. unfold Lodash.baseSortBy. cbn [foldr].
  apply insert_Forall; [by split|].
  eapply Forall_impl; [apply (IH (S i))|].
  cbn. intros e [Hle He]. split; [lia|exact He].
Qed.

(** The sort of lodash is the stable insertion sort by the criteria. *)
Lemma baseSortBy_decorated crit orders (i : nat) l :
  List.map Lodash.item
    (Lodash.baseSortBy (decorated crit i l)
       (λ a b, Lodash.compareMultiple a b orders))
  = sortBy (λ a b, Lodash.compareCriteria (crit a) (crit b) orders <=? 0) l.
Proof.
  revert i. induction l as [|v l IH]; intros i; [reflexivity|].
  cbn [decorated]. unfold Lodash.baseSortBy. cbn [foldr].
  rewrite (insert_decorated crit); [| reflexivity |].
  - cbn [Lodash.item]. fold (Lodash.baseSortBy (decorated crit (S i) l)
                               (λ a b, Lodash.compareMultiple a b orders)).
    by rewrite IH.
  - eapply Forall_impl; [apply (baseSortBy_decorated_Forall crit _ (S i))|].
    cbn. intros e [Hle He]. split; [lia|exact He].
Qed.

Lemma compareCriteria_single (a b : value) :
  Lodash.compareCriteria [a] [b] [] = Lodash.compareAscending a b.
Proof.
  cbn. destruct (Lodash.compareAscending a b =? 0) eqn:Hr; [|reflexivity].
  apply Z.eqb_eq in Hr. by rewrite Hr.
Qed.

Lemma lodash_orderBy_field (k : string) l :
  Lodash.orderBy l [Lodash.LString k] None
  = Ok (sortBy (λ a b, Lodash.compareAscending (Lodash.property k a)
                                               (Lodash.property k b) <=? 0) l).
Proof.
  unfold Lodash.orderBy, Lodash.baseOrderBy. cbn [List.map default].
  rewrite (decorate_total _ (λ v, [Lodash.property k v])) by reflexivity.
  cbn. rewrite baseSortBy_decorated. f_equal.
  apply sortBy_ext. intros a b. by rewrite compareCriteria_single.
Qed.

Lemma mapM_map_Ok (rd : entity Inst → result value) (ev : value → entity Inst)
    (ids : list value) :
  Forall (λ id, rd (ev id) = Ok id) ids → mapM rd (List.map ev ids) = Ok ids.
Proof.
  induction 1 as [|id ids Hid _ IH]; [reflexivity|].
  cbn [List.map mapM]. rewrite Hid. cbn. rewrite IH. reflexivity.
Qed.

(** [orderBy([k])] on a well-formed receiver sorts its ids by the field. *)
Lemma orderBy_field_ids q (k : string) :
  keyed q = true →
  QuerySet.orderBy [QuerySet.IString k] None q
  = Ok (QuerySet._new q (sortBy (keyLe q k) (QuerySet.idArr q)) optsOff).
Proof.
  intros Hk. unfold QuerySet.orderBy.
  assert ((if negb (QuerySet._withRefs q)
           then List.map (λ arg,
                  match arg with
                  | QuerySet.IFunc f =>
                      Lodash.LFunc (λ entity,
                        id ← get_prop entity (Model.idAttribute (QuerySet.modelClass q));
                        let instance := of_model (Model.withId (QuerySet.modelClass q) id) in
                        Ok (f instance))
                  | QuerySet.IString s => Lodash.LString s
                  end) [QuerySet.IString k]
           else List.map (λ arg,
                  match arg with
                  | QuerySet.IFunc f => Lodash.LFunc (λ entity, Ok (f entity))
                  | QuerySet.IString s => Lodash.LString s
                  end) [QuerySet.IString k])
          = [Lodash.LString k]) as -> by (by destruct (QuerySet._withRefs q)).
  rewrite lodash_orderBy_field, toRefArray_rawOf. cbn.
  rewrite sortBy_map.
  rewrite mapM_map_Ok; [reflexivity|].
  apply Forall_forall. intros id Hid.
  pose proof (keyed_reads_back q Hk) as Hall. rewrite Forall_forall in Hall.
  apply Hall. apply list_elem_of_In. apply list_elem_of_In in Hid.
  exact (Permutation_in _ (sortBy_perm _ _) Hid).
Qed.







End OrderByFacts.



(** * Further properties of QuerySet *)

(** ** Materialization and positional access *)

Section Materialization.
Context {Inst : Type}.
Implicit Types (q : QuerySet.QuerySet Inst).

Lemma at_viewOf q (i : nat) :
  QuerySet.at_ q i = viewOf q (default VUndefined (QuerySet.idArr q !! i)).
Proof. unfold QuerySet.at_, viewOf. by destruct (QuerySet._withRefs q). Qed.

Lemma toModelArray_viewArray q : QuerySet.toModelArray q = viewArray q.
Proof. rewrite toModelArray_view. reflexivity. Qed.

Lemma map_viewArray {B : Type} (func : entity Inst → B) q :
  QuerySet.map func q = List.map func (viewArray q).
Proof.
  unfold QuerySet.map, viewArray. rewrite List.map_map.
  rewrite (imap_ext _ (const (λ id, func (viewOf q id)))).
  - apply imap_const.
  - intros i x Hi. unfold const. by rewrite at_viewOf, Hi.
Qed.

Lemma at_lookup q (i : nat) :
  QuerySet.at_ q i = default (viewOf q VUndefined) (viewArray q !! i).
Proof.
  rewrite at_viewOf. unfold viewArray.
  change (List.map (viewOf q) (QuerySet.idArr q)) with (viewOf q <$> QuerySet.idArr q).
  rewrite list_lookup_fmap. by destruct (QuerySet.idArr q !! i).
Qed.

End Materialization.

(** X1.  [toModelArray], [map] and [forEach] all go over the elements of the
    QuerySet under its view mode: the raw records when the [withRefs] flag is
    on (where [toModelArray] returns what [toRefArray] returns) and the
    wrapped entities when it is off; the arrays have [count()] elements. *)
Theorem materialization_follows_view_mode {Inst : Type} (q : QuerySet.QuerySet Inst) :
  QuerySet.toModelArray q
  = (if QuerySet._withRefs q then QuerySet.toRefArray q
     else List.map (wrappedOf q) (QuerySet.idArr q))
  ∧ (∀ (B : Type) (func : entity Inst → B),
       QuerySet.map func q = List.map func (QuerySet.toModelArray q))
  ∧ (∀ func log,
       QuerySet.forEach func q log
       = QuerySet.arrayForEach func (QuerySet.toModelArray q) log)
  ∧ List.length (QuerySet.toRefArray q) = QuerySet.count q
  ∧ List.length (QuerySet.toModelArray q) = QuerySet.count q
  ∧ (∀ (B : Type) (func : entity Inst → B),
       List.length (QuerySet.map func q) = QuerySet.count q).
Proof.
  assert (QuerySet.toModelArray q
          = (if QuerySet._withRefs q then QuerySet.toRefArray q
             else List.map (wrappedOf q) (QuerySet.idArr q))) as Hview.
  { rewrite toModelArray_view, toRefArray_rawOf.
    by destruct (QuerySet._withRefs q). }
  split; [exact Hview|].
  split; [by intros B func; rewrite map_viewArray, toModelArray_viewArray|].
  split.
  { intros func log. unfold QuerySet.forEach. rewrite Hview.
    by destruct (QuerySet._withRefs q). }
  split; [by rewrite toRefArray_rawOf, length_map|].
  split; [by rewrite toModelArray_viewArray; unfold viewArray; rewrite length_map|].
  intros B func. rewrite map_viewArray. unfold viewArray.
  by rewrite !length_map.
Qed.

Lemma materialization_follows_view_mode_witness :
  QuerySet.toModelArray booksRefs = QuerySet.toRefArray booksRefs
  ∧ QuerySet.map (λ e, match e with EUndefined => true | _ => false end) staleBooks
    = [false; true; false]
  ∧ List.length (QuerySet.toModelArray staleBooks) = 3%nat.
Proof.
  destruct (materialization_follows_view_mode booksRefs) as (Harr & _).
  destruct (materialization_follows_view_mode staleBooks)
    as (_ & Hmap & _ & _ & Hlen & _).
  split; [exact Harr|]. split; [|exact Hlen].
  rewrite Hmap. vm_compute. reflexivity.
Defined.

(** X2.  [at(index)] is the element at that position of the QuerySet under
    its view mode, and what the lookup of the id [undefined] gives when the
    index is negative or past the end; [first()] and [last()] are the first
    and the last element, and the lookup of [undefined] on an empty
    QuerySet; [exists()] holds exactly when there is an id. *)
Theorem positional_access {Inst : Type} (q : QuerySet.QuerySet Inst) :
  (∀ i : nat,
     QuerySet.at_ q i = default (viewOf q VUndefined) (QuerySet.toModelArray q !! i))
  ∧ (∀ index : Z,
       QuerySet.at_index q index
       = if bool_decide (0 <= index < Z.of_nat (QuerySet.count q))
         then QuerySet.at_ q (Z.to_nat index)
         else viewOf q VUndefined)
  ∧ QuerySet.first q
    = default (viewOf q VUndefined) (head (QuerySet.toModelArray q))
  ∧ QuerySet.last q
    = default (viewOf q VUndefined) (list.last (QuerySet.toModelArray q))
  ∧ (QuerySet.exists_ q = true ↔ QuerySet.idArr q ≠ []).
Proof.
  assert (∀ i : nat, (QuerySet.count q ≤ i)%nat →
                     QuerySet.at_ q i = viewOf q VUndefined) as Hout.
  { intros i Hi. rewrite at_viewOf.
    by rewrite (proj2 (lookup_ge_None (QuerySet.idArr q) i) Hi). }
  split; [by intros i; rewrite toModelArray_viewArray, at_lookup|].
  split.
  { intros index. unfold QuerySet.at_index.
    destruct (index <? 0) eqn:Hneg.
    - apply Z.ltb_lt in Hneg. rewrite bool_decide_eq_false_2 by lia.
      by apply Hout.
    - apply Z.ltb_ge in Hneg. case_bool_decide as Hin; [reflexivity|].
      apply Hout. unfold QuerySet.count in *. lia. }
  split.
  { unfold QuerySet.first. rewrite toModelArray_viewArray, at_lookup.
    by rewrite head_lookup. }
  split.
  { unfold QuerySet.last, QuerySet.at_index.
    rewrite toModelArray_viewArray, last_lookup.
    destruct (QuerySet.idArr q) as [|id ids] eqn:Hids.
    - cbn. rewrite at_viewOf, Hids. cbn. unfold viewArray. by rewrite Hids.
    - assert ((Z.of_nat (List.length (id :: ids)) - 1 <? 0) = false) as ->
        by (apply Z.ltb_ge; cbn [List.length]; lia).
      rewrite at_lookup. unfold viewArray. rewrite Hids, length_map.
      cbn [List.length]. do 2 f_equal. lia. }
  unfold QuerySet.exists_, QuerySet.count.
  destruct (QuerySet.idArr q); cbn; split; try done.
Qed.

(** ** The view-mode flag and the options *)

Section Consistency.
Context {Inst : Type}.
Implicit Types (q : QuerySet.QuerySet Inst).

Lemma constructor_consistent (mc : Model.ModelClass Inst) ids o :
  consistent (QuerySet.constructor mc ids o) = true.
Proof. by apply bool_decide_eq_true. Qed.

Lemma new_consistent q ids o : consistent (QuerySet._new q ids o) = true.
Proof. apply constructor_consistent. Qed.

Lemma assign_none (o : option QuerySet.Opts) :
  flagOf (Some (QuerySet.assign o None)) = flagOf o.
Proof. destruct o as [[[b|]]|]; reflexivity. Qed.

End Consistency.

(** X3.  The constructor and [_new], and so [all], the view-mode getters,
    [filter], [exclude] and [orderBy], build QuerySets whose [withRefs] flag
    is the one their options ask for.  On such a QuerySet [all()] returns a
    QuerySet with the same ids, model class and view mode, and the options
    handed on by [_new] keep asking for that view mode. *)
Theorem all_keeps_view_mode {Inst : Type} (q : QuerySet.QuerySet Inst) :
  (∀ mc ids o, consistent (QuerySet.constructor (Inst:=Inst) mc ids o) = true)
  ∧ (∀ ids o, consistent (QuerySet._new q ids o) = true)
  ∧ (∀ p excl q', QuerySet._filterOrExclude p excl q = Ok q' → consistent q' = true)
  ∧ (∀ its ords q', QuerySet.orderBy its ords q = Ok q' → consistent q' = true)
  ∧ (consistent q = true →
     QuerySet._withRefs (QuerySet.all q) = QuerySet._withRefs q
     ∧ QuerySet.idArr (QuerySet.all q) = QuerySet.idArr q
     ∧ QuerySet.modelClass (QuerySet.all q) = QuerySet.modelClass q
     ∧ QuerySet.all (QuerySet.all q) = QuerySet.all q
     ∧ consistent (QuerySet.resolve q (QuerySet.withRefs q)) = true
     ∧ consistent (QuerySet.resolve q (QuerySet.withModels q)) = true).
Proof.
  split; [intros; apply constructor_consistent|].
  split; [intros; apply new_consistent|].
  split.
  { intros p excl q' H. apply filterOrExclude_inv in H as [ids ->].
    apply new_consistent. }
  split.
  { intros its ords q' H. apply orderBy_inv in H as [ids ->].
    apply new_consistent. }
  intros Hc. apply bool_decide_eq_true in Hc.
  assert (QuerySet._withRefs (QuerySet.all q) = QuerySet._withRefs q) as Hflag.
  { rewrite Hc. unfold QuerySet.all, QuerySet._new. cbn. apply assign_none. }
  split; [exact Hflag|]. split; [reflexivity|]. split; [reflexivity|].
  split.
  - unfold QuerySet.all, QuerySet._new, QuerySet.constructor. cbn.
    by destruct (QuerySet._opts q) as [[[b|]]|].
  - unfold QuerySet.withRefs, QuerySet.withModels.
    destruct (QuerySet._withRefs q) eqn:E; cbn [negb QuerySet.resolve];
      (split; [|]); try apply new_consistent;
      apply bool_decide_eq_true; by rewrite E.
Qed.

Lemma all_keeps_view_mode_witness :
  consistent booksRefs = true
  ∧ QuerySet._withRefs (QuerySet.all booksRefs) = true
  ∧ QuerySet.idArr (QuerySet.all booksRefs) = [VNum 1; VNum 2; VNum 3].
Proof.
  destruct (all_keeps_view_mode booksRefs) as (_ & _ & _ & _ & Hall).
  destruct (Hall eq_refl) as (Hflag & Hids & _).
  split; [reflexivity|]. split; [by rewrite Hflag|by rewrite Hids].
Defined.

(** ** Sizes of the results *)

Section Sizes.
Context {Inst : Type}.
Implicit Types (q : QuerySet.QuerySet Inst) (l : list (entity Inst)).

Lemma filter_length_bound {A : Type} (P : A → bool) (k : list A) :
  (List.length (List.filter P k) ≤ List.length k)%nat.
Proof. induction k as [|x k IH]; cbn; [lia|]. destruct (P x); cbn; lia. Qed.

Lemma decorate_items its (i : nat) l items :
  Lodash.decorate its i l = Ok items → List.map Lodash.item items = l.
Proof.
  revert i items. induction l as [|v l IH]; intros i items; cbn [Lodash.decorate].
  - by intros [= <-].
  - destruct (mapM _ its) as [c|]; cbn; [|discriminate].
    destruct (Lodash.decorate its (S i) l) as [rest|] eqn:Hrest; cbn; [|discriminate].
    intros [= <-]. cbn. f_equal. by apply (IH (S i)).
Qed.

Lemma lodash_insert_perm cmp (x : Lodash.sortItem Inst) d :
  Permutation (Lodash.insert cmp x d) (x :: d).
Proof.
  induction d as [|y d IH]; cbn; [reflexivity|].
  destruct (cmp x y <=? 0); [reflexivity|].
  rewrite IH. apply perm_swap.
Qed.

Lemma baseSortBy_perm (d : list (Lodash.sortItem Inst)) cmp :
  Permutation (Lodash.baseSortBy d cmp) d.
Proof.
  induction d as [|x d IH]; [reflexivity|].
  unfold Lodash.baseSortBy. cbn [foldr].
  rewrite lodash_insert_perm. by constructor.
Qed.

(** What [_.orderBy] returns is a rearrangement of the collection. *)
Lemma lodash_orderBy_perm l args ords sorted :
  Lodash.orderBy l args ords = Ok sorted → Permutation sorted l.
Proof.
  unfold Lodash.orderBy, Lodash.baseOrderBy.
  destruct (Lodash.decorate _ 0 l) as [items|] eqn:Hitems; cbn; [|discriminate].
  intros [= <-]. rewrite baseSortBy_perm. by rewrite (decorate_items _ _ _ _ Hitems).
Qed.

End Sizes.

(** X4.  Whenever they return, [filter] and [exclude] return no more ids than
    the receiver has, and [orderBy] returns as many. *)
Theorem results_do_not_grow {Inst : Type} (q : QuerySet.QuerySet Inst) :
  (∀ p excl q', QuerySet._filterOrExclude p excl q = Ok q' →
                (QuerySet.count q' ≤ QuerySet.count q)%nat)
  ∧ (∀ its ords q', QuerySet.orderBy its ords q = Ok q' →
                    QuerySet.count q' = QuerySet.count q).
Proof.
  split.
  - intros p excl q'. rewrite filterOrExclude_shape.
    destruct (mapM _ _) as [ids|] eqn:Hids; cbn; [|discriminate].
    intros [= <-]. unfold QuerySet.count. rewrite new_idArr.
    rewrite (mapM_Ok_length _ _ _ Hids).
    etransitivity; [apply filter_length_bound|]. by rewrite length_map.
  - intros its ords q'. unfold QuerySet.orderBy.
    destruct (Lodash.orderBy _ _ ords) as [sorted|] eqn:Hsorted; cbn; [|discriminate].
    destruct (mapM _ sorted) as [ids|] eqn:Hids; cbn; [|discriminate].
    intros [= <-]. unfold QuerySet.count. rewrite new_idArr.
    rewrite (mapM_Ok_length _ _ _ Hids).
    rewrite (Permutation_length (lodash_orderBy_perm _ _ _ _ Hsorted)).
    by rewrite toRefArray_rawOf, length_map.
Qed.

Lemma results_do_not_grow_witness :
  (1 ≤ QuerySet.count books)%nat ∧ (3 = QuerySet.count books)%nat.
Proof.
  destruct (results_do_not_grow books) as [Hf Ho]. split.
  - apply (Hf fiveStars false (QuerySet._new books [VNum 2] optsOff)).
    refine (eq_trans (filterOrExclude_ids fiveStars false books _) _);
      [vm_compute; reflexivity|]. do 2 f_equal.
  - apply (Ho [QuerySet.IString "rating"] None
              (QuerySet._new books [VNum 1; VNum 3; VNum 2] optsOff)).
    refine (eq_trans (orderBy_field_ids books "rating" _) _);
      [vm_compute; reflexivity|]. do 2 f_equal.
Defined.

(** ** Ids that name no record *)

Section Stale.
Context {Inst : Type}.
Implicit Types (q : QuerySet.QuerySet Inst) (l : list (entity Inst)).

Lemma mapM_Exists_TypeError {A B : Type} (f : A → result B) (k : list A) :
  Exists (λ x, f x = TypeError) k → mapM f k = TypeError.
Proof.
  induction 1 as [x k Hx|x k _ IH]; cbn [mapM].
  - by rewrite Hx.
  - destruct (f x); cbn; [|reflexivity]. by rewrite IH.
Qed.

Lemma mapM_get_prop_undefined (key : string) l :
  EUndefined ∈ l → mapM (λ e, get_prop e key) l = TypeError.
Proof.
  intros Hin. apply mapM_Exists_TypeError, Exists_exists.
  exists EUndefined. by split.
Qed.

Lemma stale_undefined q :
  present q = false → EUndefined ∈ List.map (rawOf q) (QuerySet.idArr q).
Proof.
  unfold present. intros Hp.
  assert (¬ Forall (λ id, is_Some (Model.accessId (QuerySet.modelClass q) id))
            (QuerySet.idArr q)) as Hn.
  { intros Hall. rewrite Forall_forall in Hall.
    assert (forallb (λ id, bool_decide
              (is_Some (Model.accessId (QuerySet.modelClass q) id)))
              (QuerySet.idArr q) = true) as E; [|congruence].
    apply forallb_forall. intros id Hid. apply bool_decide_eq_true.
    apply Hall. by apply list_elem_of_In. }
  apply not_Forall_Exists in Hn; [|intros id; apply _].
  apply Exists_exists in Hn as (id & Hid & Hnone).
  apply list_elem_of_In, in_map_iff. exists id. split; [|by apply list_elem_of_In].
  unfold rawOf.
  destruct (Model.accessId (QuerySet.modelClass q) id) as [r|] eqn:E;
    [|reflexivity].
  destruct Hnone. by exists r.
Qed.

Lemma filter_elem_of {A : Type} (P : A → bool) (x : A) (k : list A) :
  x ∈ k → P x = true → x ∈ List.filter P k.
Proof.
  intros Hin HP. apply list_elem_of_In, filter_In. split; [|exact HP].
  by apply list_elem_of_In.
Qed.

End Stale.

(** X5.  Field-match predicates on a QuerySet that holds an id naming no
    record.  [filter] with a mapping that has a field drops such an id
    silently and returns; [exclude] with it, and [filter] with the empty
    mapping, keep the missing record and raise a [TypeError] when they read
    its id; [exclude] with the empty mapping returns the empty QuerySet,
    whatever the ids. *)
Theorem field_match_on_stale_ids {Inst : Type} (q : QuerySet.QuerySet Inst)
    (o : gmap string (QuerySet.lookup_value Inst)) :
  (o ≠ ∅ → ∃ q', QuerySet.filter (QuerySet.PObject o) q = Ok q')
  ∧ (o ≠ ∅ → present q = false →
     QuerySet.exclude (QuerySet.PObject o) q = TypeError)
  ∧ (present q = false → QuerySet.filter (QuerySet.PObject ∅) q = TypeError)
  ∧ QuerySet.exclude (QuerySet.PObject ∅) q = Ok (QuerySet._new q [] optsOff).
Proof.
  assert (∀ o' : gmap string (QuerySet.lookup_value Inst), o' ≠ ∅ →
            Lodash.matches (QuerySet.normalizeEntity (QuerySet.modelClass q) <$> o')
                           (EUndefined : entity Inst) = false) as Hundef.
  { intros o' Ho. cbn. apply bool_decide_eq_false. by rewrite fmap_empty_iff. }
  split; [|split; [|split]].
  - intros Ho. unfold QuerySet.filter. rewrite filterOrExclude_shape_raw by done.
    destruct (mapM_get_prop_raw (Model.idAttribute (QuerySet.modelClass q))
                (λ e, xorb false (verdict (QuerySet.PObject o) q e))
                (List.map (rawOf q) (QuerySet.idArr q))) as [ids Hids].
    + apply Forall_forall. intros e _. cbn [xorb verdict].
      destruct e as [|r|m]; [by rewrite Hundef|by exists r|].
      cbn. intros H. apply bool_decide_eq_true in H.
      by rewrite fmap_empty_iff in H.
    + rewrite Hids. by eexists.
  - intros Ho Hp. unfold QuerySet.exclude.
    rewrite filterOrExclude_shape_raw by done.
    rewrite mapM_get_prop_undefined; [reflexivity|].
    apply filter_elem_of; [by apply stale_undefined|].
    cbn [xorb verdict]. by rewrite Hundef.
  - intros Hp. unfold QuerySet.filter.
    rewrite filterOrExclude_shape_raw by done.
    rewrite mapM_get_prop_undefined; [reflexivity|].
    apply filter_elem_of; [by apply stale_undefined|].
    cbn. rewrite fmap_empty. by apply bool_decide_eq_true.
  - unfold QuerySet.exclude. rewrite filterOrExclude_shape_raw by done.
    assert (List.filter (λ e, xorb true (verdict (QuerySet.PObject ∅) q e))
                        (List.map (rawOf q) (QuerySet.idArr q)) = []) as ->;
      [|reflexivity].
    induction (List.map (rawOf q) (QuerySet.idArr q)) as [|e l IH]; [reflexivity|].
    cbn [List.filter]. rewrite IH.
    assert (verdict (QuerySet.PObject ∅) q e = true) as ->; [|reflexivity].
    cbn. rewrite fmap_empty. destruct e as [|r|m]; apply bool_decide_eq_true;
      try reflexivity. apply map_Forall_empty.
Qed.

Lemma field_match_on_stale_ids_witness :
  present staleBooks = false
  ∧ QuerySet.idArr <$> QuerySet.filter fiveStars staleBooks = Ok []
  ∧ QuerySet.exclude fiveStars staleBooks = TypeError
  ∧ QuerySet.filter (QuerySet.PObject ∅) staleBooks = TypeError.
Proof.
  destruct (field_match_on_stale_ids staleBooks {[ "rating" := QuerySet.LVal (VNum 5) ]})
    as (Hf & He & Hempty & _).
  assert (({[ "rating" := QuerySet.LVal (VNum 5) ]}
           : gmap string (QuerySet.lookup_value record)) ≠ ∅) as Hne
    by apply insert_non_empty.
  split; [vm_compute; reflexivity|]. split; [|split].
  - destruct (Hf Hne) as [q' Hq']. unfold fiveStars. rewrite Hq'.
    assert (QuerySet.idArr <$> QuerySet.filter fiveStars staleBooks = Ok []) as E
      by (vm_compute; reflexivity).
    unfold fiveStars in E. by rewrite Hq' in E.
  - apply (He Hne). vm_compute; reflexivity.
  - apply Hempty. vm_compute; reflexivity.
Defined.

(** ** Chains of field-match filters *)

Section FilterChains.
Context {Inst : Type}.
Implicit Types (q : QuerySet.QuerySet Inst).

Lemma filter_filter_and {A : Type} (P Q : A → bool) (l : list A) :
  List.filter P (List.filter Q l) = List.filter (λ x, Q x && P x) l.
Proof.
  induction l as [|x l IH]; [reflexivity|].
  cbn. destruct (Q x); cbn; [destruct (P x)|]; by rewrite ?IH.
Qed.

Lemma filter_pointwise {A : Type} (P Q : A → bool) (l : list A) :
  (∀ x, P x = Q x) → List.filter P l = List.filter Q l.
Proof.
  intros H. induction l as [|x l IH]; [reflexivity|].
  cbn. by rewrite H, IH.
Qed.

Lemma filter_none {A : Type} (P : A → bool) (l : list A) :
  (∀ x, P x = false) → List.filter P l = [].
Proof.
  intros H. induction l as [|x l IH]; [reflexivity|]. cbn. by rewrite H.
Qed.

Lemma keyed_included q (ids : list value) o :
  (∀ id, id ∈ ids → id ∈ QuerySet.idArr q) →
  keyed q = true → keyed (QuerySet._new q ids o) = true.
Proof.
  unfold keyed. rewrite !forallb_forall. intros Hin H id Hid.
  apply H. cbn in Hid. apply list_elem_of_In, Hin. by apply list_elem_of_In.
Qed.

Lemma keyed_filtered q (P : value → bool) o :
  keyed q = true →
  keyed (QuerySet._new q (List.filter P (QuerySet.idArr q)) o) = true.
Proof.
  apply keyed_included. intros id Hid.
  apply list_elem_of_In, filter_In in Hid. apply list_elem_of_In. tauto.
Qed.

(** A field-match filter of a well-formed QuerySet, with the survivors
    spelled out. *)
Lemma field_match_ids o (excl : bool) q :
  keyed q = true →
  QuerySet._filterOrExclude (QuerySet.PObject o) excl q
  = Ok (QuerySet._new q
          (List.filter (λ id, xorb excl (verdict (QuerySet.PObject o) q (rawOf q id)))
                       (QuerySet.idArr q)) optsOff).
Proof. intros Hk. exact (filterOrExclude_ids (QuerySet.PObject o) excl q Hk). Qed.

(** The same on a QuerySet that a filter has returned: the options and the
    model class are those of the first receiver. *)
Lemma field_match_ids_again o (excl : bool) q (ids : list value) :
  keyed (QuerySet._new q ids optsOff) = true →
  QuerySet._filterOrExclude (QuerySet.PObject o) excl (QuerySet._new q ids optsOff)
  = Ok (QuerySet._new q
          (List.filter (λ id, xorb excl (verdict (QuerySet.PObject o) q (rawOf q id)))
                       ids) optsOff).
Proof. intros Hk. rewrite field_match_ids by exact Hk. reflexivity. Qed.

End FilterChains.

(** X6.  Field-match filters chain as conjunctions.  On a QuerySet whose ids
    name records carrying their id: [Q.filter(a).filter(b)] and
    [Q.filter(b).filter(a)] are the same QuerySet, holding in the order of
    [Q] the ids whose record matches both; [Q.filter(a).filter(a)] is
    [Q.filter(a)]; and [Q.filter(a).exclude(a)] is empty. *)
Theorem field_match_filters_chain {Inst : Type} (q : QuerySet.QuerySet Inst)
    (a b : gmap string (QuerySet.lookup_value Inst)) :
  keyed q = true →
  ∃ qa qb qab,
    QuerySet.filter (QuerySet.PObject a) q = Ok qa
    ∧ QuerySet.filter (QuerySet.PObject b) q = Ok qb
    ∧ QuerySet.filter (QuerySet.PObject b) qa = Ok qab
    ∧ QuerySet.filter (QuerySet.PObject a) qb = Ok qab
    ∧ QuerySet.idArr qab
      = List.filter (λ id, verdict (QuerySet.PObject a) q (rawOf q id)
                           && verdict (QuerySet.PObject b) q (rawOf q id))
                    (QuerySet.idArr q)
    ∧ QuerySet.filter (QuerySet.PObject a) qa = Ok qa
    ∧ QuerySet.exclude (QuerySet.PObject a) qa = Ok (QuerySet._new q [] optsOff).
Proof.
  intros Hk.
  set (A := λ id, verdict (QuerySet.PObject a) q (rawOf q id)).
  set (B := λ id, verdict (QuerySet.PObject b) q (rawOf q id)).
  set (qa := QuerySet._new q (List.filter A (QuerySet.idArr q)) optsOff).
  set (qb := QuerySet._new q (List.filter B (QuerySet.idArr q)) optsOff).
  exists qa, qb,
    (QuerySet._new q (List.filter (λ id, A id && B id) (QuerySet.idArr q)) optsOff).
  assert (keyed qa = true) as Hka by (by apply keyed_filtered).
  assert (keyed qb = true) as Hkb by (by apply keyed_filtered).
  unfold QuerySet.filter, QuerySet.exclude.
  split; [exact (field_match_ids a false q Hk)|].
  split; [exact (field_match_ids b false q Hk)|].
  split.
  { unfold qa in *. rewrite (field_match_ids_again b false q _ Hka). do 2 f_equal.
    exact (filter_filter_and B A (QuerySet.idArr q)). }
  split.
  { unfold qb in *. rewrite (field_match_ids_again a false q _ Hkb). do 2 f_equal.
    change (List.filter A (List.filter B (QuerySet.idArr q))
            = List.filter (λ id, A id && B id) (QuerySet.idArr q)).
    rewrite filter_filter_and. apply filter_pointwise. intros id. apply andb_comm. }
  split; [reflexivity|].
  split.
  { unfold qa in *. rewrite (field_match_ids_again a false q _ Hka). do 2 f_equal.
    change (List.filter A (List.filter A (QuerySet.idArr q))
            = List.filter A (QuerySet.idArr q)).
    rewrite filter_filter_and. apply filter_pointwise. intros id. apply andb_diag. }
  unfold qa in *. rewrite (field_match_ids_again a true q _ Hka). do 2 f_equal.
  change (List.filter (λ id, negb (A id)) (List.filter A (QuerySet.idArr q)) = []).
  rewrite filter_filter_and. apply filter_none. intros id. by destruct (A id).
Qed.

Lemma field_match_filters_chain_witness :
  keyed books = true
  ∧ ∃ qab,
      (QuerySet.filter fiveStars books
         ≫= QuerySet.filter (QuerySet.PObject {[ "id" := QuerySet.LVal (VNum 2) ]}))
      = Ok qab
      ∧ (QuerySet.filter (QuerySet.PObject {[ "id" := QuerySet.LVal (VNum 2) ]}) books
           ≫= QuerySet.filter fiveStars)
        = Ok qab
      ∧ QuerySet.idArr qab = [VNum 2].
Proof.
  split; [vm_compute; reflexivity|].
  destruct (field_match_filters_chain books
              {[ "rating" := QuerySet.LVal (VNum 5) ]}
              {[ "id" := QuerySet.LVal (VNum 2) ]})
    as (qa & qb & qab & Ha & Hb & Hab & Hba & Hids & _); [vm_compute; reflexivity|].
  exists qab. unfold fiveStars. rewrite Ha, Hb. cbn.
  split; [exact Hab|]. split; [exact Hba|].
  rewrite Hids. vm_compute. reflexivity.
Defined.

(** ** [orderBy] with any iteratees and directions *)

Section OrderByGeneral.
Context {Inst : Type}.
Implicit Types (q : QuerySet.QuerySet Inst) (l : list (entity Inst))
  (its : list (QuerySet.iteratee_arg Inst)) (ords : option (list Lodash.order)).

Lemma orderBy_unfold its ords q :
  QuerySet.orderBy its ords q
  = (sortedEntities ← Lodash.orderBy (QuerySet.toRefArray q) (iterateeArgsOf q its) ords;
     ids ← mapM (λ entity, get_prop entity (Model.idAttribute (QuerySet.modelClass q)))
                sortedEntities;
     Ok (QuerySet._new q ids optsOff)).
Proof.
  unfold QuerySet.orderBy, iterateeArgsOf.
  destruct (QuerySet._withRefs q); reflexivity.
Qed.

Lemma decorate_total_on (fs : list (entity Inst → result value))
    (crit : entity Inst → list value) (i : nat) l :
  Forall (λ v, mapM (λ it, it v) fs = Ok (crit v)) l →
  Lodash.decorate fs i l = Ok (decorated crit i l).
Proof.
  intros Hall. revert i. induction Hall as [|v l Hv _ IH]; intros i; [reflexivity|].
  cbn [Lodash.decorate decorated]. rewrite Hv. cbn. rewrite IH. reflexivity.
Qed.

Lemma mapM_cons_result {A B : Type} (f : A → result B) (x : A) (k : list A) :
  mapM f (x :: k) = (y ← f x; ys ← mapM f k; Ok (y :: ys)).
Proof. reflexivity. Qed.

Lemma mapM_apply_Ok {X : Type} (F : X → entity Inst → result value)
    (G : X → value) (e : entity Inst) (xs : list X) :
  (∀ x, F x e = Ok (G x)) →
  mapM (λ it, it e) (List.map F xs) = Ok (List.map G xs).
Proof.
  intros H. induction xs as [|x xs IH]; [reflexivity|].
  cbn [List.map]. rewrite mapM_cons_result, H, IH. reflexivity.
Qed.

(** The iteratees of [orderBy] return normally on a record. *)
Lemma iteratees_on_record its q (r : record) :
  mapM (λ it, it (ERef r : entity Inst))
       (match iterateeArgsOf q its with
        | [] => [Lodash.identity]
        | _ => List.map Lodash.iteratee (iterateeArgsOf q its)
        end)
  = Ok (entityCriteria q its (ERef r)).
Proof.
  destruct its as [|arg0 its0]; [reflexivity|].
  change (mapM (λ it, it (ERef r : entity Inst))
               (List.map Lodash.iteratee (iterateeArgsOf q (arg0 :: its0)))
          = Ok (List.map (λ arg, entityKey q arg (ERef r)) (arg0 :: its0))).
  unfold iterateeArgsOf. rewrite List.map_map.
  apply mapM_apply_Ok. intros arg. destruct arg as [k|f]; [reflexivity|].
  cbn [entityKey]. destruct (QuerySet._withRefs q); reflexivity.
Qed.

Lemma lodash_orderBy_on (args : list (Lodash.shorthand Inst))
    (crit : entity Inst → list value) ords l :
  Forall (λ v, mapM (λ it, it v)
                 (match args with
                  | [] => [Lodash.identity]
                  | _ => List.map Lodash.iteratee args
                  end) = Ok (crit v)) l →
  Lodash.orderBy l args ords
  = Ok (sortBy (λ a b, Lodash.compareCriteria (crit a) (crit b) (default [] ords) <=? 0) l).
Proof.
  intros Hall. unfold Lodash.orderBy, Lodash.baseOrderBy.
  rewrite (decorate_total_on _ crit 0 l Hall). cbn.
  by rewrite baseSortBy_decorated.
Qed.

Lemma insertBy_ext_in {A : Type} (le le' : A → A → bool) (x : A) (k : list A) :
  (∀ b, b ∈ k → le x b = le' x b) → insertBy le x k = insertBy le' x k.
Proof.
  induction k as [|y k IH]; intros H; [reflexivity|].
  cbn. rewrite (H y) by (by left). destruct (le' x y); [reflexivity|].
  f_equal. apply IH. intros b Hb. apply H. by right.
Qed.

Lemma sortBy_ext_in {A : Type} (le le' : A → A → bool) (k : list A) :
  (∀ a b, a ∈ k → b ∈ k → le a b = le' a b) → sortBy le k = sortBy le' k.
Proof.
  induction k as [|x k IH]; intros H; [reflexivity|].
  rewrite !sortBy_cons, IH by (intros a b Ha Hb; apply H; by right).
  apply insertBy_ext_in. intros b Hb. apply H; [by left|right].
  apply list_elem_of_In. apply list_elem_of_In in Hb.
  exact (Permutation_in _ (sortBy_perm le' k) Hb).
Qed.

Lemma keyed_record q (id : value) :
  keyed q = true → id ∈ QuerySet.idArr q →
  ∃ r, rawOf q id = ERef r
       ∧ r !! Model.idAttribute (QuerySet.modelClass q) = Some id.
Proof.
  unfold keyed. rewrite forallb_forall. intros H Hid.
  specialize (H id (proj1 (list_elem_of_In _ _) Hid)).
  apply bool_decide_eq_true in H. unfold rawOf.
  destruct (Model.accessId (QuerySet.modelClass q) id) as [r|]; [|discriminate].
  exists r. by split.
Qed.

Lemma entityCriteria_keyed its q (id : value) :
  keyed q = true → id ∈ QuerySet.idArr q →
  entityCriteria q its (rawOf q id) = criteriaOf q its id.
Proof.
  intros Hk Hid. destruct (keyed_record q id Hk Hid) as (r & Hr & Hidr).
  unfold entityCriteria, criteriaOf. destruct its as [|arg0 its0].
  - by rewrite Hr.
  - apply map_ext. intros arg. destruct arg as [k|f]; [reflexivity|].
    cbn [entityKey keyOf]. unfold viewOf, wrappedOf.
    destruct (QuerySet._withRefs q); [reflexivity|].
    rewrite Hr. unfold Lodash.property. cbn. unfold record_get. by rewrite Hidr.
Qed.

(** [orderBy] on a well-formed receiver sorts its ids by their criteria. *)
Lemma orderBy_ids its ords q :
  keyed q = true →
  QuerySet.orderBy its ords q
  = Ok (QuerySet._new q (sortBy (orderLe q its ords) (QuerySet.idArr q)) optsOff).
Proof.
  intros Hk. rewrite orderBy_unfold, toRefArray_rawOf.
  rewrite (lodash_orderBy_on _ (entityCriteria q its)).
  - cbn. rewrite sortBy_map.
    rewrite (sortBy_ext_in _ (orderLe q its ords)).
    + rewrite mapM_map_Ok; [reflexivity|].
      apply Forall_forall. intros id Hid.
      pose proof (keyed_reads_back q Hk) as Hall. rewrite Forall_forall in Hall.
      apply Hall. apply list_elem_of_In. apply list_elem_of_In in Hid.
      exact (Permutation_in _ (sortBy_perm _ _) Hid).
    + intros a b Ha Hb. unfold orderLe.
      by rewrite !entityCriteria_keyed.
  - apply Forall_forall. intros e He.
    apply list_elem_of_In, in_map_iff in He as (id & <- & Hid).
    destruct (keyed_record q id Hk (proj2 (list_elem_of_In _ _) Hid)) as (r & -> & _).
    apply iteratees_on_record.
Qed.

End OrderByGeneral.

Section OrderTotal.
Context {Inst : Type}.
Implicit Types (q : QuerySet.QuerySet Inst)
  (its : list (QuerySet.iteratee_arg Inst)) (ords : option (list Lodash.order)).

Lemma compareCriteria_antisym (c d : list value) (orders : list Lodash.order) :
  List.length c = List.length d →
  Lodash.compareCriteria d c orders = - Lodash.compareCriteria c d orders.
Proof.
  revert d orders. induction c as [|x c IH]; intros [|y d] orders Hlen;
    try discriminate; [reflexivity|].
  cbn [Lodash.compareCriteria]. rewrite (compareAscending_antisym x y).
  destruct (Lodash.compareAscending x y =? 0) eqn:Hr.
  - apply Z.eqb_eq in Hr. rewrite Hr. cbn. apply IH. by injection Hlen.
  - apply Z.eqb_neq in Hr.
    assert ((- Lodash.compareAscending x y =? 0) = false) as ->
      by (apply Z.eqb_neq; lia).
    destruct orders as [|[|] orders]; lia.
Qed.


Lemma criteriaOf_length its q (a b : value) :
  List.length (criteriaOf q its a) = List.length (criteriaOf q its b).
Proof. destruct its; cbn; [reflexivity|]. by rewrite !length_map. Qed.

Lemma orderLe_total its ords q (a b : value) :
  orderLe q its ords a b = false → orderLe q its ords b a = true.
Proof.
  unfold orderLe. rewrite (compareCriteria_antisym (criteriaOf q its a))
    by apply criteriaOf_length.
  intros H. apply Z.leb_gt in H. apply Z.leb_le. lia.
Qed.



End OrderTotal.



(** X8.  [orderBy] raises a [TypeError] on every QuerySet that holds an id
    naming no record, whatever the iteratees and directions. *)
Theorem orderBy_fails_on_stale_ids {Inst : Type} (q : QuerySet.QuerySet Inst)
    (its : list (QuerySet.iteratee_arg Inst)) (ords : option (list Lodash.order)) :
  present q = false → QuerySet.orderBy its ords q = TypeError.
Proof.
  intros Hp. rewrite orderBy_unfold.
  destruct (Lodash.orderBy _ _ ords) as [sorted|] eqn:Hsorted; [|reflexivity].
  cbn. rewrite mapM_get_prop_undefined; [reflexivity|].
  apply lodash_orderBy_perm in Hsorted. rewrite Hsorted, toRefArray_rawOf.
  by apply stale_undefined.
Qed.

Lemma orderBy_fails_on_stale_ids_witness :
  present staleBooks = false
  ∧ QuerySet.orderBy [QuerySet.IString "rating"] None staleBooks = TypeError.
Proof.
  split; [vm_compute; reflexivity|].
  apply orderBy_fails_on_stale_ids. vm_compute; reflexivity.
Defined.



Section Directions.
Context {Inst : Type}.
Implicit Types (q : QuerySet.QuerySet Inst).

Lemma compareCriteria_single_dir (a b : value) (o : Lodash.order) :
  Lodash.compareCriteria [a] [b] [o]
  = Lodash.compareAscending a b * (match o with Lodash.desc => -1 | Lodash.asc => 1 end).
Proof.
  cbn. destruct (Lodash.compareAscending a b =? 0) eqn:Hr; [|reflexivity].
  apply Z.eqb_eq in Hr. by rewrite Hr.
Qed.

Lemma compareAscending_numbers_ge (x y : Z) :
  0 <= Lodash.compareAscending (VNum x) (VNum y) → y <= x.
Proof.
  intros H. apply compareAscending_numbers. apply Z.leb_le.
  rewrite (compareAscending_antisym (VNum x) (VNum y)). lia.
Qed.

Lemma numbers_in_direction q (k : string) (o : Lodash.order) (x y : Z) (a b : value) :
  sortKey q k a = VNum x → sortKey q k b = VNum y →
  orderLe q [QuerySet.IString k] (Some [o]) a b = true →
  match o with Lodash.asc => x <= y | Lodash.desc => y <= x end.
Proof.
  intros Ha Hb.
  change (orderLe q [QuerySet.IString k] (Some [o]) a b)
    with (Lodash.compareCriteria [sortKey q k a] [sortKey q k b] [o] <=? 0).
  rewrite compareCriteria_single_dir, Ha, Hb. intros H. apply Z.leb_le in H.
  destruct o.
  - apply compareAscending_numbers. apply Z.leb_le. lia.
  - apply compareAscending_numbers_ge. lia.
Qed.

Lemma sorted_numbers_in_direction q (k : string) (o : Lodash.order)
    (ids : list value) (zs : list Z) :
  Sorted (λ a b, orderLe q [QuerySet.IString k] (Some [o]) a b = true) ids →
  List.map (sortKey q k) ids = List.map VNum zs →
  StronglySorted (λ x y, match o with Lodash.asc => x <= y | Lodash.desc => y <= x end) zs.
Proof.
  intros Hs Hz. apply Sorted_StronglySorted.
  { intros x y z. destruct o; lia. }
  revert zs Hz. induction Hs as [|a ids Hs IH Hhd]; intros zs Hz.
  - destruct zs; [constructor|discriminate].
  - destruct zs as [|x zs]; [discriminate|]. injection Hz as Ha Hz.
    constructor; [by apply IH|].
    destruct Hhd as [|b ids Hab]; destruct zs as [|y zs]; try discriminate;
      constructor.
    injection Hz as Hb _. exact (numbers_in_direction q k o x y a b Ha Hb Hab).
Qed.


End Directions.

(** X10.  The direction given for a field is honoured: on a receiver whose
    ids name records carrying their id, [orderBy([k], ['asc'])] puts numeric
    keys in increasing order and [orderBy([k], ['desc'])] in decreasing
    order. *)
Theorem orderBy_honours_direction {Inst : Type} (q : QuerySet.QuerySet Inst)
    (k : string) (o : Lodash.order) :
  keyed q = true →
  ∃ q1,
    QuerySet.orderBy [QuerySet.IString k] (Some [o]) q = Ok q1
    ∧ ∀ zs, List.map (sortKey q k) (QuerySet.idArr q1) = List.map VNum zs →
            StronglySorted
              (λ x y, match o with Lodash.asc => x <= y | Lodash.desc => y <= x end) zs.
Proof.
  intros Hk. eexists.
  split; [exact (orderBy_ids [QuerySet.IString k] (Some [o]) q Hk)|].
  rewrite new_idArr. intros zs. apply sorted_numbers_in_direction.
  apply sortBy_sorted. intros a b. apply orderLe_total.
Qed.

Lemma orderBy_honours_direction_witness :
  keyed books = true
  ∧ QuerySet.idArr <$> QuerySet.orderBy [QuerySet.IString "rating"]
                         (Some [Lodash.desc]) books
    = Ok [VNum 2; VNum 3; VNum 1]
  ∧ StronglySorted (λ x y, y <= x) [5; 4; 3].
Proof.
  split; [vm_compute; reflexivity|].
  destruct (orderBy_honours_direction books "rating" Lodash.desc)
    as (q1 & H1 & Hz); [vm_compute; reflexivity|].
  assert (QuerySet.idArr <$> QuerySet.orderBy [QuerySet.IString "rating"]
                               (Some [Lodash.desc]) books
          = Ok [VNum 2; VNum 3; VNum 1]) as E by (vm_compute; reflexivity).
  split; [exact E|].
  rewrite H1 in E. injection E as Hids.
  apply Hz. rewrite Hids. vm_compute. reflexivity.
Defined.



(** ** [delete] and the entities it cannot find *)

Section DeleteReturns.
Context {Inst : Type}.
Implicit Types (q : QuerySet.QuerySet Inst) (log : Transaction).

Lemma forEach_onDelete_returns mc (arr : list (entity Inst)) log :
  snd (QuerySet.arrayForEach (QuerySet.call_onDelete mc) arr log) = Ok tt
  ↔ Forall (λ e, ∃ m, e = EModel m) arr.
Proof.
  revert log. induction arr as [|e arr IH]; intros log.
  - split; [constructor|reflexivity].
  - destruct e as [|r|m]; cbn [QuerySet.arrayForEach QuerySet.call_onDelete].
    + split; [discriminate|]. intros H. inversion H as [|? ? [m Hm] _]. discriminate.
    + split; [discriminate|]. intros H. inversion H as [|? ? [m Hm] _]. discriminate.
    + rewrite IH. split.
      * intros H. constructor; [by exists m|exact H].
      * intros H. by inversion H.
Qed.

Lemma forEach_onDelete_stops mc (ms : list Inst) (e : entity Inst)
    (rest : list (entity Inst)) log :
  (∀ m, e ≠ EModel m) →
  QuerySet.arrayForEach (QuerySet.call_onDelete mc) (List.map EModel ms ++ e :: rest) log
  = (foldl (λ l u, Transaction.addUpdate u l) log
       (concat (List.map (Model._onDelete mc) ms)), TypeError).
Proof.
  intros He. revert log. induction ms as [|m ms IH]; intros log.
  - cbn. destruct e as [|r|m]; [reflexivity..|by destruct (He m)].
  - cbn [List.map app QuerySet.arrayForEach QuerySet.call_onDelete concat].
    by rewrite IH, foldl_app.
Qed.

Lemma wrapped_found q (ids : list value) :
  Forall (λ id, is_Some (Model.withId (QuerySet.modelClass q) id)) ids →
  List.map (wrappedOf q) ids
  = List.map EModel (omap (Model.withId (QuerySet.modelClass q)) ids).
Proof.
  induction 1 as [|id ids [m Hm] _ IH]; [reflexivity|].
  cbn. unfold wrappedOf at 1. rewrite Hm. cbn. by rewrite IH.
Qed.

Lemma delete_unfold q log :
  QuerySet.delete q log
  = QuerySet.arrayForEach (QuerySet.call_onDelete (QuerySet.modelClass q))
      (List.map (wrappedOf q) (QuerySet.idArr q))
      (Model.addUpdate (QuerySet.modelClass q)
         {| type := DELETE; payload := IdsPayload (QuerySet.idArr q); meta := None |}
         log).
Proof.
  unfold QuerySet.delete, QuerySet.forEach.
  set (qm := QuerySet.resolve q (QuerySet.withModels q)).
  assert (QuerySet._withRefs qm = false ∧ QuerySet.idArr qm = QuerySet.idArr q
          ∧ QuerySet.modelClass qm = QuerySet.modelClass q) as (Hm & Hi & Hc).
  { unfold qm, QuerySet.withModels.
    destruct (QuerySet._withRefs q) eqn:E; cbn; by rewrite ?E. }
  rewrite Hm, toModelArray_view, Hm, Hi.
  f_equal. unfold wrappedOf. by rewrite Hc.
Qed.

End DeleteReturns.

(** X12.  [delete()] returns normally exactly when every id of the QuerySet
    names a wrapped entity.  Otherwise it raises a [TypeError] at the first
    id that names none: the log then holds the removal record and after it
    the records of the hooks of the entities before that id, and no hook of
    a later entity has run. *)
Theorem delete_returns_iff_entities_exist {Inst : Type}
    (q : QuerySet.QuerySet Inst) (log : Transaction) :
  let mc := QuerySet.modelClass q in
  let removal :=
    {| type := DELETE; payload := IdsPayload (QuerySet.idArr q);
       meta := Some {| name := Model.modelName mc |} |} in
  (snd (QuerySet.delete q log) = Ok tt
   ↔ Forall (λ id, is_Some (Model.withId mc id)) (QuerySet.idArr q))
  ∧ (∀ pre id post,
       QuerySet.idArr q = pre ++ id :: post →
       Forall (λ id, is_Some (Model.withId mc id)) pre →
       Model.withId mc id = None →
       snd (QuerySet.delete q log) = TypeError
       ∧ Transaction.updates (fst (QuerySet.delete q log))
         = Transaction.updates log
           ++ logged removal
              :: List.map logged
                   (concat (List.map (Model._onDelete mc) (omap (Model.withId mc) pre)))).
Proof.
  intros mc removal. rewrite delete_unfold. fold mc. split.
  - rewrite forEach_onDelete_returns, Forall_map.
    apply Forall_iff. intros id. unfold wrappedOf. fold mc.
    destruct (Model.withId mc id) as [m|]; cbn.
    + split; [by eexists|by exists m].
    + split; [intros [m Hm']; discriminate|intros [m Hm']; discriminate].
  - intros pre id post Hsplit Hpre Hid.
    assert (List.map (wrappedOf q) (QuerySet.idArr q)
            = List.map EModel (omap (Model.withId mc) pre)
              ++ wrappedOf q id :: List.map (wrappedOf q) post) as ->.
    { rewrite Hsplit, map_app. cbn [List.map]. by rewrite (wrapped_found q pre Hpre). }
    rewrite forEach_onDelete_stops.
    + split; [reflexivity|]. cbn [fst].
      rewrite addUpdate_all_updates. cbn. by rewrite <- app_assoc.
    + intros m. unfold wrappedOf. fold mc. by rewrite Hid.
Qed.

Lemma delete_returns_iff_entities_exist_witness :
  snd (QuerySet.delete books Transaction.new) = Ok tt
  ∧ snd (QuerySet.delete staleBooks Transaction.new) = TypeError
  ∧ Transaction.update
      <$> Transaction.updates (fst (QuerySet.delete staleBooks Transaction.new))
    = [removal [VNum 1; VNum 7; VNum 3]].
Proof.
  split.
  - apply (proj1 (delete_returns_iff_entities_exist books Transaction.new)).
    apply (bool_decide_unpack _). vm_compute. reflexivity.
  - destruct (proj2 (delete_returns_iff_entities_exist staleBooks Transaction.new)
                [VNum 1] (VNum 7) [VNum 3] eq_refl) as [Hfails Hlog].
    + apply (bool_decide_unpack _). vm_compute. reflexivity.
    + vm_compute. reflexivity.
    + split; [exact Hfails|]. rewrite Hlog. vm_compute. reflexivity.
Defined.

(** ** Recording through a QuerySet in either view mode *)

Section RecordingViews.
Context {Inst : Type}.
Implicit Types (q : QuerySet.QuerySet Inst) (log : Transaction).

Lemma delete_by_ids q q' log :
  QuerySet.modelClass q' = QuerySet.modelClass q →
  QuerySet.idArr q' = QuerySet.idArr q →
  QuerySet.delete q' log = QuerySet.delete q log.
Proof.
  intros Hc Hi. rewrite !delete_unfold, Hc, Hi. f_equal.
  unfold wrappedOf. by rewrite Hc.
Qed.

Lemma update_by_ids q q' (mergeObj : record) log :
  QuerySet.modelClass q' = QuerySet.modelClass q →
  QuerySet.idArr q' = QuerySet.idArr q →
  QuerySet.update mergeObj q' log = QuerySet.update mergeObj q log.
Proof. intros Hc Hi. unfold QuerySet.update. by rewrite Hc, Hi. Qed.

Lemma views_same_ids q :
  (QuerySet.modelClass (QuerySet.resolve q (QuerySet.withRefs q)) = QuerySet.modelClass q
   ∧ QuerySet.idArr (QuerySet.resolve q (QuerySet.withRefs q)) = QuerySet.idArr q)
  ∧ (QuerySet.modelClass (QuerySet.resolve q (QuerySet.withModels q))
     = QuerySet.modelClass q
     ∧ QuerySet.idArr (QuerySet.resolve q (QuerySet.withModels q)) = QuerySet.idArr q).
Proof.
  unfold QuerySet.withRefs, QuerySet.withModels.
  by destruct (QuerySet._withRefs q).
Qed.

End RecordingViews.

(** X13.  [update] and [delete] do not depend on the view mode of the
    receiver: on [Q.withRefs], [Q.withModels] and [Q.all()] they log, run
    and raise what they do on [Q].  [update(mergeObj)] appends one record,
    for the ids of the receiver in their order with the merge object, stamped
    with the name of the model, also when the QuerySet is empty, and runs no
    hook. *)
Theorem recording_ignores_view_mode {Inst : Type}
    (q : QuerySet.QuerySet Inst) (mergeObj : record) (log : Transaction) :
  let qr := QuerySet.resolve q (QuerySet.withRefs q) in
  let qm := QuerySet.resolve q (QuerySet.withModels q) in
  (QuerySet.update mergeObj qr log = QuerySet.update mergeObj q log
   ∧ QuerySet.update mergeObj qm log = QuerySet.update mergeObj q log
   ∧ QuerySet.update mergeObj (QuerySet.all q) log = QuerySet.update mergeObj q log)
  ∧ (QuerySet.delete qr log = QuerySet.delete q log
     ∧ QuerySet.delete qm log = QuerySet.delete q log
     ∧ QuerySet.delete (QuerySet.all q) log = QuerySet.delete q log)
  ∧ Transaction.updates (QuerySet.update mergeObj q log)
    = Transaction.updates log
      ++ [logged {| type := UPDATE;
                    payload := MergePayload (QuerySet.idArr q) mergeObj;
                    meta := Some {| name := Model.modelName (QuerySet.modelClass q) |} |}].
Proof.
  intros qr qm. destruct (views_same_ids q) as [[Hrc Hri] [Hmc Hmi]].
  split; [|split; [|reflexivity]].
  - split; [by apply update_by_ids|]. split; [by apply update_by_ids|].
    by apply update_by_ids.
  - split; [by apply delete_by_ids|]. split; [by apply delete_by_ids|].
    by apply delete_by_ids.
Qed.

(** * Further properties of Session *)

(** ** The constructor and the bound models *)

Section Bound.
Context {Inst : Type}.
Implicit Types (s : Session.Session Inst) (mc : Model.ModelClass Inst)
  (l : list (Model.ModelClass Inst)).

Lemma find_named l mc :
  NoDup (Model.modelName <$> l) → mc ∈ l →
  List.find (λ m, String.eqb (Model.modelName m) (Model.modelName mc)) l = Some mc.
Proof.
  induction l as [|m l IH]; intros Hnd Hin; [by apply elem_of_nil in Hin|].
  rewrite fmap_cons, NoDup_cons in Hnd. destruct Hnd as [Hm Hnd].
  cbn [List.find]. apply elem_of_cons in Hin as [->|Hin].
  - by rewrite String.eqb_refl.
  - destruct (String.eqb (Model.modelName m) (Model.modelName mc)) eqn:E.
    + apply String.eqb_eq in E. destruct Hm. rewrite E.
      apply list_elem_of_fmap. by exists mc.
    + by apply IH.
Qed.

Lemma find_unnamed l (n : string) :
  List.find (λ m, String.eqb (Model.modelName m) n) l = None
  ↔ n ∉ Model.modelName <$> l.
Proof.
  induction l as [|m l IH]; cbn [List.find].
  - split; [intros _; apply not_elem_of_nil|reflexivity].
  - rewrite fmap_cons, not_elem_of_cons.
    destruct (String.eqb (Model.modelName m) n) eqn:E.
    + apply String.eqb_eq in E. split; [discriminate|]. intros [Hne _]. by destruct Hne.
    + apply String.eqb_neq in E. rewrite IH. split; [by split|tauto].
Qed.

Lemma getDataForModel_fst s (n : string) :
  fst (Session.getDataForModel n s) = accessed s n.
Proof.
  unfold Session.getDataForModel, accessed.
  destruct (Session.modelData s !! n) as [[|]|]; cbn; symmetry;
    (by apply bool_decide_eq_true) || (by apply bool_decide_eq_false).
Qed.

Lemma getDataForModel_snd s (n : string) :
  (∀ n', accessed (snd (Session.getDataForModel n s)) n' = accessed s n')
  ∧ Session.sessionBoundModels (snd (Session.getDataForModel n s))
    = Session.sessionBoundModels s.
Proof.
  unfold Session.getDataForModel, accessed.
  destruct (Session.modelData s !! n) as [d|] eqn:Hn; cbn; [by split|].
  split; [|reflexivity]. intros n'.
  destruct (decide (n = n')) as [<-|Hne].
  - rewrite lookup_insert_eq, Hn.
    rewrite !bool_decide_eq_false_2; [reflexivity|discriminate|discriminate].
  - by rewrite lookup_insert_ne.
Qed.

(** Reading [accessedModels] over the models [l], from the names already
    gathered and a session that agrees with [s] on what was accessed. *)
Lemma accessedModels_fold s l (names : list string) s0 :
  (∀ n, accessed s0 n = accessed s n) →
  let r := foldl (λ '(names, s1) model,
                    let '(a, s') := Session.getDataForModel (Model.modelName model) s1 in
                    (if a then names ++ [Model.modelName model] else names, s'))
                 (names, s0) l in
  fst r = names ++ List.filter (accessed s) (Model.modelName <$> l)
  ∧ (∀ n, accessed (snd r) n = accessed s n)
  ∧ Session.sessionBoundModels (snd r) = Session.sessionBoundModels s0.
Proof.
  revert names s0. induction l as [|m l IH]; intros names s0 Hacc; cbn [foldl].
  - cbn. rewrite app_nil_r. by repeat split.
  - pose proof (getDataForModel_fst s0 (Model.modelName m)) as Hfst.
    destruct (getDataForModel_snd s0 (Model.modelName m)) as [Hsnd Hmodels].
    destruct (Session.getDataForModel (Model.modelName m) s0) as [a s'] eqn:Hd.
    cbn in Hfst, Hsnd, Hmodels.
    destruct (IH (if a then names ++ [Model.modelName m] else names) s')
      as (Hr & Ha & Hm); [intros n; by rewrite Hsnd|].
    rewrite Hr, Hm, Hmodels. split; [|by split].
    rewrite fmap_cons. cbn [List.filter]. rewrite <- Hacc, <- Hfst.
    destruct a; [by rewrite <- app_assoc|reflexivity].
Qed.

Lemma accessedModels_spec s :
  fst (Session.accessedModels s)
  = List.filter (accessed s) (Model.modelName <$> Session.sessionBoundModels s)
  ∧ (∀ n, accessed (snd (Session.accessedModels s)) n = accessed s n)
  ∧ Session.sessionBoundModels (snd (Session.accessedModels s))
    = Session.sessionBoundModels s.
Proof.
  exact (accessedModels_fold s (Session.sessionBoundModels s) [] s (λ n, eq_refl)).
Qed.

End Bound.

Section Construction.
Context {Inst : Type}.
Implicit Types (sch : Session.Schema Inst).

Lemma constructor_raises sch st act mut :
  Session.constructor sch st act mut = Session.Raised
  ↔ "sessionBoundModels" ∈ Model.modelName <$> Session.getModelClasses sch
    ∨ ¬ NoDup (List.filter (λ n, negb (bool_decide (n ∈ Session.ownFields)))
                 (Model.modelName <$> Session.getModelClasses sch)).
Proof.
  unfold Session.constructor. cbv zeta.
  destruct (bool_decide _ || negb (bool_decide _)) eqn:Hb.
  - split; [intros _|reflexivity].
    apply orb_true_iff in Hb as [Hb|Hb].
    + left. by apply bool_decide_eq_true in Hb.
    + right. apply negb_true_iff in Hb. by apply bool_decide_eq_false in Hb.
  - apply orb_false_iff in Hb as [Hb1 Hb2].
    apply bool_decide_eq_false in Hb1.
    apply negb_false_iff, bool_decide_eq_true in Hb2.
    split; [|by intros [H|H]].
    destruct (List.filter (λ n, bool_decide (n ∈ _ ++ _)) _); discriminate.
Qed.

Lemma filter_none_elem (P : string → bool) (l : list string) :
  List.filter P l = [] ↔ ∀ n, n ∈ l → P n = false.
Proof.
  induction l as [|x l IH]; cbn.
  - split; [intros _ n Hn; by apply elem_of_nil in Hn|reflexivity].
  - destruct (P x) eqn:Hx.
    + split; [discriminate|]. intros H. by rewrite (H x) in Hx by (by left).
    + rewrite IH. split.
      * intros H n Hn. apply elem_of_cons in Hn as [->|Hn]; [exact Hx|by apply H].
      * intros H n Hn. apply H. by right.
Qed.

Lemma NoDup_list_filter (P : string → bool) (l : list string) :
  NoDup l → NoDup (List.filter P l).
Proof.
  induction l as [|x l IH]; cbn; [done|].
  rewrite NoDup_cons. intros [Hx Hl]. destruct (P x); [|by apply IH].
  apply NoDup_cons. split; [|by apply IH].
  intros Hin. apply Hx. apply list_elem_of_In in Hin.
  apply List.filter_In in Hin as [Hin _]. by apply list_elem_of_In.
Qed.

Lemma filter_keeps_all (P : string → bool) (l : list string) :
  (∀ n, n ∈ l → P n = true) → List.filter P l = l.
Proof.
  induction l as [|x l IH]; intros H; [reflexivity|].
  cbn. rewrite (H x) by (by left). f_equal. apply IH.
  intros y Hy. apply H. by right.
Qed.

(** The session the constructor builds, when it builds one. *)
Lemma constructor_built sch st act mut s :
  Session.constructor sch st act mut = Session.Built s →
  s = {| Session.schema := sch;
         Session.state := default (Session.getDefaultState sch) st;
         Session.action := act;
         Session.withMutations := default false mut;
         Session.currentTx := Transaction.new;
         Session.modelData := ∅;
         Session.sessionBoundModels := Session.getModelClasses sch |}
  ∧ NoDup (Model.modelName <$> Session.getModelClasses sch)
  ∧ ∀ n, n ∈ Model.modelName <$> Session.getModelClasses sch →
         n ≠ "sessionBoundModels"
         ∧ n ∉ Session.ownFields ++ Session.inheritedMembers.
Proof.
  unfold Session.constructor. cbv zeta.
  destruct (bool_decide _ || negb (bool_decide _)) eqn:Hb; [discriminate|].
  apply orb_false_iff in Hb as [Hb1 Hb2].
  apply bool_decide_eq_false in Hb1.
  apply negb_false_iff, bool_decide_eq_true in Hb2.
  destruct (List.filter (λ n, bool_decide (n ∈ _ ++ _)) _) as [|m ms] eqn:Hf;
    [|discriminate].
  intros [= <-]. split; [reflexivity|].
  rewrite filter_none_elem in Hf.
  assert (∀ n, n ∈ Model.modelName <$> Session.getModelClasses sch →
               n ∉ Session.ownFields ++ Session.inheritedMembers) as Hfree.
  { intros n Hn. exact (proj1 (bool_decide_eq_false _) (Hf n Hn)). }
  split.
  - rewrite filter_keeps_all in Hb2; [exact Hb2|].
    intros n Hn. apply negb_true_iff, bool_decide_eq_false.
    intros Hown. apply (Hfree n Hn). apply elem_of_app. by left.
  - intros n Hn. split; [|by apply Hfree]. by intros ->.
Qed.

End Construction.

(** X14.  The constructor defines the accessor of each model on the session
    object itself.  It raises a [TypeError] exactly when a model is named
    [sessionBoundModels] or two models share a name that is not the name of
    a field already assigned.  It builds a session in which every model of
    the schema is bound under its name, and nothing else is, whenever the
    models are named apart and none bears [sessionBoundModels] or the name
    of a member of the session, and only then; that session holds the state
    it was given, or the default state of the schema when none was given, an
    empty log, and no model marked accessed.  Otherwise the object it
    returns has a member replaced by the accessor of a model: the members
    shadowed are the names of models that are names of members. *)
Theorem constructor_binds_models {Inst : Type} (sch : Session.Schema Inst)
    (st : option StateTree) (act : option Action) (mut : option bool) :
  let names := Model.modelName <$> Session.getModelClasses sch in
  (Session.constructor sch st act mut = Session.Raised
   ↔ "sessionBoundModels" ∈ names
     ∨ ¬ NoDup (List.filter (λ n, negb (bool_decide (n ∈ Session.ownFields))) names))
  ∧ ((∃ s, Session.constructor sch st act mut = Session.Built s)
     ↔ NoDup names
       ∧ ∀ n, n ∈ names →
              n ≠ "sessionBoundModels"
              ∧ n ∉ Session.ownFields ++ Session.inheritedMembers)
  ∧ (∀ s, Session.constructor sch st act mut = Session.Built s →
          Session.state s = default (Session.getDefaultState sch) st
          ∧ Session.withMutations s = default false mut
          ∧ Session.updates s = []
          ∧ fst (Session.accessedModels s) = []
          ∧ (∀ mc, mc ∈ Session.getModelClasses sch →
                   Session.bound s (Model.modelName mc) = Some mc)
          ∧ (∀ n, n ∉ names → Session.bound s n = None))
  ∧ (∀ ms, Session.constructor sch st act mut = Session.Shadowed ms →
           ms ≠ []
           ∧ ∀ m, m ∈ ms
                  ↔ m ∈ names ∧ m ∈ Session.ownFields ++ Session.inheritedMembers).
Proof.
  intros names. split; [apply constructor_raises|]. split; [|split].
  - split.
    + intros [s Hs]. exact (proj2 (constructor_built sch st act mut s Hs)).
    + intros [Hnd Hfree]. unfold Session.constructor. cbv zeta. fold names.
      assert (bool_decide ("sessionBoundModels" ∈ names) = false) as ->.
      { apply bool_decide_eq_false. intros Hin. by destruct (Hfree _ Hin). }
      pose proof (NoDup_list_filter
                    (λ n, negb (bool_decide (n ∈ Session.ownFields))) names Hnd) as Hnf.
      rewrite (bool_decide_eq_true_2 _ Hnf). cbn [orb negb].
      rewrite (proj2 (filter_none_elem _ names)); [by eexists|].
      intros n Hn. apply bool_decide_eq_false. by apply Hfree.
  - intros s Hs. destruct (constructor_built sch st act mut s Hs) as (-> & Hnd & Hfree).
    do 3 (split; [reflexivity|]). split; [|split].
    + rewrite (proj1 (accessedModels_spec _)). cbn.
      apply filter_none_elem. intros n _. unfold accessed. cbn.
      rewrite lookup_empty. by apply bool_decide_eq_false.
    + intros mc Hmc. by apply find_named.
    + intros n Hn. by apply find_unnamed.
  - intros ms. unfold Session.constructor. cbv zeta. fold names.
    destruct (bool_decide _ || negb (bool_decide _)); [discriminate|].
    destruct (List.filter (λ n, bool_decide (n ∈ _ ++ _)) names) as [|m0 ms0] eqn:Hf;
      [discriminate|].
    intros [= <-]. split; [discriminate|]. intros m. rewrite <- Hf.
    rewrite list_elem_of_In, List.filter_In, bool_decide_eq_true.
    by rewrite <- list_elem_of_In.
Qed.

Lemma constructor_binds_models_witness :
  (∃ s, Session.constructor (bookSchema defaultReducer) None None None
        = Session.Built s
        ∧ Session.state s = {[ "Book" := emptyTable ]}
        ∧ Session.bound s "Book"
          = Some (tableModel "Book" "id" bookState defaultReducer (λ _, [])))
  ∧ Session.constructor
      {| Session.getDefaultState := ∅; Session.getModelClasses := [Book; Book] |}
      None None None = Session.Raised
  ∧ Session.constructor
      {| Session.getDefaultState := ∅;
         Session.getModelClasses :=
           [tableModel "state" "id" bookState defaultReducer (λ _, [])] |}
      None None None = Session.Shadowed ["state"].
Proof.
  split; [|split].
  - destruct (proj2 (proj1 (proj2 (constructor_binds_models
                                     (bookSchema defaultReducer) None None None))))
      as [s Hs].
    { split; [apply (bool_decide_unpack _); vm_compute; reflexivity|].
      intros n Hn. apply list_elem_of_In in Hn. destruct Hn as [<-|[]].
      split; [discriminate|]. apply (bool_decide_unpack _). vm_compute. reflexivity. }
    destruct (proj1 (proj2 (proj2 (constructor_binds_models
                                     (bookSchema defaultReducer) None None None))) s Hs)
      as (Hst & _ & _ & _ & Hb & _).
    exists s. split; [exact Hs|]. split; [exact Hst|].
    apply (Hb (tableModel "Book" "id" bookState defaultReducer (λ _, []))).
    apply list_elem_of_In. by left.
  - apply (proj1 (constructor_binds_models
                    {| Session.getDefaultState := ∅;
                       Session.getModelClasses := [Book; Book] |} None None None)).
    right. apply (bool_decide_unpack _). vm_compute. reflexivity.
  - vm_compute. reflexivity.
Defined.

(** X15.  [accessedModels] lists, in the order of the schema, the names of
    exactly the bound models marked accessed; reading it marks nothing, so a
    second reading gives the same list; [markAccessed(model)] marks the
    table of the model and leaves the marks of the others, the models, the
    state and the log as they were. *)
Theorem accessedModels_lists_marked {Inst : Type} (s : Session.Session Inst) :
  fst (Session.accessedModels s)
  = List.filter (accessed s) (Model.modelName <$> Session.sessionBoundModels s)
  ∧ fst (Session.accessedModels (snd (Session.accessedModels s)))
    = fst (Session.accessedModels s)
  ∧ (∀ m n, accessed (Session.markAccessed m s) n
            = (bool_decide (n = Model.modelName m) || accessed s n))
  ∧ (∀ m, Session.sessionBoundModels (Session.markAccessed m s)
          = Session.sessionBoundModels s
          ∧ Session.state (Session.markAccessed m s) = Session.state s
          ∧ Session.currentTx (Session.markAccessed m s) = Session.currentTx s)
  ∧ (∀ m, m ∈ Session.sessionBoundModels s →
          Model.modelName m ∈ fst (Session.accessedModels (Session.markAccessed m s))).
Proof.
  assert (∀ m n, accessed (Session.markAccessed m s) n
                 = (bool_decide (n = Model.modelName m) || accessed s n)) as Hmark.
  { intros m n. unfold Session.markAccessed, Session.getDataForModel, accessed.
    destruct (Session.modelData s !! Model.modelName m) as [d|] eqn:Hd; cbn;
      (destruct (decide (n = Model.modelName m)) as [->|Hn];
       [rewrite lookup_insert_eq, (bool_decide_eq_true_2 (_ = Model.modelName m)) by done;
        by apply bool_decide_eq_true
       |rewrite (bool_decide_eq_false_2 (n = _)) by done;
        by rewrite !lookup_insert_ne by done]). }
  assert (∀ m, Session.sessionBoundModels (Session.markAccessed m s)
               = Session.sessionBoundModels s
               ∧ Session.state (Session.markAccessed m s) = Session.state s
               ∧ Session.currentTx (Session.markAccessed m s) = Session.currentTx s)
    as Hframe.
  { intros m. unfold Session.markAccessed, Session.getDataForModel.
    by destruct (Session.modelData s !! Model.modelName m). }
  destruct (accessedModels_spec s) as (Hlist & Hacc & Hmodels).
  split; [exact Hlist|]. split.
  { rewrite (proj1 (accessedModels_spec _)), Hmodels, Hlist.
    apply filter_pointwise. exact Hacc. }
  split; [exact Hmark|]. split; [exact Hframe|].
  intros m Hm. rewrite (proj1 (accessedModels_spec _)), (proj1 (Hframe m)).
  apply filter_elem_of.
  - apply list_elem_of_fmap. by exists m.
  - rewrite Hmark. by rewrite bool_decide_eq_true_2.
Qed.

Lemma accessedModels_lists_marked_witness :
  fst (Session.accessedModels (bookSession defaultReducer false Transaction.new)) = []
  ∧ "Book" ∈ fst (Session.accessedModels
                    (Session.markAccessed Book
                       (bookSession defaultReducer false Transaction.new))).
Proof.
  destruct (accessedModels_lists_marked
              (bookSession defaultReducer false Transaction.new))
    as (Hlist & _ & _ & _ & Hin).
  split; [rewrite Hlist; vm_compute; reflexivity|].
  apply (Hin Book). apply list_elem_of_In. by left.
Defined.

(** ** Recording updates *)

Section Recording.
Context {Inst : Type}.
Implicit Types (s : Session.Session Inst) (u : Update) (us : list Update).

Lemma recordAll_cons u us s :
  recordAll (u :: us) s
  = Session.addUpdate u s ≫= recordAll us.
Proof.
  unfold recordAll. cbn [foldl].
  change (Ok s ≫= Session.addUpdate u) with (Session.addUpdate u s).
  destruct (Session.addUpdate u s) as [s1|]; [reflexivity|].
  change (TypeError ≫= recordAll us) with (@TypeError (Session.Session Inst)).
  induction us as [|u' us IH]; [reflexivity|exact IH].
Qed.

Lemma recordAll_logging us s :
  Session.withMutations s = false →
  recordAll us s
  = Ok (Session.with_currentTx s
          (foldl (λ tx u, Transaction.addUpdate u tx) (Session.currentTx s) us)).
Proof.
  revert s. induction us as [|u us IH]; intros s Hm.
  - by destruct s.
  - rewrite recordAll_cons, (addUpdate_logging s u Hm).
    change (Ok ?x ≫= recordAll us) with (recordAll us x).
    rewrite IH by exact Hm. reflexivity.
Qed.

Lemma recordAll_mutating us s s' :
  Session.withMutations s = true →
  recordAll us s = Ok s' →
  Session.currentTx s' = Session.currentTx s
  ∧ Session.withMutations s' = true.
Proof.
  revert s. induction us as [|u us IH]; intros s Hm.
  - by intros [= <-].
  - rewrite recordAll_cons.
    destruct (Session.addUpdate u s) as [s1|] eqn:Hs1; [|discriminate].
    change (Ok s1 ≫= recordAll us) with (recordAll us s1). intros Hs'.
    assert (Session.withMutations s1 = true) as Hm1.
    { revert Hs1. unfold Session.addUpdate. rewrite Hm.
      destruct (meta u) as [mt|]; [|discriminate].
      destruct (Session.bound s (name mt)) as [mc|]; [|discriminate].
      destruct (Session.getState s (name mt)) as [t|]; [|discriminate].
      by intros [= <-]. }
    destruct (IH s1 Hm1 Hs') as [Htx Hm']. split; [|exact Hm'].
    rewrite Htx. exact (addUpdate_mutating_log s u s1 Hm Hs1).
Qed.

End Recording.

(** X16.  On a session configured for in-place mutation [addUpdate] raises a
    [TypeError] for a record without [meta], and for a record naming a table
    the session has no model of; on a session not so configured a record
    whose [meta] names a table, be it one the session has no model of, is
    appended to the log without error. *)
Theorem addUpdate_needs_bound_model {Inst : Type}
    (s : Session.Session Inst) (u : Update) :
  (Session.withMutations s = true →
   (meta u = None → Session.addUpdate u s = TypeError)
   ∧ (∀ mt, meta u = Some mt → Session.bound s (name mt) = None →
            Session.addUpdate u s = TypeError)
   ∧ (∀ mt, meta u = Some mt →
            name mt ∉ Model.modelName <$> Session.sessionBoundModels s →
            Session.addUpdate u s = TypeError))
  ∧ (Session.withMutations s = false →
     ∀ mt, meta u = Some mt →
           ∃ s', Session.addUpdate u s = Ok s'
                 ∧ Session.updates s' = Session.updates s ++ [u]
                 ∧ Session.state s' = Session.state s).
Proof.
  split; intros Hm.
  - unfold Session.addUpdate. rewrite Hm. split; [by intros ->|].
    split.
    + intros mt -> Hb. cbn. by rewrite Hb.
    + intros mt -> Hn. cbn. apply find_unnamed in Hn.
      unfold Session.bound. by rewrite Hn.
  - intros mt Hmt. eexists. split; [exact (addUpdate_logging s u Hm)|].
    unfold Session.updates. cbn. rewrite map_app. by split.
Qed.

Lemma addUpdate_needs_bound_model_witness :
  Session.addUpdate anonymousRemoval (bookSession defaultReducer true Transaction.new)
  = TypeError
  ∧ Session.addUpdate authorRemoval (bookSession defaultReducer true Transaction.new)
    = TypeError
  ∧ Session.updates
      <$> Session.addUpdate authorRemoval
            (bookSession defaultReducer false Transaction.new)
    = Ok [authorRemoval].
Proof.
  destruct (addUpdate_needs_bound_model
              (bookSession defaultReducer true Transaction.new) anonymousRemoval)
    as [Hanon _].
  destruct (addUpdate_needs_bound_model
              (bookSession defaultReducer true Transaction.new) authorRemoval)
    as [Hauthor _].
  destruct (addUpdate_needs_bound_model
              (bookSession defaultReducer false Transaction.new) authorRemoval)
    as [_ Hlog].
  split; [exact (proj1 (Hanon eq_refl) eq_refl)|].
  split; [exact (proj1 (proj2 (Hauthor eq_refl)) {| name := "Author" |} eq_refl eq_refl)|].
  destruct (Hlog eq_refl {| name := "Author" |} eq_refl) as (s' & Hs' & Hup & _).
  rewrite Hs'. cbn. by rewrite Hup.
Defined.

(** X17.  On a session that does not mutate in place, recording a sequence
    of updates never fails; [updates] then shows the records in the order
    recorded, after those already there, [getUpdatesFor(name)] shows those
    among them that target the table, in the same order, and the state is
    as it was.  On a session that mutates in place the log stays as it was,
    whatever is recorded. *)
Theorem recording_keeps_order {Inst : Type}
    (s : Session.Session Inst) (us : list Update) :
  (Session.withMutations s = false →
   ∃ s', recordAll us s = Ok s'
         ∧ Session.updates s' = Session.updates s ++ us
         ∧ (∀ n, Session.getUpdatesFor n s'
                 = Session.getUpdatesFor n s ++ List.filter (Transaction.targets n) us)
         ∧ Session.state s' = Session.state s)
  ∧ (Session.withMutations s = true →
     ∀ s', recordAll us s = Ok s' →
           Session.updates s' = Session.updates s
           ∧ ∀ n, Session.getUpdatesFor n s' = Session.getUpdatesFor n s).
Proof.
  split; intros Hm.
  - eexists. split; [exact (recordAll_logging us s Hm)|].
    unfold Session.updates, Session.getUpdatesFor, Transaction.getUpdatesFor. cbn.
    rewrite addUpdate_all_updates. split; [|split; [|reflexivity]].
    + rewrite map_app. f_equal.
      induction us as [|u us IH]; [reflexivity|]. cbn. by rewrite IH.
    + intros n. rewrite List.filter_app, map_app. f_equal.
      induction us as [|u us IH]; [reflexivity|].
      cbn. destruct (Transaction.targets n u); cbn; by rewrite IH.
  - intros s' Hs'. destruct (recordAll_mutating us s s' Hm Hs') as [Htx _].
    unfold Session.updates, Session.getUpdatesFor. by rewrite Htx.
Qed.

Lemma recording_keeps_order_witness :
  Session.updates
    <$> recordAll [removal [VNum 1]; authorRemoval; removal [VNum 3]]
          (bookSession defaultReducer false Transaction.new)
  = Ok [removal [VNum 1]; authorRemoval; removal [VNum 3]]
  ∧ Session.getUpdatesFor "Book"
      <$> recordAll [removal [VNum 1]; authorRemoval; removal [VNum 3]]
            (bookSession defaultReducer false Transaction.new)
    = Ok [removal [VNum 1]; removal [VNum 3]]
  ∧ Session.updates
      <$> recordAll [removal [VNum 1; VNum 3]]
            (bookSession defaultReducer true Transaction.new)
    = Ok [].
Proof.
  destruct (recording_keeps_order
              (bookSession defaultReducer false Transaction.new)
              [removal [VNum 1]; authorRemoval; removal [VNum 3]]) as [Hlog _].
  destruct (Hlog eq_refl) as (s' & Hs' & Hup & Hfor & _).
  destruct (recording_keeps_order
              (bookSession defaultReducer true Transaction.new)
              [removal [VNum 1; VNum 3]]) as [_ Hmut].
  split; [|split].
  - rewrite Hs'. cbn. by rewrite Hup.
  - rewrite Hs'. cbn [fmap result_fmap]. rewrite (Hfor "Book"). vm_compute. reflexivity.
  - pose proof (recordAll_cons (removal [VNum 1; VNum 3]) []
                  (bookSession defaultReducer true Transaction.new)) as Hrec.
    rewrite (addUpdate_mutating (bookSession defaultReducer true Transaction.new)
               (removal [VNum 1; VNum 3]) {| name := "Book" |}
               (tableModel "Book" "id" bookState defaultReducer (λ _, []))
               bookTable eq_refl eq_refl eq_refl eq_refl) in Hrec.
    change (Ok ?x ≫= recordAll []) with (@Ok (Session.Session record) x) in Hrec.
    rewrite Hrec. cbn [fmap result_fmap].
    by rewrite (proj1 (Hmut eq_refl _ Hrec)).
Defined.

(** ** [getNextState]: the options, the entries and a second call *)

Section NextState.
Context {Inst : Type}.
Implicit Types (s : Session.Session Inst) (mc : Model.ModelClass Inst)
  (acc : StateTree * Transaction) (l : list (Model.ModelClass Inst)).

Lemma unappliedPass_kept s acc (n : string) :
  hasUnapplied (snd acc) n = false →
  fst (Session.unappliedPass s acc) !! n = fst acc !! n.
Proof.
  unfold hasUnapplied, Session.unappliedPass. intros Hn.
  destruct (Transaction.getUnappliedUpdatesByModel (snd acc)) as [unapplied|];
    [|reflexivity].
  apply unapplied_steps_keep_applied.
  apply bool_decide_eq_false in Hn. by apply eq_None_not_Some.
Qed.

Lemma unappliedPass_others s acc (n : string) :
  n ∉ Model.modelName <$> Session.sessionBoundModels s →
  fst (Session.unappliedPass s acc) !! n = fst acc !! n.
Proof.
  unfold Session.unappliedPass. intros Hn.
  destruct (Transaction.getUnappliedUpdatesByModel (snd acc)) as [unapplied|];
    [|reflexivity].
  by apply unapplied_steps_keep_others.
Qed.

(** [getNextState] reads its options and the action only to settle whether
    the reducers run. *)
Lemma getNextState_by_resolution s o1 o2 :
  Session.resolveRunReducers o1 s = Session.resolveRunReducers o2 s →
  Session.getNextState o1 s = Session.getNextState o2 s.
Proof. intros Hr. unfold Session.getNextState. by rewrite Hr. Qed.

Lemma getNextState_no_reducers s opts :
  Session.withMutations s = false →
  Session.resolveRunReducers opts s = false →
  fst (Session.getNextState opts s)
  = fst (Session.unappliedPass s (Session.state s, Session.currentTx s)).
Proof.
  intros Hm Hr. rewrite getNextState_fst by exact Hm. by rewrite Hr.
Qed.

End NextState.

(** X18.  Whether [getNextState] runs the reducers: an own [runReducers] of
    the options decides; without it they run exactly when the session has an
    action.  The options and the action matter no further: [reduce()] gives
    what [getNextState] gives under any options with which the reducers
    run, and on a session with an action that is what [getNextState()]
    without options gives. *)
Theorem reducers_run_by_option_or_action {Inst : Type}
    (s : Session.Session Inst) (opts : option Session.NextStateOpts) :
  (Session.resolveRunReducers opts s = true
   ↔ opts ≫= Session.runReducers = Some true
     ∨ (opts ≫= Session.runReducers = None ∧ is_Some (Session.action s)))
  ∧ (Session.resolveRunReducers opts s = true →
     Session.getNextState opts s = Session.reduce s)
  ∧ (is_Some (Session.action s) → Session.getNextState None s = Session.reduce s)
  ∧ (Session.action s = None →
     Session.getNextState None s = Session.getNextState withoutReducers s).
Proof.
  split; [|split; [|split]].
  - unfold Session.resolveRunReducers.
    destruct (opts ≫= Session.runReducers) as [[|]|].
    + split; [by left|done].
    + split; [done|]. intros [[=]|[[=] _]].
    + rewrite bool_decide_eq_true. split; [by right|]. by intros [[=]|[_ H]].
  - intros Hr. unfold Session.reduce. by apply getNextState_by_resolution.
  - intros Ha. unfold Session.reduce. apply getNextState_by_resolution.
    unfold Session.resolveRunReducers. cbn. by apply bool_decide_eq_true.
  - intros Ha. apply getNextState_by_resolution.
    unfold Session.resolveRunReducers. cbn. rewrite Ha.
    apply bool_decide_eq_false. by intros [a [=]].
Qed.

Lemma reducers_run_by_option_or_action_witness :
  Session.getNextState runningReducers (bookSession defaultReducer false twoRemovals)
  = Session.reduce (bookSession defaultReducer false twoRemovals)
  ∧ Session.getNextState None (bookSession defaultReducer false twoRemovals)
    = Session.getNextState withoutReducers
        (bookSession defaultReducer false twoRemovals).
Proof.
  destruct (reducers_run_by_option_or_action
              (bookSession defaultReducer false twoRemovals) runningReducers)
    as (_ & Hrun & _ & _).
  destruct (reducers_run_by_option_or_action
              (bookSession defaultReducer false twoRemovals) None)
    as (_ & _ & _ & Hnone).
  split; [exact (Hrun eq_refl)|exact (Hnone eq_refl)].
Defined.

(** X19.  [getNextState] on a session that does not mutate in place, when
    the reducers do not run: a table for which the log holds no unapplied
    update keeps the value it has in the state of the session, and so does
    the table of no model; when the log holds no unapplied update at all the
    state of the session is returned as it is; with the models named apart,
    a table of a model that has unapplied updates gets the value
    [Model.getNextState] computes from the log. *)
Theorem getNextState_without_reducers {Inst : Type}
    (s : Session.Session Inst) (opts : option Session.NextStateOpts) :
  Session.withMutations s = false →
  Session.resolveRunReducers opts s = false →
  let next := fst (Session.getNextState opts s) in
  (∀ n, hasUnapplied (Session.currentTx s) n = false →
        next !! n = Session.state s !! n)
  ∧ (∀ n, n ∉ Model.modelName <$> Session.sessionBoundModels s →
          next !! n = Session.state s !! n)
  ∧ (Transaction.getUnappliedUpdatesByModel (Session.currentTx s) = None →
     next = Session.state s)
  ∧ (NoDup (Model.modelName <$> Session.sessionBoundModels s) →
     ∀ unapplied pre mc post,
       Transaction.getUnappliedUpdatesByModel (Session.currentTx s) = Some unapplied →
       Session.sessionBoundModels s = pre ++ mc :: post →
       is_Some (unapplied !! Model.modelName mc) →
       next !! Model.modelName mc
       = Some (fst (Model.getNextState mc (Session.state s)
                      (snd (afterUnappliedOf s unapplied
                              (Session.state s, Session.currentTx s) pre))))).
Proof.
  intros Hm Hr next. unfold next. rewrite (getNextState_no_reducers s opts Hm Hr).
  split; [|split; [|split]].
  - intros n Hn. by rewrite unappliedPass_kept.
  - intros n Hn. by rewrite unappliedPass_others.
  - intros Hnone. unfold Session.unappliedPass. cbn [snd]. by rewrite Hnone.
  - intros Hnd unapplied pre mc post Hun Hsplit Hsome.
    unfold Session.unappliedPass. cbn [snd]. rewrite Hun.
    unfold afterUnappliedOf. rewrite Hsplit, foldl_app. cbn [foldl].
    rewrite unapplied_steps_keep_others, unappliedStep_fst.
    + rewrite bool_decide_eq_true_2 by exact Hsome. by rewrite lookup_insert_eq.
    + apply (split_name_fresh pre). by rewrite <- Hsplit.
Qed.

Lemma getNextState_without_reducers_witness :
  fst (Session.getNextState None (bookSession identityReducer false Transaction.new))
  = bookState
  ∧ fst (Session.getNextState withoutReducers
           (bookSession defaultReducer false twoRemovals)) !! "Author"
    = None.
Proof.
  destruct (getNextState_without_reducers
              (bookSession identityReducer false Transaction.new) None
              eq_refl eq_refl) as (_ & _ & Hnone & _).
  destruct (getNextState_without_reducers
              (bookSession defaultReducer false twoRemovals) withoutReducers
              eq_refl eq_refl) as (Hkept & _ & _ & _).
  split; [exact (Hnone eq_refl)|].
  rewrite (Hkept "Author"); [reflexivity|vm_compute; reflexivity].
Defined.

(** X21.  A session that does not mutate in place forgets what
    [getNextState] computed: a second [getNextState] right after the first
    finds the log empty and the state as it was before the first, so that
    without reducers it returns the state the session was built on, whatever
    the first call returned; and [updates] read in between is empty. *)
Theorem second_getNextState_starts_over {Inst : Type}
    (s : Session.Session Inst) (o1 o2 : option Session.NextStateOpts) :
  Session.withMutations s = false →
  Session.resolveRunReducers o2 s = false →
  let s1 := snd (Session.getNextState o1 s) in
  fst (Session.getNextState o2 s1) = Session.state s
  ∧ Session.updates s1 = []
  ∧ snd (Session.getNextState o2 s1) = s1.
Proof.
  intros Hm Hr s1. unfold s1. rewrite (getNextState_snd s o1 Hm).
  split; [|split; [reflexivity|]].
  - rewrite getNextState_no_reducers; [reflexivity|exact Hm|exact Hr].
  - rewrite getNextState_snd; [reflexivity|exact Hm].
Qed.

Lemma second_getNextState_starts_over_witness :
  fst (Session.getNextState runningReducers
         (bookSession defaultReducer false twoRemovals)) !! "Book"
  = Some bookTableLeft
  ∧ fst (Session.getNextState None
           (snd (Session.getNextState runningReducers
                   (bookSession defaultReducer false twoRemovals))))
    = bookState.
Proof.
  split; [vm_compute; reflexivity|].
  exact (proj1 (second_getNextState_starts_over
                  (bookSession defaultReducer false twoRemovals)
                  runningReducers None eq_refl eq_refl)).
Defined.
